(** * HL7 Spec Extractor: field statistics aggregation and sequence profiling

    A shallow embedding of [aggregator.py], [hl7_fields.py] (type inference
    and the PHI test), [sequence_profiler.py] and the field tests of
    [spec_builder.py], with the properties of the aggregation engine and of
    the sequence-pattern profiler proved over it.

    Conventions of the embedding:
    - a Python [str] is a [string]; its characters are read as code points
      below 256;
    - a Python [dict] / [Counter] whose iteration order is observable is an
      association list in insertion order ([al_set] updates in place or
      appends, as CPython does); a [set], and a dict that is only ever
      looked up, are stdpp's [gset] / [gmap];
    - Python integers that count things are [nat];
    - mutation of an object reached through one reference is explicit state
      passing. *)

From Stdlib Require Import Strings.Ascii Strings.String Floats.SpecFloat.
From stdpp Require Import gmap strings list pretty.

Set Warnings "-register-all".

Open Scope string_scope.
Open Scope list_scope.
Open Scope nat_scope.

(** ** Strings *)

Module Str.

(** [str.isspace] restricted to code points below 256. *)
Definition is_space (c : ascii) : bool :=
  let n := nat_of_ascii c in
  ((9 <=? n) && (n <=? 13)) || ((28 <=? n) && (n <=? 32))
  || (n =? 133) || (n =? 160).

Fixpoint mem (c : ascii) (chars : string) : bool :=
  match chars with
  | "" => false
  | String d r => if Ascii.eqb c d then true else mem c r
  end.

Fixpoint lstrip_with (p : ascii -> bool) (s : string) : string :=
  match s with
  | "" => ""
  | String c r => if p c then lstrip_with p r else s
  end.

Fixpoint rstrip_with (p : ascii -> bool) (s : string) : string :=
  match s with
  | "" => ""
  | String c r =>
      match rstrip_with p r with
      | "" => if p c then "" else String c ""
      | r' => String c r'
      end
  end.

Definition strip_with (p : ascii -> bool) (s : string) : string :=
  rstrip_with p (lstrip_with p s).

(** [s.strip()] *)
Definition strip (s : string) : string := strip_with is_space s.

(** [s.strip(chars)] *)
Definition strip_chars (chars s : string) : string :=
  strip_with (fun c => mem c chars) s.

(** [sep.join(l)] *)
Fixpoint join (sep : string) (l : list string) : string :=
  match l with
  | [] => ""
  | [x] => x
  | x :: r => x +:+ sep +:+ join sep r
  end.

(** [s.endswith(suffix)] *)
Fixpoint endswith (s suffix : string) : bool :=
  if String.eqb s suffix then true
  else match s with
       | "" => false
       | String _ r => endswith r suffix
       end.

(** [s.split(c)[0]]: the text before the first occurrence of [c]. *)
Fixpoint before (c : ascii) (s : string) : string :=
  match s with
  | "" => ""
  | String d r => if Ascii.eqb d c then "" else String d (before c r)
  end.

(** [s.replace(c, '')] for a one-character [c]. *)
Fixpoint remove_char (c : ascii) (s : string) : string :=
  match s with
  | "" => ""
  | String d r => if Ascii.eqb d c then remove_char c r
                  else String d (remove_char c r)
  end.

(** [s.replace(old, '')] for a non-empty [old]: leftmost, non-overlapping
    occurrences are dropped.  [skip] counts the characters of an
    occurrence still to be dropped. *)
Fixpoint remove_sub_from (old : string) (skip : nat) (s : string) : string :=
  match s with
  | "" => ""
  | String c r =>
      match skip with
      | S k => remove_sub_from old k r
      | O => if String.prefix old s
             then remove_sub_from old (String.length old - 1) r
             else String c (remove_sub_from old 0 r)
      end
  end.

Definition remove_sub (old s : string) : string := remove_sub_from old 0 s.

(** [s.lower()] on the ASCII letters. *)
Definition lower_char (c : ascii) : ascii :=
  let n := nat_of_ascii c in
  if (65 <=? n) && (n <=? 90) then ascii_of_nat (n + 32) else c.

Fixpoint lower (s : string) : string :=
  match s with
  | "" => ""
  | String c r => String (lower_char c) (lower r)
  end.

Definition is_digit (c : ascii) : bool :=
  let n := nat_of_ascii c in (48 <=? n) && (n <=? 57).

Fixpoint all_chars (p : ascii -> bool) (s : string) : bool :=
  match s with
  | "" => true
  | String c r => p c && all_chars p r
  end.

End Str.

(** ** Ordered dictionaries *)

Section AssocList.
Context {K V : Type} `{EqDecision K}.

Fixpoint al_find (k : K) (d : list (K * V)) : option V :=
  match d with
  | [] => None
  | (k', v) :: r => if decide (k = k') then Some v else al_find k r
  end.

(** [d[k] = v]: an existing key keeps its position, a new one goes last. *)
Fixpoint al_set (k : K) (v : V) (d : list (K * V)) : list (K * V) :=
  match d with
  | [] => [(k, v)]
  | (k', v') :: r =>
      if decide (k = k') then (k', v) :: r else (k', v') :: al_set k v r
  end.

(** [d.pop(k)] / [del d[k]], on the dictionary. *)
Fixpoint al_remove (k : K) (d : list (K * V)) : list (K * V) :=
  match d with
  | [] => []
  | (k', v') :: r =>
      if decide (k = k') then r else (k', v') :: al_remove k r
  end.

Definition al_keys (d : list (K * V)) : list K := d.*1.

Definition al_mem (k : K) (d : list (K * V)) : bool :=
  match al_find k d with Some _ => true | None => false end.
End AssocList.

(** A [Counter]: [c[k] += 1], where a missing key reads as 0. *)
Definition counter_incr {K} `{EqDecision K} (k : K) (c : list (K * nat))
  : list (K * nat) :=
  al_set k (S (default 0 (al_find k c))) c.

Definition counter_total {K} (c : list (K * nat)) : nat :=
  foldr (fun kv acc => kv.2 + acc) 0 c.

(** ** Field values as the decoder hands them over: a string or a (nested)
    list. *)

Inductive pyval :=
| PStr (s : string)
| PList (l : list pyval).

(** ** aggregator.py: FieldStats *)

Definition MAX_UNIQUE : nat := 100.

Record FieldStats := mkFieldStats {
  values : list (string * nat);
  presence_count : nat;
  _frozen : bool
}.

(** [FieldStats.__init__] *)
Definition FieldStats_init : FieldStats :=
  {| values := []; presence_count := 0; _frozen := false |}.

Definition add_value (self : FieldStats) (value : string) : FieldStats :=
  if _frozen self then self
  else if length (values self) <? MAX_UNIQUE then
    {| values := counter_incr value (values self);
       presence_count := presence_count self;
       _frozen := _frozen self |}
  else
    {| values := [("__TOO_MANY__", 1)];
       presence_count := presence_count self;
       _frozen := true |}.

Definition mark_present (self : FieldStats) : FieldStats :=
  {| values := values self;
     presence_count := presence_count self + 1;
     _frozen := _frozen self |}.

(** ** aggregator.py: normalisation *)

(** [flatten_list]: [flatten_value] is the loop body (one item), the inner
    [fix] is the loop over the list. *)
Fixpoint flatten_value (item : pyval) : list string :=
  match item with
  | PStr s => [Str.strip s]
  | PList l =>
      (fix flatten_list (lst : list pyval) : list string :=
         match lst with
         | [] => []
         | item :: r => flatten_value item ++ flatten_list r
         end) l
  end.

Definition flatten_list (lst : list pyval) : list string :=
  flatten_value (PList lst).

Definition normalize_value (value : pyval) : string :=
  match value with
  | PList l => Str.strip_chars "^" (Str.join "^" (flatten_list l))
  | PStr s => Str.strip s
  end.

Fixpoint collapse_complex_components (value : pyval) : string :=
  match value with
  | PList l =>
      Str.strip_chars "^"
        (Str.join "^"
           ((fix each (vs : list pyval) : list string :=
               match vs with
               | [] => []
               | v :: r =>
                   match v with
                   | PList _ => collapse_complex_components v
                   | PStr s => Str.strip s
                   end :: each r
               end) l))
  | PStr s => Str.strip s
  end.

(** [process_field_value]: the statistics object and the per-message set of
    counted keys are both updated in place by the source; here they are
    returned. *)
Definition process_field_value (value : pyval) (field_path : string)
    (stats : FieldStats) (seen_fields : gset string) (segment_name : string)
  : FieldStats * gset string :=
  if _frozen stats then (stats, seen_fields)
  else
    let normalized := normalize_value value in
    let field_key := segment_name +:+ "." +:+ field_path in
    if bool_decide (normalized = "") then (stats, seen_fields)
    else
      let '(stats, seen_fields) :=
        if bool_decide (field_key ∈ seen_fields) then (stats, seen_fields)
        else (mark_present stats, seen_fields ∪ {[ field_key ]}) in
      (add_value stats normalized, seen_fields).

(** ** hl7_fields.py: type inference *)

(** The regular expressions used by [infer_type], and [re.fullmatch] by
    derivatives. *)
Module Re.

Inductive regex :=
| Empty                         (* matches nothing *)
| Eps                           (* the empty string *)
| Class (p : ascii -> bool)     (* one character of a class *)
| Seq (r1 r2 : regex)
| Alt (r1 r2 : regex)
| Star (r : regex).

Definition Opt (r : regex) : regex := Alt Eps r.      (* r? *)
Definition Plus (r : regex) : regex := Seq r (Star r). (* r+ *)

Fixpoint Times (n : nat) (r : regex) : regex :=       (* r{n} *)
  match n with
  | O => Eps
  | S k => Seq r (Times k r)
  end.

Fixpoint nullable (r : regex) : bool :=
  match r with
  | Empty => false
  | Eps => true
  | Class _ => false
  | Seq r1 r2 => nullable r1 && nullable r2
  | Alt r1 r2 => nullable r1 || nullable r2
  | Star _ => true
  end.

Fixpoint deriv (c : ascii) (r : regex) : regex :=
  match r with
  | Empty => Empty
  | Eps => Empty
  | Class p => if p c then Eps else Empty
  | Seq r1 r2 =>
      Alt (Seq (deriv c r1) r2) (if nullable r1 then deriv c r2 else Empty)
  | Alt r1 r2 => Alt (deriv c r1) (deriv c r2)
  | Star r1 => Seq (deriv c r1) (Star r1)
  end.

Fixpoint fullmatch (r : regex) (s : string) : bool :=
  match s with
  | "" => nullable r
  | String c s' => fullmatch (deriv c r) s'
  end.

(** [\d] *)
Definition digit : regex := Class Str.is_digit.
(** [[-+]] *)
Definition sign : regex := Class (fun c => Str.mem c "-+").
(** [\.] *)
Definition dot : regex := Class (fun c => Ascii.eqb c ".").

(** [\d{n}] *)
Definition digits_exactly (n : nat) : regex := Times n digit.
(** [[-+]?\d+] *)
Definition int_re : regex := Seq (Opt sign) (Plus digit).
(** [[-+]?\d*\.\d+] *)
Definition float_re : regex :=
  Seq (Opt sign) (Seq (Star digit) (Seq dot (Plus digit))).

End Re.

(** [uuid.UUID(text)] of the Python standard library succeeds or raises;
    [infer_type] only observes which.  The constructor removes ["urn:"] and
    ["uuid:"], strips braces, removes hyphens, requires 32 remaining
    characters and reads them with [int(_, 16)], whose result must be a
    non-negative 128-bit number. *)
Module Uuid.

Definition hex_digit (c : ascii) : option Z :=
  let n := nat_of_ascii c in
  if (48 <=? n) && (n <=? 57) then Some (Z.of_nat (n - 48))
  else if (97 <=? n) && (n <=? 102) then Some (Z.of_nat (n - 87))
  else if (65 <=? n) && (n <=? 70) then Some (Z.of_nat (n - 55))
  else None.

(** The white space that [int] skips before and after the digits: tab to
    carriage return and the space, and the two white-space characters
    between 128 and 255, which [int] first turns into spaces.  The
    separators 0x1C to 0x1F, which [str.strip] removes, are not skipped. *)
Definition is_int_space (c : ascii) : bool :=
  let n := nat_of_ascii c in
  ((9 <=? n) && (n <=? 13)) || (n =? 32) || (n =? 133) || (n =? 160).

(** Digits of [int(_, 16)] up to the end of the text or trailing
    white space: single underscores may separate digits. [prev_us] records
    that the previous character was an underscore, [seen] that a digit was
    read. *)
Fixpoint hex_digits (acc : Z) (prev_us seen : bool) (s : string) : option Z :=
  match s with
  | "" => if prev_us || negb seen then None else Some acc
  | String c r =>
      if Ascii.eqb c "_" then
        if prev_us then None else hex_digits acc true seen r
      else
        match hex_digit c with
        | Some d => hex_digits (16 * acc + d)%Z false true r
        | None =>
            if prev_us || negb seen then None
            else if Str.all_chars is_int_space s then Some acc else None
        end
  end.

(** After the sign: an optional [0x] / [0X] prefix, which may be followed
    by one underscore; the digits may not start with an underscore. *)
Definition hex_body (s : string) : option Z :=
  let s :=
    match s with
    | String "0" (String x r) =>
        if Ascii.eqb x "x" || Ascii.eqb x "X" then
          match r with
          | String "_" r' => r'
          | _ => r
          end
        else s
    | _ => s
    end in
  match s with
  | String "_" _ => None
  | _ => hex_digits 0 false false s
  end.

(** [int(text, 16)]; [None] stands for [ValueError]. *)
Definition int16 (text : string) : option Z :=
  match Str.lstrip_with is_int_space text with
  | String "+" r => hex_body r
  | String "-" r => Z.opp <$> hex_body r
  | s => hex_body s
  end.

Definition parses (text : string) : bool :=
  let hex := Str.remove_sub "uuid:" (Str.remove_sub "urn:" text) in
  let hex := Str.remove_char "-" (Str.strip_chars "{}" hex) in
  if String.length hex =? 32 then
    match int16 hex with
    | Some n => (0 <=? n)%Z && (n <? 2 ^ 128)%Z
    | None => false
    end
  else false.

End Uuid.

(** [infer_type(values)]: [values] is a [Counter]; iterating it yields its
    keys in insertion order. *)
Definition infer_type (values : list (string * nat)) : string :=
  let sample :=
    List.find (fun v => negb (String.eqb v "__TOO_MANY__")) (al_keys values) in
  match sample with
  | None => "unknown"
  | Some sample =>
      if String.eqb sample "" then "unknown"
      else if Re.fullmatch (Re.digits_exactly 8) sample then "yyyyMMdd"
      else if Re.fullmatch (Re.digits_exactly 14) sample then "yyyyMMddHHmmss"
      else if Re.fullmatch (Re.digits_exactly 12) sample then "yyyyMMddHHmm"
      else if Uuid.parses sample then "uuid"
      else if Re.fullmatch Re.int_re sample then "int"
      else if Re.fullmatch Re.float_re sample then "float"
      else if bool_decide (Str.lower sample ∈ ["true"; "false"; "y"; "n"])
      then "boolean"
      else "string"
  end.

(** The classification as the specification words it, on plain predicates
    over the sample (no regular expressions, no conversion to a number, no
    change of case): used to compare with [infer_type]. *)
Module TypeSpec.

Definition n_digit_string (n : nat) (s : string) : bool :=
  (String.length s =? n) && Str.all_chars Str.is_digit s.

Definition nonempty_digits (s : string) : bool :=
  negb (String.eqb s "") && Str.all_chars Str.is_digit s.

Definition unsigned (s : string) : string :=
  match s with
  | String c r => if Ascii.eqb c "-" || Ascii.eqb c "+" then r else s
  | "" => s
  end.

(** an optionally signed, non-empty run of digits *)
Definition integer_text (s : string) : bool := nonempty_digits (unsigned s).

(** digits (possibly none), a dot, and at least one digit *)
Fixpoint decimal_body (s : string) : bool :=
  match s with
  | "" => false
  | String c r =>
      if Ascii.eqb c "." then nonempty_digits r
      else Str.is_digit c && decimal_body r
  end.

Definition decimal_text (s : string) : bool := decimal_body (unsigned s).

(** [c] is the upper-case form of the lower-case letter [t], the two
    alphabets read side by side *)
Fixpoint upper_of (t c : ascii) (lowers uppers : string) : bool :=
  match lowers, uppers with
  | String l ls, String u us =>
      (Ascii.eqb t l && Ascii.eqb c u) || upper_of t c ls us
  | _, _ => false
  end.

(** [c] is the character [t] of a lower-case token, in either case *)
Definition same_letter (c t : ascii) : bool :=
  Ascii.eqb c t
  || upper_of t c "abcdefghijklmnopqrstuvwxyz" "ABCDEFGHIJKLMNOPQRSTUVWXYZ".

Fixpoint equal_ignoring_case (s token : string) : bool :=
  match s, token with
  | "", "" => true
  | String c r, String t r' => same_letter c t && equal_ignoring_case r r'
  | _, _ => false
  end.

(** a case-insensitive member of the four tokens *)
Definition boolean_token (s : string) : bool :=
  existsb (equal_ignoring_case s) ["true"; "false"; "y"; "n"].

(** a hexadecimal digit *)
Definition hex_char (c : ascii) : bool := Str.mem c "0123456789abcdefABCDEF".

(** the white space allowed around a number: tab, line feed, vertical tab,
    form feed, carriage return, space, next line, no-break space *)
Definition blank (c : ascii) : bool :=
  bool_decide (nat_of_ascii c ∈ [9; 10; 11; 12; 13; 32; 133; 160]).

(** the text after the prefix [p], when [s] starts with [p] *)
Fixpoint after (p s : string) : option string :=
  match p, s with
  | "", _ => Some s
  | String a p', String b s' => if Ascii.eqb a b then after p' s' else None
  | _, "" => None
  end.

(** hexadecimal digits, with single underscores allowed between two
    digits, then blanks up to the end *)
Fixpoint digit_groups (s : string) : bool :=
  match s with
  | "" => false
  | String c r =>
      hex_char c
      && (Str.all_chars blank r
          || match r with
             | String u r' =>
                 if Ascii.eqb u "_" then digit_groups r' else digit_groups r
             | "" => false
             end)
  end.

(** a hexadecimal numeral without a minus sign: blanks, an optional plus
    sign, an optional [0x] or [0X] (and one underscore after it), the
    digits, blanks *)
Definition hex_numeral (s : string) : bool :=
  let s := Str.lstrip_with blank s in
  let s := default s (after "+" s) in
  let s :=
    match after "0x" s, after "0X" s with
    | Some r, _ | _, Some r => default r (after "_" r)
    | _, _ => s
    end in
  digit_groups s.

(** a text that reads as a UUID: with every ["urn:"] and ["uuid:"] taken
    out, braces taken from both ends and hyphens taken out, 32 characters
    are left and they are such a numeral *)
Definition uuid_text (s : string) : bool :=
  let hex :=
    Str.remove_char "-"
      (Str.strip_chars "{}"
         (Str.remove_sub "uuid:" (Str.remove_sub "urn:" s))) in
  (String.length hex =? 32) && hex_numeral hex.

Definition classify (sample : string) : string :=
  if n_digit_string 8 sample then "yyyyMMdd"
  else if n_digit_string 14 sample then "yyyyMMddHHmmss"
  else if n_digit_string 12 sample then "yyyyMMddHHmm"
  else if uuid_text sample then "uuid"
  else if integer_text sample then "int"
  else if decimal_text sample then "float"
  else if boolean_token sample then "boolean"
  else "string".

(** the first key that is not the sentinel *)
Fixpoint first_non_sentinel (keys : list string) : option string :=
  match keys with
  | [] => None
  | k :: r => if bool_decide (k = "__TOO_MANY__") then first_non_sentinel r
              else Some k
  end.

Definition infer (values : list (string * nat)) : string :=
  match first_non_sentinel (al_keys values) with
  | None => "unknown"
  | Some sample =>
      if bool_decide (sample = "") then "unknown" else classify sample
  end.

End TypeSpec.

(** ** Decoded messages (the decoder's output, [hl7_parser.py]) *)

Record segment := mkSegment {
  name : string;
  fields : list pyval;
  repeating_fields : gset string
}.

Record message := mkMessage {
  message_type : string;
  segments : list segment
}.

(** ** Exceptions *)

Inductive pyerror := ZeroDivisionError | KeyError.

Inductive pyresult (A : Type) :=
| Ok (a : A)
| Raise (e : pyerror).
Arguments Ok {A} a.
Arguments Raise {A} e.

#[global] Instance pyresult_bind : MBind pyresult :=
  fun A B k m =>
    match m with
    | Ok a => k a
    | Raise e => Raise e
    end.

#[global] Instance pyresult_fmap : FMap pyresult :=
  fun A B f m =>
    match m with
    | Ok a => Ok (f a)
    | Raise e => Raise e
    end.

(** A [for] loop whose body may raise. *)
Fixpoint for_each {A S} (body : S -> A -> pyresult S) (l : list A) (s : S)
  : pyresult S :=
  match l with
  | [] => Ok s
  | a :: r => s' ← body s a; for_each body r s'
  end.

(** ** Floats: [count / total * 100] rounded to one decimal *)

Module Float.

Definition prec : Z := 53.
Definition emax : Z := 1024.

(** [float(n)] for a Python integer. *)
Definition of_nat (n : nat) : spec_float :=
  binary_normalize prec emax (Z.of_nat n) 0 false.

(** [a / b] on integers. *)
Definition truediv (a b : nat) : pyresult spec_float :=
  if b =? 0 then Raise ZeroDivisionError
  else Ok (SFdiv prec emax (of_nat a) (of_nat b)).

Definition mul (x y : spec_float) : spec_float := SFmul prec emax x y.

(** The integer nearest to [n * 2^e], ties to the even one. *)
Definition nearest_even (n e : Z) : Z :=
  if (0 <=? e)%Z then (n * 2 ^ e)%Z
  else
    let d := (2 ^ (- e))%Z in
    let q := (n / d)%Z in
    let r := (n mod d)%Z in
    if (2 * r <? d)%Z then q
    else if (d <? 2 * r)%Z then (q + 1)%Z
    else if Z.even q then q else (q + 1)%Z.

(** [round(x, 1)]: the decimal with one fractional digit nearest to the
    exact value of [x] (ties to even), read back as the nearest float. *)
Definition round1 (x : spec_float) : spec_float :=
  match x with
  | S754_finite s m e =>
      match nearest_even (10 * Zpos m) e with
      | Zpos k => SFdiv prec emax (S754_finite s k 0) (S754_finite false 10 0)
      | _ => S754_zero s
      end
  | _ => x
  end.

End Float.

(** ** sequence_profiler.py *)

Record seg_presence := mkSegPresence {
  present_in : nat;
  repeats : bool
}.

(** [segments_presence] is a [defaultdict]: reading a missing key stores and
    returns the default entry. *)
Definition sp_default : seg_presence := {| present_in := 0; repeats := false |}.

Definition sp_get (k : string) (sp : list (string * seg_presence))
  : seg_presence * list (string * seg_presence) :=
  match al_find k sp with
  | Some e => (e, sp)
  | None => (sp_default, sp ++ [(k, sp_default)])
  end.

Definition clean_segment_name (segment : string) : string :=
  Str.remove_char "+" (Str.remove_char "]" (Str.remove_char "[" segment)).

Definition find_insertion_point (existing_segments : list string)
    (new_segment : string) (source_pattern : list string)
    (source_index : nat) : nat :=
  length existing_segments.

(** [l.insert(pos, x)] *)
Definition list_insert_at {A} (pos : nat) (x : A) (l : list A) : list A :=
  take pos l ++ x :: drop pos l.

Definition is_subsequence (shorter longer : list string) : bool :=
  if length longer <=? length shorter then false
  else
    let i :=
      foldl (fun i seg =>
               match shorter !! i with
               | Some s =>
                   if decide (clean_segment_name s = clean_segment_name seg)
                   then S i else i
               | None => i
               end) 0 longer in
    i =? length shorter.

Definition merge_with_optional_segments (longer_pattern shorter_pattern
    : list string) (segments_presence : list (string * seg_presence))
    (total_messages : nat)
  : list string * list (string * seg_presence) :=
  let shorter_segments := clean_segment_name <$> shorter_pattern in
  foldl (fun '(merged, segments_presence) seg =>
           let clean_seg := clean_segment_name seg in
           if bool_decide (clean_seg ∈ shorter_segments) then
             (merged ++ [seg], segments_presence)
           else
             let '(e, segments_presence) := sp_get clean_seg segments_presence in
             if present_in e <? total_messages then
               if Str.endswith seg "+" then
                 (merged ++ ["[" +:+ clean_seg +:+ "+]"], segments_presence)
               else
                 (merged ++ ["[" +:+ clean_seg +:+ "]"], segments_presence)
             else (merged ++ [seg], segments_presence))
        ([], segments_presence) longer_pattern.

Definition find_common_structure (pattern1 pattern2 : list string)
    (segments_presence : list (string * seg_presence)) (total_messages : nat)
  : list string * list (string * seg_presence) :=
  let p1_segments := clean_segment_name <$> pattern1 in
  let p2_segments := clean_segment_name <$> pattern2 in
  (* first pass: segments of pattern1 *)
  let '(all_segments, seen) :=
    foldl (fun '(all_segments, seen) seg =>
             let clean_seg := clean_segment_name seg in
             if bool_decide (clean_seg ∈ (seen : gset string))
             then (all_segments, seen)
             else (all_segments ++ [seg], seen ∪ {[ clean_seg ]}))
          ([], ∅) pattern1 in
  (* second pass: segments of pattern2 that are still missing *)
  let '(all_segments, seen, _) :=
    foldl (fun '(all_segments, seen, p2_index) seg =>
             let clean_seg := clean_segment_name seg in
             if bool_decide (clean_seg ∈ (seen : gset string))
             then (all_segments, seen, p2_index + 1)
             else
               let insert_pos :=
                 find_insertion_point all_segments seg pattern2 p2_index in
               (list_insert_at insert_pos seg all_segments,
                seen ∪ {[ clean_seg ]}, p2_index + 1))
          (all_segments, seen, 0) pattern2 in
  (* optional marking *)
  foldl (fun '(merged, segments_presence) seg =>
           let clean_seg := clean_segment_name seg in
           let in_p1 := bool_decide (clean_seg ∈ p1_segments) in
           let in_p2 := bool_decide (clean_seg ∈ p2_segments) in
           if in_p1 && in_p2 then (merged ++ [seg], segments_presence)
           else
             let '(e, segments_presence) := sp_get clean_seg segments_presence in
             if present_in e <? total_messages then
               if Str.endswith seg "+" then
                 (merged ++ ["[" +:+ clean_seg +:+ "+]"], segments_presence)
               else
                 (merged ++ ["[" +:+ clean_seg +:+ "]"], segments_presence)
             else (merged ++ [seg], segments_presence))
        ([], segments_presence) all_segments.

(** [None] is Python's [None]. *)
Definition try_merge_patterns (pattern1 pattern2 : list string)
    (segments_presence : list (string * seg_presence)) (total_messages : nat)
  : option (list string) * list (string * seg_presence) :=
  if bool_decide (pattern1 = pattern2) then (None, segments_presence)
  else if is_subsequence pattern1 pattern2 then
    let '(m, sp) :=
      merge_with_optional_segments pattern2 pattern1 segments_presence
        total_messages in (Some m, sp)
  else if is_subsequence pattern2 pattern1 then
    let '(m, sp) :=
      merge_with_optional_segments pattern1 pattern2 segments_presence
        total_messages in (Some m, sp)
  else
    let '(merged, sp) :=
      find_common_structure pattern1 pattern2 segments_presence
        total_messages in
    if bool_decide (merged ≠ pattern1) && bool_decide (merged ≠ pattern2)
    then (Some merged, sp) else (None, sp).

(** Truth value of [merge_result]: neither [None] nor the empty list. *)
Definition merge_result_truthy (r : option (list string)) : bool :=
  match r with
  | Some (_ :: _) => true
  | _ => false
  end.

(** The inner loop of [merge_similar_patterns], over [pattern_list[i+1:]]. *)
Definition merge_into (pattern1 : list string) (total_messages : nat)
    (later : list (list string * nat))
    (st : list string * nat * gset (list string)
          * list (string * seg_presence))
  : list string * nat * gset (list string) * list (string * seg_presence) :=
  foldl (fun '(merged_pattern, merged_count, processed, segments_presence)
             '(pattern2, count2) =>
           if bool_decide (pattern2 ∈ processed) then
             (merged_pattern, merged_count, processed, segments_presence)
           else
             let '(merge_result, segments_presence) :=
               try_merge_patterns pattern1 pattern2 segments_presence
                 total_messages in
             if merge_result_truthy merge_result then
               (default [] merge_result, merged_count + count2,
                processed ∪ {[ pattern2 ]}, segments_presence)
             else (merged_pattern, merged_count, processed, segments_presence))
        st later.

(** The outer loop, over the patterns from position [i] on. *)
Fixpoint merge_from (pattern_list : list (list string * nat))
    (total_messages : nat)
    (st : list (list string * nat) * gset (list string)
          * list (string * seg_presence))
  : list (list string * nat) * gset (list string)
    * list (string * seg_presence) :=
  match pattern_list with
  | [] => st
  | (pattern1, count1) :: later =>
      let '(merged, processed, segments_presence) := st in
      if bool_decide (pattern1 ∈ processed) then
        merge_from later total_messages st
      else
        let '(merged_pattern, merged_count, processed, segments_presence) :=
          merge_into pattern1 total_messages later
            (pattern1, count1, processed ∪ {[ pattern1 ]}, segments_presence) in
        merge_from later total_messages
          (al_set merged_pattern merged_count merged, processed,
           segments_presence)
  end.

Definition merge_similar_patterns (patterns : list (list string * nat))
    (segments_presence : list (string * seg_presence)) (total_messages : nat)
  : list (list string * nat) * list (string * seg_presence) :=
  let '(merged, _, segments_presence) :=
    merge_from patterns total_messages ([], ∅, segments_presence) in
  (merged, segments_presence).

Record pattern_entry := mkPatternEntry {
  sequence : list string;
  count : nat;
  percent : spec_float
}.

Record sequence_profile := mkSequenceProfile {
  common_sequences : list pattern_entry;
  profile_segments : list (string * seg_presence);
  total_messages : nat
}.

(** [final_sequences.sort(key=count, reverse=True)]: stable, larger counts
    first. *)
Fixpoint insert_by_count (x : pattern_entry) (l : list pattern_entry)
  : list pattern_entry :=
  match l with
  | [] => [x]
  | y :: r => if count x <? count y then y :: insert_by_count x r
              else x :: l
  end.

Definition sort_by_count_desc (l : list pattern_entry) : list pattern_entry :=
  foldr insert_by_count [] l.

(** The walk over the segments of one message (lines 53-67). *)
Definition scan_segment
    (st : list string * list (string * nat) * gset string
          * list (string * seg_presence)) (seg : segment)
  : list string * list (string * nat) * gset string
    * list (string * seg_presence) :=
  let '(segment_order, segment_occurrences, unique_segments_this_message,
        segments_presence) := st in
  let seg_name := name seg in
  let segment_occurrences := counter_incr seg_name segment_occurrences in
  let '(unique_segments_this_message, segments_presence) :=
    if bool_decide (seg_name ∈ unique_segments_this_message) then
      (unique_segments_this_message, segments_presence)
    else
      let '(e, segments_presence) := sp_get seg_name segments_presence in
      (unique_segments_this_message ∪ {[ seg_name ]},
       al_set seg_name
         {| present_in := present_in e + 1; repeats := repeats e |}
         segments_presence) in
  let segments_presence :=
    if 1 <? default 0 (al_find seg_name segment_occurrences) then
      let '(e, segments_presence) := sp_get seg_name segments_presence in
      al_set seg_name {| present_in := present_in e; repeats := true |}
        segments_presence
    else segments_presence in
  let segment_order :=
    match last segment_order with
    | Some l => if bool_decide (l ≠ seg_name)
                then segment_order ++ [seg_name] else segment_order
    | None => segment_order ++ [seg_name]
    end in
  (segment_order, segment_occurrences, unique_segments_this_message,
   segments_presence).

(** The first loop (lines 43-69): one canonical sequence per message that is
    not [None]. *)
Definition scan_messages (messages : list (option message))
  : list (list string) * list (string * seg_presence) :=
  foldl (fun '(canonical_sequences, segments_presence) msg =>
           match msg with
           | None => (canonical_sequences, segments_presence)
           | Some msg =>
               let '(segment_order, _, _, segments_presence) :=
                 foldl scan_segment ([], [], ∅, segments_presence)
                   (segments msg) in
               (canonical_sequences ++ [segment_order], segments_presence)
           end)
        ([], []) messages.

(** Lines 76-84. *)
Definition annotate_sequences (sequence_counts : list (list string * nat))
    (segments_presence : list (string * seg_presence))
  : list (list string * nat) * list (string * seg_presence) :=
  foldl (fun '(annotated_sequences, segments_presence) '(seq, count) =>
           let '(annotated_seq, segments_presence) :=
             foldl (fun '(annotated_seq, segments_presence) seg =>
                      let '(e, segments_presence) :=
                        sp_get seg segments_presence in
                      if repeats e then
                        (annotated_seq ++ [seg +:+ "+"], segments_presence)
                      else (annotated_seq ++ [seg], segments_presence))
                   ([], segments_presence) seq in
           (al_set annotated_seq count annotated_sequences, segments_presence))
        ([], segments_presence) sequence_counts.

(** Lines 93-104: the final optional marking of one pattern. *)
Definition final_marking (pattern : list string)
    (segments_presence : list (string * seg_presence)) (total_messages : nat)
  : list string * list (string * seg_presence) :=
  foldl (fun '(final_pattern, segments_presence) seg =>
           let base_seg := clean_segment_name seg in
           let is_repeat := Str.endswith seg "+" in
           let '(e, segments_presence) := sp_get base_seg segments_presence in
           let is_optional := present_in e <? total_messages in
           if is_optional && is_repeat then
             (final_pattern ++ ["[" +:+ base_seg +:+ "+]"], segments_presence)
           else if is_optional then
             (final_pattern ++ ["[" +:+ base_seg +:+ "]"], segments_presence)
           else (final_pattern ++ [seg], segments_presence))
        ([], segments_presence) pattern.

Definition profile_sequences_for_type (messages : list (option message))
  : pyresult sequence_profile :=
  let total_messages := length messages in
  let '(canonical_sequences, segments_presence) := scan_messages messages in
  let sequence_counts :=
    foldl (fun sequence_counts seq => counter_incr seq sequence_counts)
      [] canonical_sequences in
  let '(annotated_sequences, segments_presence) :=
    annotate_sequences sequence_counts segments_presence in
  let '(merged_patterns, segments_presence) :=
    merge_similar_patterns annotated_sequences segments_presence
      total_messages in
  '(final_sequences, segments_presence) ←
    for_each (fun '(final_sequences, segments_presence) '(pattern, count) =>
                let '(final_pattern, segments_presence) :=
                  final_marking pattern segments_presence total_messages in
                ratio ← Float.truediv count total_messages;
                Ok (final_sequences ++
                      [{| sequence := final_pattern;
                          count := count;
                          percent :=
                            Float.round1
                              (Float.mul ratio (Float.of_nat 100)) |}],
                    segments_presence))
      merged_patterns ([], segments_presence);
  Ok {| common_sequences := sort_by_count_desc final_sequences;
        profile_segments := segments_presence;
        total_messages := total_messages |}.

(** Messages grouped by type, in order of first appearance
    ([messages_by_type]). *)
Definition group_by_type (messages : list (option message))
  : list (string * list (option message)) :=
  foldl (fun messages_by_type msg =>
           match msg with
           | None => messages_by_type
           | Some m =>
               let msg_type := message_type m in
               al_set msg_type
                 (default [] (al_find msg_type messages_by_type) ++ [msg])
                 messages_by_type
           end)
        [] messages.

Definition profile_sequences_by_message_type (messages : list (option message))
  : pyresult (list (string * sequence_profile)) :=
  for_each (fun sequence_data '(msg_type, msgs) =>
              p ← profile_sequences_for_type msgs;
              Ok (al_set msg_type p sequence_data))
    (group_by_type messages) [].

(** Legacy entry point: all messages as one group. *)
Definition profile_sequences (messages : list (option message))
  : pyresult sequence_profile :=
  profile_sequences_for_type messages.

(** ** aggregator.py: vocabulary lookups and their cache *)

(** The vocabulary tables ([schemas/hl7_fields.json],
    [schemas/hl7_datatypes.json]) are data loaded at start-up and are not
    part of the sources; the aggregator only uses the two lookups below.
    [field_vocab_type key] is
    [field_vocab.get(key, {}).get("field_type", "")] and
    [datatype_is_dict t] is
    [t in datatype_vocab and isinstance(datatype_vocab.get(t), dict)]. *)
Class Vocabulary := {
  field_vocab_type : string -> string;
  datatype_is_dict : string -> bool
}.

Definition field_datatype `{Vocabulary} (segment field_path : string) : string :=
  field_vocab_type (segment +:+ "." +:+ Str.before "." field_path).

(** [_datatype_cache] is one module-level dict shared by [is_complex_type]
    (keys are type codes, values booleans) and by the datatype lookups
    (keys are ["SEG.n"], values type codes): keys and values are strings or
    booleans. *)
Inductive cval :=
| CStr (s : string)
| CBool (b : bool).

#[global] Instance cval_eq_dec : EqDecision cval.
Proof. solve_decision. Defined.

#[global] Instance cval_countable : Countable cval :=
  inj_countable'
    (fun v => match v with CStr s => inl s | CBool b => inr b end)
    (fun x => match x with inl s => CStr s | inr b => CBool b end)
    (fun v => match v with CStr _ | CBool _ => eq_refl end).

Definition cval_truthy (v : cval) : bool :=
  match v with
  | CStr s => negb (String.eqb s "")
  | CBool b => b
  end.

Definition is_complex_type `{Vocabulary} (hl7_type : cval)
    (_datatype_cache : gmap cval cval) : cval * gmap cval cval :=
  match _datatype_cache !! hl7_type with
  | Some v => (v, _datatype_cache)
  | None =>
      let result :=
        match hl7_type with
        | CStr t => CBool (datatype_is_dict t)
        | CBool _ => CBool false
        end in
      (result, <[hl7_type := result]> _datatype_cache)
  end.

(** The cached datatype lookup (lines 100-103 and 168-171). *)
Definition cached_datatype `{Vocabulary} (seg_name base_path : string)
    (_datatype_cache : gmap cval cval) : cval * gmap cval cval :=
  let cache_key := CStr (seg_name +:+ "." +:+ base_path) in
  match _datatype_cache !! cache_key with
  | Some v => (v, _datatype_cache)
  | None =>
      let v := CStr (field_datatype seg_name base_path) in
      (v, <[cache_key := v]> _datatype_cache)
  end.

(** ** aggregator.py: the three-level [defaultdict]s *)

Section DefaultDict.
Context {V : Type}.

Definition dd2_get (a b : string)
    (d : list (string * list (string * list (string * V))))
  : list (string * V) :=
  default [] (al_find b (default [] (al_find a d))).

(** [d[a][b] = inner]; reading [d[a][b]] of a [defaultdict] is
    [dd2_put a b (dd2_get a b d) d]. *)
Definition dd2_put (a b : string) (inner : list (string * V))
    (d : list (string * list (string * list (string * V))))
  : list (string * list (string * list (string * V))) :=
  al_set a (al_set b inner (default [] (al_find a d))) d.

Definition dd3_find (a b c : string)
    (d : list (string * list (string * list (string * V)))) : option V :=
  al_find c (dd2_get a b d).

(** [d[a][b][c] = v] *)
Definition dd3_put (a b c : string) (v : V)
    (d : list (string * list (string * list (string * V))))
  : list (string * list (string * list (string * V))) :=
  dd2_put a b (al_set c v (dd2_get a b d)) d.
End DefaultDict.

(** [field_stats[msg_type][seg_name][path]]: a fresh [FieldStats] when the
    key is new (the caller stores the object back with [dd3_put]). *)
Definition stats_at (msg_type seg_name path : string)
    (field_stats : list (string * list (string * list (string * FieldStats))))
  : FieldStats :=
  default FieldStats_init (dd3_find msg_type seg_name path field_stats).

(** ** aggregator.py: field processing *)

Definition is_list (v : pyval) : bool :=
  match v with PList _ => true | PStr _ => false end.

(** Truth value of a field value. *)
Definition py_truthy (v : pyval) : bool :=
  match v with
  | PStr s => negb (String.eqb s "")
  | PList l => match l with [] => false | _ => true end
  end.

(** Truth value of [str(v).strip()]: the text of a list is bracketed, hence
    never blank. *)
Definition py_str_strip_truthy (v : pyval) : bool :=
  match v with
  | PStr s => negb (String.eqb (Str.strip s) "")
  | PList _ => true
  end.

Definition process_complex_field_collapsed (value : pyval)
    (field_path : string) (stats : FieldStats) (seen_fields : gset string)
    (segment_name : string) : FieldStats * gset string :=
  let single :=
    let collapsed := collapse_complex_components value in
    if bool_decide (collapsed ≠ "") then
      process_field_value (PStr collapsed) field_path stats seen_fields
        segment_name
    else (stats, seen_fields) in
  match value with
  | PList l =>
      if forallb is_list l then
        foldl (fun '(stats, seen_fields) repeat =>
                 let collapsed := collapse_complex_components repeat in
                 if bool_decide (collapsed ≠ "") then
                   process_field_value (PStr collapsed) field_path stats
                     seen_fields segment_name
                 else (stats, seen_fields))
              (stats, seen_fields) l
      else single
  | PStr _ => single
  end.

(** Record [value] at [path]: fetch (or create) the statistics object, run
    [process_field_value] on it, keep it in the tree. *)
Definition record_at (value : pyval) (msg_type seg_name path : string)
    (st : list (string * list (string * list (string * FieldStats)))
          * gset string)
  : list (string * list (string * list (string * FieldStats))) * gset string :=
  let '(field_stats, seen_fields) := st in
  let stats := stats_at msg_type seg_name path field_stats in
  let '(stats, seen_fields) :=
    process_field_value value path stats seen_fields seg_name in
  (dd3_put msg_type seg_name path stats field_stats, seen_fields).

(** The body of the loop over repetitions (lines 121-137). *)
Definition process_repetition (should_break_components : cval)
    (base_path msg_type seg_name : string)
    (st : list (string * list (string * list (string * FieldStats)))
          * gset string) (repetition : pyval)
  : list (string * list (string * list (string * FieldStats))) * gset string :=
  match repetition with
  | PList components =>
      if cval_truthy should_break_components then
        (foldl (fun '(st, i) component =>
                  if py_truthy component || py_str_strip_truthy component then
                    let component_path := base_path +:+ "." +:+ pretty (i + 1) in
                    (record_at component msg_type seg_name component_path st,
                     i + 1)
                  else (st, i + 1))
               (st, 0) components).1
      else record_at repetition msg_type seg_name base_path st
  | PStr _ =>
      if cval_truthy should_break_components then
        if py_truthy repetition || py_str_strip_truthy repetition then
          record_at repetition msg_type seg_name (base_path +:+ ".1") st
        else st
      else record_at repetition msg_type seg_name base_path st
  end.

Definition process_field_unified `{Vocabulary} (field_value : pyval)
    (base_path : string)
    (field_stats : list (string * list (string * list (string * FieldStats))))
    (msg_type seg_name : string) (seen_fields : gset string)
    (is_repeating : bool) (_datatype_cache : gmap cval cval)
  : list (string * list (string * list (string * FieldStats)))
    * gset string * gmap cval cval :=
  let '(hl7_type, _datatype_cache) :=
    cached_datatype seg_name base_path _datatype_cache in
  if bool_decide (hl7_type ∈ [CStr "XCN"; CStr "PPN"]) && negb is_repeating
  then
    let stats := stats_at msg_type seg_name base_path field_stats in
    let '(stats, seen_fields) :=
      process_complex_field_collapsed field_value base_path stats seen_fields
        seg_name in
    (dd3_put msg_type seg_name base_path stats field_stats, seen_fields,
     _datatype_cache)
  else
    let '(should_break_components, _datatype_cache) :=
      is_complex_type hl7_type _datatype_cache in
    let repetitions :=
      if is_repeating then
        match field_value with
        | PList l => l
        | PStr _ => [field_value]
        end
      else [field_value] in
    let '(field_stats, seen_fields) :=
      foldl (process_repetition should_break_components base_path msg_type
               seg_name)
        (field_stats, seen_fields) repetitions in
    (field_stats, seen_fields, _datatype_cache).

(** ** aggregator.py: consolidation *)

(** [field_components]: base field -> set of the paths under it. *)
Definition group_components {V} (fields : list (string * V))
  : list (string * gset string) :=
  foldl (fun field_components '(field_path, _) =>
           let base_field := Str.before "." field_path in
           al_set base_field
             (default ∅ (al_find base_field field_components)
              ∪ {[ field_path ]})
             field_components)
        [] fields.

(** The body of the loop over [field_components] (lines 167-183). *)
Definition consolidate_group `{Vocabulary} (msg_type seg_name : string)
    (st : list (string * list (string * nat))
          * list (string * list (string * list (string * nat)))
          * gmap cval cval) (group : string * gset string)
  : pyresult (list (string * list (string * nat))
              * list (string * list (string * list (string * nat)))
              * gmap cval cval) :=
  let '(fields, presence, _datatype_cache) := st in
  let '(base_field, paths) := group in
  let '(hl7_type, _datatype_cache) :=
    cached_datatype seg_name base_field _datatype_cache in
  if bool_decide (hl7_type ∈ CStr <$> ["XCN"; "PPN"; "CX"; "XAD"; "XTN"; "XPN"])
  then Ok (fields, presence, _datatype_cache)
  else
    match elements paths with
    | [component_path] =>
        if Str.endswith component_path ".1" then
          match al_find component_path fields with
          | Some ((_ :: _) as data) =>
              let fields :=
                al_set base_field data (al_remove component_path fields) in
              let inner := dd2_get msg_type seg_name presence in
              match al_find component_path inner with
              | None => Raise KeyError
              | Some n =>
                  Ok (fields,
                      dd2_put msg_type seg_name
                        (al_set base_field n (al_remove component_path inner))
                        presence,
                      _datatype_cache)
              end
          | _ => Ok (fields, presence, _datatype_cache)
          end
        else Ok (fields, presence, _datatype_cache)
    | _ => Ok (fields, presence, _datatype_cache)
    end.

(** The loop over [field_components] for one segment (lines 159-183). *)
Definition consolidate_segment `{Vocabulary} (msg_type seg_name : string)
    (fields : list (string * list (string * nat)))
    (presence : list (string * list (string * list (string * nat))))
    (_datatype_cache : gmap cval cval)
  : pyresult (list (string * list (string * nat))
              * list (string * list (string * list (string * nat)))
              * gmap cval cval) :=
  for_each (consolidate_group msg_type seg_name) (group_components fields)
    (fields, presence, _datatype_cache).

(** The body of the loop over the segments of one category (line 158). *)
Definition consolidate_entry `{Vocabulary} (msg_type : string)
    (st : list (string * list (string * list (string * list (string * nat))))
          * list (string * list (string * list (string * nat)))
          * gmap cval cval)
    (entry : string * list (string * list (string * nat))) :=
  let '(spec, presence, _datatype_cache) := st in
  let '(seg_name, fields) := entry in
  '(fields, presence, _datatype_cache) ←
    consolidate_segment msg_type seg_name fields presence _datatype_cache;
  Ok (dd2_put msg_type seg_name fields spec, presence, _datatype_cache).

Definition consolidate_single_component_fields `{Vocabulary}
    (spec : list (string * list (string * list (string * list (string * nat)))))
    (presence : list (string * list (string * list (string * nat))))
    (_datatype_cache : gmap cval cval)
  : pyresult (list (string * list (string * list (string * list (string * nat))))
              * list (string * list (string * list (string * nat)))
              * gmap cval cval) :=
  for_each
    (fun st '(msg_type, segments) =>
       for_each (consolidate_entry msg_type) segments st)
    spec (spec, presence, _datatype_cache).

(** ** aggregator.py: aggregate_data *)

Record aggregated := mkAggregated {
  agg_spec : list (string * list (string * list (string * list (string * nat))));
  agg_repeats : list (string * list (string * gset string));
  agg_presence : list (string * list (string * list (string * nat)));
  agg_total : nat;
  agg_totals_by_type : list (string * nat);
  agg_sequence_profiles_by_type : list (string * sequence_profile)
}.

(** The body of the loop over the fields of a segment (lines 213-226).
    [field_index] starts at 1. *)
Definition process_field `{Vocabulary} (msg_type seg_name : string)
    (repeating_fields : gset string)
    (st : list (string * list (string * list (string * FieldStats)))
          * list (string * list (string * gset string))
          * gset string * gmap cval cval * nat) (field_value : pyval) :=
  let '(field_stats, repeat_tracker, seen_fields, _datatype_cache,
        field_index) := st in
  let base_path := pretty field_index in
  let repeat_tracker :=
    if bool_decide (base_path ∈ repeating_fields) then
      let inner := default [] (al_find msg_type repeat_tracker) in
      al_set msg_type
        (al_set seg_name
           (default ∅ (al_find seg_name inner) ∪ {[ base_path ]}) inner)
        repeat_tracker
    else repeat_tracker in
  let '(field_stats, seen_fields, _datatype_cache) :=
    process_field_unified field_value base_path field_stats msg_type seg_name
      seen_fields (bool_decide (base_path ∈ repeating_fields))
      _datatype_cache in
  (field_stats, repeat_tracker, seen_fields, _datatype_cache, field_index + 1).

(** One message: the body of the loop of lines 199-226, for a message that
    is not [None]. *)
Definition process_message `{Vocabulary} (msg : message)
    (st : list (string * list (string * list (string * FieldStats)))
          * list (string * list (string * gset string))
          * list (string * nat) * gmap cval cval) :=
  let '(field_stats, repeat_tracker, totals_by_type, _datatype_cache) := st in
  let seen_fields : gset string := ∅ in
  let msg_type := message_type msg in
  let totals_by_type := counter_incr msg_type totals_by_type in
  let '(field_stats, repeat_tracker, _, _datatype_cache) :=
    foldl (fun '(field_stats, repeat_tracker, seen_fields, _datatype_cache)
               segment =>
             let '(field_stats, repeat_tracker, seen_fields, _datatype_cache,
                   _) :=
               foldl (process_field msg_type (name segment)
                        (repeating_fields segment))
                 (field_stats, repeat_tracker, seen_fields, _datatype_cache, 1)
                 (fields segment) in
             (field_stats, repeat_tracker, seen_fields, _datatype_cache))
          (field_stats, repeat_tracker, seen_fields, _datatype_cache)
          (segments msg) in
  (field_stats, repeat_tracker, totals_by_type, _datatype_cache).

(** [any(value.strip() for value in stats.values.keys()
         if value != "__TOO_MANY__")] *)
Definition has_content (values : list (string * nat)) : bool :=
  existsb (fun value => negb (String.eqb (Str.strip value) ""))
    (filter (fun value => value ≠ "__TOO_MANY__") (al_keys values)).

(** Lines 236-249: the output trees. *)
Definition to_output
    (field_stats : list (string * list (string * list (string * FieldStats))))
  : list (string * list (string * list (string * list (string * nat))))
    * list (string * list (string * list (string * nat))) :=
  foldl (fun st '(msg_type, by_segment) =>
    foldl (fun st '(seg_name, by_path) =>
      foldl (fun '(spec, presence) '(field_path, stats) =>
               if match values stats with [] => false | _ => true end
                  && (0 <? presence_count stats)
                  && has_content (values stats)
               then
                 (dd3_put msg_type seg_name field_path (values stats) spec,
                  dd3_put msg_type seg_name field_path (presence_count stats)
                    presence)
               else (spec, presence))
            st by_path)
      st by_segment)
    ([], []) field_stats.

(** The loop over the messages (lines 199-226). *)
Definition aggregate_loop `{Vocabulary} (messages : list (option message))
    (_datatype_cache : gmap cval cval) :=
  foldl (fun st msg =>
           match msg with
           | None => st
           | Some msg => process_message msg st
           end)
        ([], [], [], _datatype_cache) messages.

(** [aggregate_data(messages)], started with the lookup cache in state
    [_datatype_cache]; the cache it leaves behind is returned with the
    result.  (The progress logging of lines 228-231 divides by
    [len(messages)] inside the loop over [messages], hence by a positive
    number, and has no other effect.) *)
Definition aggregate_data `{Vocabulary} (messages : list (option message))
    (_datatype_cache : gmap cval cval)
  : pyresult (aggregated * gmap cval cval) :=
  let '(field_stats, repeat_tracker, totals_by_type, _datatype_cache) :=
    aggregate_loop messages _datatype_cache in
  let '(spec, presence) := to_output field_stats in
  '(spec, presence, _datatype_cache) ←
    consolidate_single_component_fields spec presence _datatype_cache;
  sequence_profiles ← profile_sequences_by_message_type messages;
  Ok ({| agg_spec := spec;
         agg_repeats := repeat_tracker;
         agg_presence := presence;
         agg_total := length messages;
         agg_totals_by_type := totals_by_type;
         agg_sequence_profiles_by_type := sequence_profiles |},
      _datatype_cache).

(** ** Auxiliary definitions used in the statements *)

(** The operations that reach a [FieldStats] object. *)
Inductive stats_op :=
| OpAddValue (value : string)
| OpMarkPresent
| OpRecord (value : pyval) (field_path segment_name : string).

Definition apply_op (st : FieldStats * gset string) (op : stats_op)
  : FieldStats * gset string :=
  match op with
  | OpAddValue v => (add_value st.1 v, st.2)
  | OpMarkPresent => (mark_present st.1, st.2)
  | OpRecord value field_path segment_name =>
      process_field_value value field_path st.1 st.2 segment_name
  end.

(** The state a frozen object is in. *)
Definition overflowed (st : FieldStats) : Prop :=
  _frozen st = true ∧ values st = [("__TOO_MANY__", 1)].

(** What the [_frozen] flag promises about the counter. *)
Definition frozen_inv (st : FieldStats) : Prop :=
  _frozen st = true → values st = [("__TOO_MANY__", 1)].

(** One hundred distinct values, and the statistics after recording each
    of them once. *)
Definition hundred_values : list string :=
  (fun i => "v" +:+ pretty i) <$> seq 0 100.

Definition stats_at_cap : FieldStats :=
  foldl add_value FieldStats_init hundred_values.

(** The leaves of a field value, depth first, untrimmed. *)
Fixpoint leaves (v : pyval) : list string :=
  match v with
  | PStr s => [s]
  | PList l =>
      (fix leaves_list (l : list pyval) : list string :=
         match l with
         | [] => []
         | v :: r => leaves v ++ leaves_list r
         end) l
  end.

Definition first_char (s : string) : option ascii :=
  match s with
  | "" => None
  | String c _ => Some c
  end.

Fixpoint last_char (s : string) : option ascii :=
  match s with
  | "" => None
  | String c "" => Some c
  | String _ r => last_char r
  end.

(** Messages built from segment names only (no fields). *)
Definition bare_segment (n : string) : segment :=
  {| name := n; fields := []; repeating_fields := ∅ |}.

Definition message_of (msg_type : string) (names : list string)
  : option message :=
  Some {| message_type := msg_type; segments := bare_segment <$> names |}.

(** [once k] relates the statistics object of the field with key [k], and
    the set of keys counted for the message, before and after some
    recordings into that object: the presence count moves by one at most,
    and only while passing from "[k] not counted" to "[k] counted". *)
Definition once (k : string) (before after : FieldStats * gset string) : Prop :=
(before.2 ⊆ after.2) ∧
  (presence_count (after.1) = presence_count (before.1) ∨
   (presence_count (after.1) = presence_count (before.1) + 1 ∧
    (k ∉ before.2) ∧ (k ∈ after.2))).

(** The presence count of the field [(mt, sg, pa)] in the tree. *)
Definition presence_at (mt sg pa : string)
    (fs : list (string * list (string * list (string * FieldStats)))) : nat :=
  presence_count (stats_at mt sg pa fs).

(** Within one message: the count of the field is at most one above its
    value [p0] at the start of the message, and still [p0] while the field's
    key is not in the set of counted keys. *)
Definition counted_once (mt sg pa : string) (p0 : nat)
    (st : list (string * list (string * list (string * FieldStats)))
          * gset string) : Prop :=
  presence_at mt sg pa st.1 ≤ p0 + 1 ∧
  ((sg +:+ "." +:+ pa) ∉ st.2 → presence_at mt sg pa st.1 ≤ p0).

(** Dictionaries have one entry per key. *)
Definition keys_unique {V} (d : list (string * V)) : Prop := NoDup d.*1.

Definition tree_keys_unique {V}
    (t : list (string * list (string * list (string * V)))) : Prop :=
  keys_unique t ∧
  ∀ a by_b, (a, by_b) ∈ t →
    keys_unique by_b ∧ ∀ b by_c, (b, by_c) ∈ by_b → keys_unique by_c.

Definition has_dot (s : string) : bool := Str.mem "." s.

(** The lookup cache agrees with the vocabulary: a key ["SEG.n"] holds the
    type code of that field, a type code holds whether the type has
    components. *)
Definition coherent `{Vocabulary} (cache : gmap cval cval) : Prop :=
  ∀ k v, cache !! k = Some v →
    match k with
    | CStr key =>
        if has_dot key then v = CStr (field_vocab_type key)
        else v = CBool (datatype_is_dict key)
    | CBool _ => v = CBool false
    end.

(** The types for which consolidation is skipped (line 174). *)
Definition never_consolidated : list string :=
  ["XCN"; "PPN"; "CX"; "XAD"; "XTN"; "XPN"].

(** A small vocabulary: OBX-1 is a coded element, PID-1 an extended
    composite ID, everything else plain text. *)
Definition example_vocabulary : Vocabulary :=
  {| field_vocab_type key :=
       if bool_decide (key = "OBX.1") then "CE"
       else if bool_decide (key = "PID.1") then "CX"
       else "ST";
     datatype_is_dict t := bool_decide (t ∈ ["CE"; "CX"]) |}.

(** 101 messages of one category; OBX-1 always has the first component
    ["GLU"] and a second component that differs in every message. *)
Definition overflow_corpus : list (option message) :=
  (fun i =>
     Some {| message_type := "ORU";
             segments :=
               [{| name := "OBX";
                   fields := [PList [PStr "GLU"; PStr ("t" +:+ pretty i)]];
                   repeating_fields := ∅ |}] |}) <$> seq 0 101.

(** What consolidation does to the paths under [base] of one segment, in
    terms of the fields [fields] and presence counts [inner] before and
    [fields'], [inner'] after: the lone [.1] component is renamed to
    [base]... *)
Definition renamed `{Vocabulary} (seg_name base : string)
    (fields fields' : list (string * list (string * nat)))
    (inner inner' : list (string * nat)) : Prop :=
  ∀ data,
    (∀ p, p ∈ fields.*1 → Str.before "." p = base → p = base +:+ ".1") →
    al_find (base +:+ ".1") fields = Some data → data ≠ [] →
    field_datatype seg_name base ∉ never_consolidated →
    al_find base fields' = Some data ∧
    al_find (base +:+ ".1") fields' = None ∧
    al_find base inner' = al_find (base +:+ ".1") inner ∧
    al_find (base +:+ ".1") inner' = None.

(** ... and with two paths under [base] in the tree, all paths under
    [base] stay as they are. *)
Definition kept (base : string)
    (fields fields' : list (string * list (string * nat)))
    (inner inner' : list (string * nat)) : Prop :=
  ∀ p q,
    p ≠ q → p ∈ fields.*1 → q ∈ fields.*1 →
    Str.before "." p = base → Str.before "." q = base →
    ∀ r, Str.before "." r = base →
      al_find r fields' = al_find r fields ∧ al_find r inner' = al_find r inner.

(** A field tree with OBX-1 seen only as [1.1] and OBX-2 seen as [2.1] and
    [2.2], and its presence table. *)
Definition example_spec
  : list (string * list (string * list (string * list (string * nat)))) :=
  [("ORU", [("OBX", [("1.1", [("GLU", 3)]); ("2.1", [("a", 2)]);
                     ("2.2", [("b", 1)])])])].

Definition example_presence
  : list (string * list (string * list (string * nat))) :=
  [("ORU", [("OBX", [("1.1", 3); ("2.1", 2); ("2.2", 1)])])].

(** A computation threading the lookup cache only adds entries to it, and
    started from any cache that already contains its final cache it returns
    the same value and leaves that cache as it is. *)
Definition memo_stable {X} (f : gmap cval cval → X * gmap cval cval) : Prop :=
  ∀ c, c ⊆ (f c).2 ∧ ∀ cf, (f c).2 ⊆ cf → f cf = ((f c).1, cf).

(** Three decoded messages (one of them failed to decode) over PID and
    OBX segments. *)
Definition small_corpus : list (option message) :=
  [Some {| message_type := "ORU";
           segments :=
             [{| name := "PID";
                 fields := [PList [PStr "123"; PStr ""; PStr "MR"];
                            PStr "DOE^JOHN"];
                 repeating_fields := ∅ |};
              {| name := "OBX";
                 fields := [PList [PStr "GLU"; PStr "Glucose"];
                            PList [PStr "5.4"; PStr "5.6"; PStr "5.4"]];
                 repeating_fields := {[ "2" ]} |}] |};
   None;
   Some {| message_type := "ORU";
           segments :=
             [{| name := "PID";
                 fields := [PStr "456"; PStr " "];
                 repeating_fields := ∅ |}] |}].

(** The call returned (did not raise). *)
Definition returned {A} (r : pyresult A) : bool :=
  match r with
  | Ok _ => true
  | Raise _ => false
  end.

(** *** The sequence profiler over a read-only view of [segments_presence]

    Reading a key of the [defaultdict] may store the default entry but
    never changes what any key reads as.  The definitions below are the
    merge functions of the profiler written over that reading. *)

Definition sp_view (sp : list (string * seg_presence)) (k : string)
  : seg_presence :=
  default sp_default (al_find k sp).

(** A segment name free of the marker characters of patterns. *)
Definition marker_free (n : string) : bool :=
  Str.all_chars (fun c => negb (Str.mem c "+[]")) n.

Definition names_marker_free (messages : list (option message)) : bool :=
  forallb (fun msg =>
             match msg with
             | Some m => forallb (fun s => marker_free (name s)) (segments m)
             | None => true
             end) messages.

(** The optional marking shared by the merge functions. *)
Definition mark_optional (v : string → seg_presence) (total_messages : nat)
    (seg : string) : string :=
  let clean_seg := clean_segment_name seg in
  if present_in (v clean_seg) <? total_messages then
    if Str.endswith seg "+" then "[" +:+ clean_seg +:+ "+]"
    else "[" +:+ clean_seg +:+ "]"
  else seg.

Definition merge_with_optional_view (v : string → seg_presence)
    (longer_pattern shorter_pattern : list string) (total_messages : nat)
  : list string :=
  (fun seg =>
     if bool_decide (clean_segment_name seg
                     ∈ clean_segment_name <$> shorter_pattern)
     then seg else mark_optional v total_messages seg) <$> longer_pattern.

(** The segments of a pattern whose name was not seen before. *)
Fixpoint keep_first (seen : gset string) (pattern : list string)
  : list string :=
  match pattern with
  | [] => []
  | seg :: r =>
      if bool_decide (clean_segment_name seg ∈ seen) then keep_first seen r
      else seg :: keep_first (seen ∪ {[ clean_segment_name seg ]}) r
  end.

Definition find_common_structure_view (v : string → seg_presence)
    (pattern1 pattern2 : list string) (total_messages : nat) : list string :=
  (fun seg =>
     if bool_decide (clean_segment_name seg ∈ clean_segment_name <$> pattern1)
        && bool_decide (clean_segment_name seg
                        ∈ clean_segment_name <$> pattern2)
     then seg else mark_optional v total_messages seg)
  <$> (keep_first ∅ pattern1
       ++ keep_first (list_to_set (clean_segment_name <$> pattern1)) pattern2).

Definition try_merge_view (v : string → seg_presence)
    (pattern1 pattern2 : list string) (total_messages : nat)
  : option (list string) :=
  if bool_decide (pattern1 = pattern2) then None
  else if is_subsequence pattern1 pattern2 then
    Some (merge_with_optional_view v pattern2 pattern1 total_messages)
  else if is_subsequence pattern2 pattern1 then
    Some (merge_with_optional_view v pattern1 pattern2 total_messages)
  else
    let merged :=
      find_common_structure_view v pattern1 pattern2 total_messages in
    if bool_decide (merged ≠ pattern1) && bool_decide (merged ≠ pattern2)
    then Some merged else None.

(** The annotation of a canonical sequence (lines 78-83). *)
Definition annotate (v : string → seg_presence) (seq : list string)
  : list string :=
  (fun seg => if repeats (v seg) then seg +:+ "+" else seg) <$> seq.

(** The names of the segments of a message. *)
Definition segment_names (m : message) : list string := name <$> segments m.

Definition sum_counts (l : list pattern_entry) : nat :=
  foldr (fun e acc => count e + acc) 0 l.

(** The messages that were decoded. *)
Definition decoded (messages : list (option message)) : list message :=
  omap id messages.

(** Two states of [segments_presence] that read the same. *)
Definition same_view (sp sp' : list (string * seg_presence)) : Prop :=
  ∀ k, sp_view sp' k = sp_view sp k.

(** A pattern element that carries no optional marking. *)
Definition unbracketed (seg : string) : bool := negb (Str.mem "[" seg).

(** The counts of the patterns of [l] that are not yet processed. *)
Definition pending (processed : gset (list string))
    (l : list (list string * nat)) : nat :=
  foldr (fun pc acc =>
           if bool_decide (pc.1 ∈ processed) then acc else pc.2 + acc) 0 l.

(** The number of decoded messages that hold a segment named [n]. *)
Definition containing (n : string) (ms : list message) : nat :=
  length (filter (fun m => n ∈ segment_names m) ms).

(** What the outer merge loop records about a stored key [K]: the pattern
    [A] that started its group, how [K] came out of [A], and that [A]
    merges with none of the patterns still waiting. *)
Definition key_led (v : string → seg_presence) (total : nat)
    (patterns : list (list string)) (rest : list (list string * nat))
    (processed : gset (list string)) (K : list string) : Prop :=
  ∃ A, A ∈ patterns ∧ A ∈ processed ∧
       (K = A ∨ ∃ Y, Y ∈ patterns ∧ Y ∈ processed ∧
                     try_merge_view v A Y total = Some K) ∧
       ∀ X, X ∈ rest.*1 → X ∉ processed →
            try_merge_view v A X total = None.

(** The decoded messages of one category. *)
Definition of_type (t : string) (messages : list (option message))
  : list message :=
  filter (fun m => message_type m = t) (decoded messages).

(** Two categories; in the second, one message repeats a segment and one
    lacks a segment of the other. *)
Definition mixed_corpus : list (option message) :=
  [message_of "ADT^A01" ["MSH"; "PID"; "PV1"];
   message_of "ORU^R01" ["MSH"; "PID"; "OBX"; "OBX"];
   message_of "ADT^A01" ["MSH"; "PID"];
   message_of "ORU^R01" ["MSH"; "OBX"; "NTE"];
   None;
   message_of "ORU^R01" ["MSH"; "PID"; "OBX"; "OBX"]].

(** One category; the name of a segment of the second message ends with
    the repeat marker. *)
Definition marked_corpus : list (option message) :=
  [message_of "T" ["A"; "A"]; message_of "T" ["A+"]].

(** The final patterns of a profile with their counts. *)
Definition pattern_counts (p : sequence_profile) : list (list string * nat) :=
  (fun e => (sequence e, count e)) <$> common_sequences p.

(** The segment names of the decoded messages of one category are free of
    the marker characters. *)
Definition category_marker_free (t : string)
    (messages : list (option message)) : bool :=
  forallb (fun m => forallb (fun s => marker_free (name s)) (segments m))
    (of_type t messages).

(** Two categories: the names of the first carry a marker, those of the
    second do not. *)
Definition two_category_corpus : list (option message) :=
  [message_of "T1" ["A"; "A"]; message_of "T2" ["MSH"; "PID"];
   message_of "T1" ["A+"]; message_of "T2" ["MSH"]].

(** What [Uuid.hex_digits] accepts in each of its states: [digits_rest] is
    what may follow a digit, blanks apart. *)
Definition digits_rest (s : string) : bool :=
  match s with
  | String u r =>
      if Ascii.eqb u "_" then TypeSpec.digit_groups r
      else TypeSpec.digit_groups s
  | "" => false
  end.

Definition digits_shape (prev_us seen : bool) (s : string) : bool :=
  if prev_us then TypeSpec.digit_groups s
  else (seen && Str.all_chars TypeSpec.blank s) || digits_rest s.

(** ** hl7_fields.py: PHI fields *)

(** [s.count(c)] for a one-character [c]. *)
Fixpoint str_count (c : ascii) (s : string) : nat :=
  match s with
  | "" => 0
  | String d r => (if Ascii.eqb d c then 1 else 0) + str_count c r
  end.

(** [PHI_FIELDS] and [PHI_PREFIXES] are sets; they are only tested for
    membership and searched with [any]. *)
Definition PHI_FIELDS : list string :=
  ["PID.2.1"; "PID.3.1"; "PID.5"; "PID.7"; "PID.11.1"; "PID.11.2"; "PID.18";
   "PID.19"].

Definition phi_prefix (f : string) : string :=
  if 0 <? str_count "." f then f else f +:+ ".".

Definition PHI_PREFIXES : list string := phi_prefix <$> PHI_FIELDS.

Definition is_phi_field (segment field_path : string) : bool :=
  let full_path := segment +:+ "." +:+ field_path in
  bool_decide (full_path ∈ PHI_FIELDS)
  || existsb (fun prefix => String.prefix prefix full_path) PHI_PREFIXES.

(** ** spec_builder.py: PHI fields and the listing of unique values *)

Module SpecBuilder.

Definition PHI_FIELDS : list string :=
  ["PID.2.1"; "PID.3.1"; "PID.5"; "PID.6"; "PID.7"; "PID.9"; "PID.11.1";
   "PID.11.2"; "PID.13.1"; "PID.13.6"; "PID.13.7"; "PID.14.1"; "PID.14.6";
   "PID.14.7"; "PID.18"; "PID.19"; "PID.20"; "PID.21"; "PID.23";
   "MRG.1.1"; "MRG.4.1"; "MRG.7"; "IN.16"; "GT1.2"; "GT1.3"; "GT1.5";
   "GT1.6"; "GT1.7"; "GT1.20";
   "NK1.2"; "NK1.4"; "NK1.5"; "NK1.6"; "IN2.2"; "IN1.19"; "IN2.13";
   "IN1.16"].

Definition PHI_PREFIXES : list string := phi_prefix <$> PHI_FIELDS.

Definition is_phi_field_local (segment field_path : string) : bool :=
  let full_path := segment +:+ "." +:+ field_path in
  bool_decide (full_path ∈ PHI_FIELDS)
  || existsb (fun prefix => String.prefix prefix full_path) PHI_PREFIXES.

(** [values] is a [Counter]. *)
Definition should_collect_unique_values (seg_name field_path : string)
    (values : list (string * nat)) (hl7_type : string) : bool :=
  if is_phi_field_local seg_name field_path then false
  else if bool_decide ("__TOO_MANY__" ∈ al_keys values)
          || (100 <? length values) then false
  else if String.eqb hl7_type "TS" then false
  else if String.eqb hl7_type "SI" then false
  else true.

End SpecBuilder.

(** ** What every statistics object of the aggregator satisfies *)

Definition stats_sound (st : FieldStats) : Prop :=
  length (values st) ≤ MAX_UNIQUE ∧
  (_frozen st = true → values st = [("__TOO_MANY__", 1)]) ∧
  (_frozen st = false →
     presence_count st ≤ counter_total (values st) ∧ "" ∉ al_keys (values st)).

(** ** Auxiliary definitions for the sequence profiler *)

(** How often the name [n] occurs among [names]. *)
Definition occurrences (n : string) (names : list string) : nat :=
  length (filter (fun x => x = n) names).

(** The final optional marking of one pattern element (lines 95-104), over
    the reading of [segments_presence]. *)
Definition final_mark (v : string → seg_presence) (total_messages : nat)
    (seg : string) : string :=
  let base_seg := clean_segment_name seg in
  let is_repeat := Str.endswith seg "+" in
  let is_optional := present_in (v base_seg) <? total_messages in
  if is_optional && is_repeat then "[" +:+ base_seg +:+ "+]"
  else if is_optional then "[" +:+ base_seg +:+ "]"
  else seg.

(** A list of patterns in the order of non-increasing counts. *)
Definition descending (l : list pattern_entry) : Prop :=
  ∀ i j e1 e2, i < j → l !! i = Some e1 → l !! j = Some e2 →
               count e2 ≤ count e1.

(** A category in which OBX repeats in one message and is absent from the
    other. *)
Definition repeat_corpus : list (option message) :=
  [message_of "ORU^R01" ["MSH"; "OBX"; "OBX"]; message_of "ORU^R01" ["MSH"]].

(** ** sequence_profiler.py: normalize_sequence *)

(** [normalized[-1] += '+'] replaces the last element. *)
Definition normalize_sequence (seq : list string) : list string :=
  foldl (fun normalized segment =>
           match last normalized with
           | None => normalized ++ [segment]
           | Some l =>
               if bool_decide
                    (segment = Str.rstrip_with (fun c => Str.mem c "+") l)
               then
                 if negb (Str.endswith l "+") then
                   take (length normalized - 1) normalized ++ [l +:+ "+"]
                 else normalized
               else normalized ++ [segment]
           end) [] seq.

(** The canonical order of segment names (lines 66-67): a name is appended
    unless it equals the last one. *)
Definition order_step (segment_order : list string) (seg_name : string)
  : list string :=
  match last segment_order with
  | Some l => if bool_decide (l ≠ seg_name)
              then segment_order ++ [seg_name] else segment_order
  | None => segment_order ++ [seg_name]
  end.

(** An annotated name: a name without marker characters, possibly followed
    by the repeat marker. *)
Definition annotated_name (t : string) : Prop :=
  ∃ n, marker_free n = true ∧ (t = n ∨ t = n +:+ "+").

(** Every path of the value tree has an entry in the presence table. *)
Definition paths_covered
    (spec : list (string * list (string * list (string * list (string * nat)))))
    (presence : list (string * list (string * list (string * nat)))) : Prop :=
  ∀ mt segs sg fields p,
    (mt, segs) ∈ spec → (sg, fields) ∈ segs → p ∈ fields.*1 →
    p ∈ (dd2_get mt sg presence).*1.

(** A property of every value stored in a three-level dictionary, which
    may depend on the first key. *)
Definition tree_all {V} (P : string → V → Prop)
    (t : list (string * list (string * list (string * V)))) : Prop :=
  ∀ a by_b b by_c c v,
    (a, by_b) ∈ t → (b, by_c) ∈ by_b → (c, v) ∈ by_c → P a v.

(** What holds of every counter of the value tree that [aggregate_data]
    returns. *)
Definition output_counter (vals : list (string * nat)) : Prop :=
  0 < length vals ∧ length vals ≤ MAX_UNIQUE ∧
  "" ∉ al_keys vals ∧ has_content vals = true.

(** [repeat_tracker[msg_type][seg_name]], read without inserting. *)
Definition tracked (msg_type seg_name : string)
    (repeat_tracker : list (string * list (string * gset string)))
  : gset string :=
  default ∅ (al_find seg_name (default [] (al_find msg_type repeat_tracker))).

(** The field positions of a segment that [repeating_fields] flags: the
    decimal texts of the positions 1 .. [len(fields)] that the set holds. *)
Definition flagged_position (seg : segment) (i : string) : Prop :=
  i ∈ repeating_fields seg ∧
  ∃ j, 1 ≤ j ≤ length (fields seg) ∧ i = pretty j.

(** * Properties *)

(** ** Strings *)

#[local] Arguments String.append : simpl nomatch.

Lemma append_nil_r (s : string) : s +:+ "" = s.
Proof. induction s; simpl; congruence. Qed.

Lemma append_assoc (a b c : string) : (a +:+ b) +:+ c = a +:+ (b +:+ c).
Proof. induction a; simpl; congruence. Qed.

(** ** Ordered dictionaries *)

Section AssocListFacts.
Context {K V : Type} `{EqDecision K}.
Implicit Types (k : K) (v : V) (d : list (K * V)).

Lemma al_find_set_eq k v d : al_find k (al_set k v d) = Some v.
Proof.
  induction d as [|[k' v'] d IH]; simpl.
  - by rewrite decide_True.
  - destruct (decide (k = k')) as [->|Hne]; simpl.
    + by rewrite decide_True.
    + by rewrite decide_False.
Qed.

Lemma al_find_set_ne k k' v d :
  k ≠ k' → al_find k (al_set k' v d) = al_find k d.
Proof.
  intros Hne. induction d as [|[k'' v''] d IH]; simpl.
  - by rewrite decide_False.
  - destruct (decide (k' = k'')) as [->|Hne']; simpl.
    + by rewrite !decide_False.
    + destruct (decide (k = k'')); [done|apply IH].
Qed.

Lemma al_set_length_fresh k v d :
  al_find k d = None → length (al_set k v d) = S (length d).
Proof.
  induction d as [|[k' v'] d IH]; simpl; [done|].
  case_decide; [done|]. simpl. intros. by rewrite IH.
Qed.

Lemma al_set_length_present k v d :
  is_Some (al_find k d) → length (al_set k v d) = length d.
Proof.
  induction d as [|[k' v'] d IH]; simpl; [by intros [? ?]|].
  case_decide; [done|]. simpl. intros. by rewrite IH.
Qed.
End AssocListFacts.

(** ** FieldStats: the cap and the frozen state *)

Lemma add_value_collecting (st : FieldStats) (v : string) :
  _frozen st = false → length (values st) < MAX_UNIQUE →
  add_value st v =
    {| values := counter_incr v (values st);
       presence_count := presence_count st; _frozen := false |}.
Proof.
  intros Hf Hlen. unfold add_value. rewrite Hf.
  by rewrite (proj2 (Nat.ltb_lt _ _) Hlen).
Qed.

Lemma add_value_at_cap (st : FieldStats) (v : string) :
  _frozen st = false → MAX_UNIQUE ≤ length (values st) →
  add_value st v =
    {| values := [("__TOO_MANY__", 1)];
       presence_count := presence_count st; _frozen := true |}.
Proof.
  intros Hf Hlen. unfold add_value. rewrite Hf.
  by rewrite (proj2 (Nat.ltb_ge _ _) Hlen).
Qed.

Lemma add_value_frozen (st : FieldStats) (v : string) :
  _frozen st = true → add_value st v = st.
Proof. intros Hf. unfold add_value. by rewrite Hf. Qed.

Lemma counter_incr_get {K} `{EqDecision K} (k : K) (c : list (K * nat)) :
  al_find k (counter_incr k c) = Some (S (default 0 (al_find k c))).
Proof. apply al_find_set_eq. Qed.

(** C1, at the input where the code leaves the stated behaviour: a field
    that holds exactly 100 distinct values receives one of them again. No
    101st distinct key would be created, yet [add_value] discards the 100
    counts, stores the sentinel and freezes the field. *)
Theorem add_value_repeat_at_cap_overflows :
  length (values stats_at_cap) = 100 ∧
  _frozen stats_at_cap = false ∧
  al_find "v0" (values stats_at_cap) = Some 1 ∧
  add_value stats_at_cap "v0" =
    {| values := [("__TOO_MANY__", 1)]; presence_count := 0;
       _frozen := true |}.
Proof. vm_compute. done. Qed.

Lemma process_field_value_frozen value field_path st seen segment_name :
  _frozen st = true →
  process_field_value value field_path st seen segment_name = (st, seen).
Proof. intros Hf. unfold process_field_value. by rewrite Hf. Qed.

Lemma add_value_frozen_inv st v : frozen_inv st → frozen_inv (add_value st v).
Proof.
  unfold frozen_inv, add_value. intros Hinv.
  destruct (_frozen st) eqn:Hf; [by rewrite Hf|].
  case_match; simpl; [congruence|done].
Qed.

Lemma add_value_keeps_frozen st v :
  _frozen st = true → _frozen (add_value st v) = true.
Proof. intros Hf. by rewrite add_value_frozen. Qed.

Lemma apply_op_frozen_inv st seen op :
  frozen_inv st → frozen_inv (apply_op (st, seen) op).1.
Proof.
  intros Hinv. destruct op as [v| |value p seg]; simpl.
  - by apply add_value_frozen_inv.
  - done.
  - unfold process_field_value. destruct (_frozen st) eqn:Hf; [done|].
    case_bool_decide; [done|].
    case_bool_decide; simpl; apply add_value_frozen_inv; unfold frozen_inv;
      simpl; congruence.
Qed.

Lemma apply_op_overflowed st seen op :
  overflowed st → overflowed (apply_op (st, seen) op).1.
Proof.
  intros [Hf Hv]. destruct op as [v| |value p seg]; simpl.
  - by rewrite add_value_frozen.
  - done.
  - by rewrite process_field_value_frozen.
Qed.

Lemma run_ops_overflowed ops st seen :
  overflowed st → overflowed (foldl apply_op (st, seen) ops).1.
Proof.
  revert st seen. induction ops as [|op ops IH]; intros st seen Hov; [done|].
  simpl. destruct (apply_op (st, seen) op) as [st' seen'] eqn:Hop.
  apply IH. change st' with (st', seen').1. rewrite <- Hop.
  by apply apply_op_overflowed.
Qed.

(** C2: a frozen field holds exactly the sentinel key, every further
    recording into it ([process_field_value], and [add_value] itself)
    changes neither the counter, nor the presence count, nor the set of
    keys counted for the message, and no sequence of operations on the
    object leaves the frozen state; the invariant "frozen implies the
    counter is the sentinel alone" holds initially and after every
    operation. *)
Theorem overflowed_is_absorbing (st : FieldStats) (seen : gset string) :
  frozen_inv st → _frozen st = true →
  values st = [("__TOO_MANY__", 1)] ∧
  (∀ value field_path segment_name,
     process_field_value value field_path st seen segment_name = (st, seen)) ∧
  (∀ v, add_value st v = st) ∧
  (∀ ops, overflowed (foldl apply_op (st, seen) ops).1) ∧
  frozen_inv FieldStats_init ∧
  (∀ st' seen' op, frozen_inv st' → frozen_inv (apply_op (st', seen') op).1).
Proof.
  intros Hinv Hf. split; [by apply Hinv|]. split.
  { intros. by apply process_field_value_frozen. }
  split; [intros; by apply add_value_frozen|]. split.
  { intros ops. apply run_ops_overflowed. split; [done|by apply Hinv]. }
  split; [done|]. intros. by apply apply_op_frozen_inv.
Qed.

Lemma overflowed_is_absorbing_witness :
  let st := add_value stats_at_cap "v100" in
  values st = [("__TOO_MANY__", 1)] ∧
  process_field_value (PStr "x") "3.1" st ∅ "PID" = (st, ∅).
Proof.
  intros st.
  assert (Hf : _frozen st = true) by (vm_compute; done).
  assert (Hinv : frozen_inv st) by (intros _; vm_compute; done).
  destruct (overflowed_is_absorbing st ∅ Hinv Hf) as (Hv & Hrec & _).
  split; [exact Hv|apply Hrec].
Defined.

(** ** Normalisation of list-shaped values *)

Lemma pyval_nested_ind (P : pyval → Prop) :
  (∀ s, P (PStr s)) → (∀ l, Forall P l → P (PList l)) → ∀ v, P v.
Proof.
  intros Hs Hl. fix IH 1. intros [s|l]; [apply Hs|].
  apply Hl. induction l as [|x r IHr]; constructor; [apply IH|apply IHr].
Qed.

Lemma flatten_list_cons (item : pyval) (r : list pyval) :
  flatten_list (item :: r) = flatten_value item ++ flatten_list r.
Proof. done. Qed.


Lemma flatten_value_leaves (v : pyval) :
  flatten_value v = Str.strip <$> leaves v.
Proof.
  induction v as [s|l IH] using pyval_nested_ind; [done|].
  change (flatten_list l = Str.strip <$> leaves (PList l)).
  induction IH as [|x r Hx _ IHr]; [done|].
  rewrite flatten_list_cons, Hx, IHr. simpl. by rewrite fmap_app.
Qed.

Section Strip.
Variable p : ascii → bool.

Lemma lstrip_all (s1 s2 : string) :
  Str.all_chars p s1 = true →
  Str.lstrip_with p (s1 +:+ s2) = Str.lstrip_with p s2.
Proof.
  induction s1 as [|c s1 IH]; simpl; [done|].
  intros [Hc Hs]%andb_prop. rewrite Hc. by apply IH.
Qed.

Lemma lstrip_first (s : string) (c : ascii) :
  first_char s = Some c → p c = false → Str.lstrip_with p s = s.
Proof. destruct s; simpl; [done|]. intros [= ->] ->. done. Qed.

Lemma rstrip_all_chars (s : string) :
  Str.all_chars p s = true → Str.rstrip_with p s = "".
Proof.
  induction s as [|c s IH]; simpl; [done|].
  intros [Hc Hs]%andb_prop. by rewrite IH, Hc.
Qed.

Lemma rstrip_all (s1 s2 : string) :
  Str.all_chars p s2 = true →
  Str.rstrip_with p (s1 +:+ s2) = Str.rstrip_with p s1.
Proof.
  intros Hs2. induction s1 as [|c s1 IH]; simpl.
  - by apply rstrip_all_chars.
  - by rewrite IH.
Qed.

Lemma rstrip_last (s : string) (c : ascii) :
  last_char s = Some c → p c = false → Str.rstrip_with p s = s.
Proof.
  induction s as [|d s IH]; [done|].
  destruct s as [|e s].
  - simpl. intros [= ->] ->. done.
  - intros Hl Hc. change (last_char (String e s) = Some c) in Hl.
    specialize (IH Hl Hc).
    change (match Str.rstrip_with p (String e s) with
            | "" => if p d then "" else String d ""
            | r' => String d r'
            end = String d (String e s)).
    by rewrite IH.
Qed.


Lemma strip_clean (s : string) (c1 c2 : ascii) :
  first_char s = Some c1 → p c1 = false →
  last_char s = Some c2 → p c2 = false →
  Str.strip_with p s = s.
Proof.
  intros H1 Hp1 H2 Hp2. unfold Str.strip_with.
  rewrite (lstrip_first s c1) by done. by apply (rstrip_last s c2).
Qed.
End Strip.

Definition is_caret (c : ascii) : bool := Str.mem c "^".

Lemma join_cons2 (sep x y : string) (r : list string) :
  Str.join sep (x :: y :: r) = x +:+ sep +:+ Str.join sep (y :: r).
Proof. done. Qed.



Lemma join_all_blank (l : list string) :
  Forall (λ s, s = "") l → Str.all_chars is_caret (Str.join "^" l) = true.
Proof.
  induction 1 as [|x l -> Hl IH]; [done|].
  destruct l as [|y l]; [done|]. rewrite join_cons2. apply IH.
Qed.



Lemma strip_all_l (p : ascii → bool) (q s : string) :
  Str.all_chars p q = true →
  Str.strip_with p (q +:+ s) = Str.strip_with p s.
Proof. intros Hq. unfold Str.strip_with. by rewrite lstrip_all. Qed.

Lemma strip_only_separators (p : ascii → bool) (q : string) :
  Str.all_chars p q = true → Str.strip_with p q = "".
Proof.
  intros Hq. pose proof (strip_all_l p q "" Hq) as H.
  by rewrite append_nil_r in H.
Qed.







(** ** Type inference: the regular expressions against plain predicates *)

Module ReFacts.
Import Re.

Lemma fullmatch_Empty s : fullmatch Empty s = false.
Proof. induction s; simpl; done. Qed.

Lemma fullmatch_Alt r1 r2 s :
  fullmatch (Alt r1 r2) s = fullmatch r1 s || fullmatch r2 s.
Proof. revert r1 r2. induction s as [|c s IH]; intros; simpl; [done|apply IH]. Qed.

Lemma fullmatch_Seq_split r1 r2 s :
  fullmatch (Seq r1 r2) s = true ↔
  ∃ s1 s2, s = s1 +:+ s2 ∧ fullmatch r1 s1 = true ∧ fullmatch r2 s2 = true.
Proof.
  revert r1. induction s as [|c s IH]; intros r1.
  - simpl. rewrite andb_true_iff. split.
    + intros [H1 H2]. by exists "", "".
    + intros (s1 & s2 & Hs & H1 & H2).
      destruct s1; [|done]. destruct s2; [|done]. done.
  - simpl. rewrite fullmatch_Alt, orb_true_iff, IH. split.
    + intros [(s1 & s2 & -> & H1 & H2)|H].
      * by exists (String c s1), s2.
      * destruct (nullable r1) eqn:Hn; [|by rewrite fullmatch_Empty in H].
        by exists "", (String c s).
    + intros (s1 & s2 & Hs & H1 & H2). destruct s1 as [|d s1].
      * simpl in Hs, H1. subst s2. right. by rewrite H1.
      * simpl in Hs. injection Hs as <- ->. left. by exists s1, s2.
Qed.

Lemma fullmatch_Seq_ext r1 r1' r2 s :
  (∀ t, fullmatch r1 t = fullmatch r1' t) →
  fullmatch (Seq r1 r2) s = fullmatch (Seq r1' r2) s.
Proof.
  intros Hext. apply eq_true_iff_eq. rewrite !fullmatch_Seq_split.
  split; intros (s1 & s2 & ? & H1 & ?); exists s1, s2;
    (split; [done|split; [|done]]); by rewrite ?Hext in *.
Qed.

Lemma fullmatch_Seq_Empty r s : fullmatch (Seq Empty r) s = false.
Proof.
  apply not_true_is_false. rewrite fullmatch_Seq_split.
  intros (s1 & s2 & _ & H & _). by rewrite fullmatch_Empty in H.
Qed.

Lemma fullmatch_Seq_Eps r s : fullmatch (Seq Eps r) s = fullmatch r s.
Proof.
  destruct s as [|c s]; simpl; [done|].
  by rewrite fullmatch_Alt, fullmatch_Seq_Empty.
Qed.

Lemma fullmatch_Seq_Class p r s :
  fullmatch (Seq (Class p) r) s =
  match s with
  | "" => false
  | String c s' => p c && fullmatch r s'
  end.
Proof.
  destruct s as [|c s]; simpl; [done|].
  rewrite fullmatch_Alt, fullmatch_Empty, orb_false_r.
  destruct (p c); [apply fullmatch_Seq_Eps|apply fullmatch_Seq_Empty].
Qed.

Lemma fullmatch_Star_Class p s :
  fullmatch (Star (Class p)) s = Str.all_chars p s.
Proof.
  induction s as [|c s IH]; simpl; [done|].
  destruct (p c); simpl.
  - by rewrite fullmatch_Seq_Eps.
  - apply fullmatch_Seq_Empty.
Qed.

Lemma fullmatch_Seq_Alt a b r s :
  fullmatch (Seq (Alt a b) r) s =
  fullmatch (Seq a r) s || fullmatch (Seq b r) s.
Proof.
  apply eq_true_iff_eq.
  rewrite orb_true_iff, !fullmatch_Seq_split. split.
  - intros (s1 & s2 & Hs & H1 & H2).
    rewrite fullmatch_Alt, orb_true_iff in H1.
    destruct H1; [left|right]; by exists s1, s2.
  - intros [(s1 & s2 & Hs & H1 & H2)|(s1 & s2 & Hs & H1 & H2)];
      exists s1, s2; rewrite fullmatch_Alt, H1; by rewrite ?orb_true_r.
Qed.

Lemma digits_exactly_spec n s :
  fullmatch (digits_exactly n) s = TypeSpec.n_digit_string n s.
Proof.
  unfold digits_exactly, TypeSpec.n_digit_string.
  revert s. induction n as [|n IH]; intros s.
  - destruct s; simpl; [done|apply fullmatch_Empty].
  - simpl Times. unfold digit at 1. rewrite fullmatch_Seq_Class.
    destruct s as [|c s]; [done|].
    rewrite IH. simpl. by rewrite andb_comm, <- andb_assoc,
      (andb_comm (Str.all_chars _ _)).
Qed.

Lemma plus_digit_spec s :
  fullmatch (Plus digit) s = TypeSpec.nonempty_digits s.
Proof.
  unfold Plus, digit. rewrite fullmatch_Seq_Class.
  destruct s as [|c s]; [done|]. by rewrite fullmatch_Star_Class.
Qed.

Lemma sign_not_digit c : Str.mem c "-+" = true → Str.is_digit c = false.
Proof.
  simpl. destruct (Ascii.eqb_spec c "-") as [->|_]; [done|].
  destruct (Ascii.eqb_spec c "+") as [->|_]; done.
Qed.

Lemma sign_unsigned (c : ascii) :
  Str.mem c "-+" = (Ascii.eqb c "-" || Ascii.eqb c "+").
Proof. simpl. by destruct (Ascii.eqb c "-"), (Ascii.eqb c "+"). Qed.

Lemma opt_sign_spec r s :
  (∀ c t, Str.mem c "-+" = true → fullmatch r (String c t) = false) →
  fullmatch (Seq (Opt sign) r) s = fullmatch r (TypeSpec.unsigned s).
Proof.
  intros Hr. unfold Opt, sign.
  rewrite fullmatch_Seq_Alt, fullmatch_Seq_Eps, fullmatch_Seq_Class.
  destruct s as [|c s]; simpl TypeSpec.unsigned; [by rewrite orb_false_r|].
  rewrite <- (sign_unsigned c).
  destruct (Str.mem c "-+") eqn:Hc.
  - by rewrite Hr.
  - by rewrite orb_false_r.
Qed.

Lemma int_re_spec s : fullmatch int_re s = TypeSpec.integer_text s.
Proof.
  unfold int_re, TypeSpec.integer_text. rewrite opt_sign_spec.
  - apply plus_digit_spec.
  - intros c t Hc. rewrite plus_digit_spec.
    unfold TypeSpec.nonempty_digits. simpl. by rewrite (sign_not_digit c).
Qed.

Lemma decimal_body_spec s :
  fullmatch (Seq (Star digit) (Seq dot (Plus digit))) s =
  TypeSpec.decimal_body s.
Proof.
  induction s as [|c s IH]; [done|].
  cbn [fullmatch deriv nullable digit dot]. cbn [TypeSpec.decimal_body].
  rewrite !fullmatch_Alt, fullmatch_Empty, orb_false_r.
  destruct (Ascii.eqb_spec c ".") as [->|Hc].
  - rewrite fullmatch_Seq_Eps, plus_digit_spec.
    replace (Str.is_digit ".") with false by done.
    rewrite (fullmatch_Seq_ext _ Empty).
    + by rewrite fullmatch_Seq_Empty.
    + intros t. by rewrite fullmatch_Seq_Empty, fullmatch_Empty.
  - rewrite (fullmatch_Seq_Empty (Plus digit)), orb_false_r.
    destruct (Str.is_digit c).
    + rewrite (fullmatch_Seq_ext _ (Star digit)); [apply IH|].
      intros t. apply fullmatch_Seq_Eps.
    + rewrite (fullmatch_Seq_ext _ Empty).
      * by rewrite fullmatch_Seq_Empty.
      * intros t. by rewrite fullmatch_Seq_Empty, fullmatch_Empty.
Qed.

Lemma float_re_spec s : fullmatch float_re s = TypeSpec.decimal_text s.
Proof.
  unfold float_re, TypeSpec.decimal_text. rewrite opt_sign_spec.
  - apply decimal_body_spec.
  - intros c t Hc. rewrite decimal_body_spec. simpl.
    rewrite (sign_not_digit c Hc).
    destruct (Ascii.eqb_spec c ".") as [->|]; done.
Qed.

End ReFacts.

(** ** The UUID step and the boolean tokens *)

Lemma ascii_all (P : ascii → Prop) :
  (∀ n, n < 256 → P (ascii_of_nat n)) → ∀ c, P c.
Proof.
  intros HP c. rewrite <- (ascii_nat_embedding c). apply HP, nat_ascii_bounded.
Qed.

Lemma below_forallb (f : nat → bool) (k : nat) :
  forallb f (seq 0 k) = true → ∀ n, n < k → f n = true.
Proof.
  rewrite forallb_forall. intros Hall n Hn. apply Hall, in_seq. lia.
Qed.

Lemma int_space_blank c : Uuid.is_int_space c = TypeSpec.blank c.
Proof.
  revert c. apply ascii_all. intros n Hn.
  apply Bool.eqb_prop. revert n Hn.
  apply (below_forallb (λ n, Bool.eqb (Uuid.is_int_space (ascii_of_nat n))
                               (TypeSpec.blank (ascii_of_nat n)))).
  vm_compute. reflexivity.
Qed.

Lemma all_chars_ext (p q : ascii → bool) s :
  (∀ c, p c = q c) → Str.all_chars p s = Str.all_chars q s.
Proof. intros Hpq. induction s as [|c s IH]; simpl; [done|]. by rewrite Hpq, IH. Qed.

Lemma lstrip_with_ext (p q : ascii → bool) s :
  (∀ c, p c = q c) → Str.lstrip_with p s = Str.lstrip_with q s.
Proof.
  intros Hpq. induction s as [|c s IH]; simpl; [done|]. by rewrite Hpq, IH.
Qed.

(** What [hex_digit] answers, character by character: a value below 16
    exactly for the hexadecimal digits; the underscore and the blanks are no
    digits. *)
Lemma hex_digit_cases c :
  match Uuid.hex_digit c with
  | Some d => TypeSpec.hex_char c = true ∧ (0 ≤ d < 16)%Z
  | None => TypeSpec.hex_char c = false
  end ∧
  (TypeSpec.hex_char c = true →
   Ascii.eqb c "_" = false ∧ TypeSpec.blank c = false).
Proof.
  revert c. apply ascii_all. intros n Hn.
  set (ok := λ n : nat,
    let c := ascii_of_nat n in
    match Uuid.hex_digit c with
    | Some d => TypeSpec.hex_char c && (0 <=? d)%Z && (d <? 16)%Z
    | None => negb (TypeSpec.hex_char c)
    end
    && (negb (TypeSpec.hex_char c)
        || (negb (Ascii.eqb c "_") && negb (TypeSpec.blank c)))).
  assert (Hok : ok n = true).
  { revert n Hn. apply below_forallb. vm_compute. reflexivity. }
  unfold ok in Hok. cbv zeta in Hok.
  apply andb_prop in Hok as [H1 H2]. split.
  - destruct (Uuid.hex_digit (ascii_of_nat n)) as [d|].
    + apply andb_prop in H1 as [[Hh H0]%andb_prop H16].
      split; [done|]. lia.
    + by rewrite negb_true_iff in H1.
  - intros Hh. rewrite Hh in H2. simpl in H2.
    apply andb_prop in H2 as [Hu Hb]. by rewrite negb_true_iff in Hu, Hb.
Qed.

Lemma digit_groups_cons c r :
  TypeSpec.digit_groups (String c r)
  = TypeSpec.hex_char c && (Str.all_chars TypeSpec.blank r || digits_rest r).
Proof. by destruct r. Qed.

(** [hex_digits] returns exactly on the texts of the shape of its state,
    and what it returns is below 16 to the number of characters read. *)
Lemma hex_digits_shape s acc prev_us seen :
  (0 ≤ acc)%Z →
  match Uuid.hex_digits acc prev_us seen s with
  | Some n =>
      digits_shape prev_us seen s = true ∧
      (acc ≤ n < (acc + 1) * 16 ^ Z.of_nat (String.length s))%Z
  | None => digits_shape prev_us seen s = false
  end.
Proof.
  revert acc prev_us seen.
  induction s as [|c r IH]; intros acc pu seen Hacc.
  - unfold digits_shape. simpl. destruct pu, seen; simpl; try done.
    split; [done|]. lia.
  - cbn [Uuid.hex_digits]. unfold digits_shape.
    assert (Hrest : digits_rest (String c r)
                    = if Ascii.eqb c "_" then TypeSpec.digit_groups r
                      else TypeSpec.digit_groups (String c r))
      by done.
    rewrite Hrest, !digit_groups_cons. cbn [Str.all_chars].
    assert (Hpow : (16 ^ Z.of_nat (String.length (String c r))
                    = 16 * 16 ^ Z.of_nat (String.length r))%Z).
    { cbn [String.length]. rewrite Nat2Z.inj_succ, Z.pow_succ_r; lia. }
    assert (Hpos : (0 < 16 ^ Z.of_nat (String.length r))%Z)
      by (apply Z.pow_pos_nonneg; lia).
    rewrite Hpow.
    destruct (Ascii.eqb_spec c "_") as [->|Hc].
    + change (TypeSpec.hex_char "_") with false.
      change (TypeSpec.blank "_") with false.
      cbn [andb orb]. rewrite !andb_false_r. cbn [orb].
      destruct pu; [done|].
      specialize (IH acc true seen Hacc). unfold digits_shape in IH.
      destruct (Uuid.hex_digits acc true seen r) as [n|]; [|done].
      destruct IH as (Hs & Hb). split; [done|]. nia.
    + destruct (hex_digit_cases c) as [Hd _].
      destruct (Uuid.hex_digit c) as [d|].
      * destruct Hd as (Hh & Hd).
        destruct (proj2 (hex_digit_cases c) Hh) as [_ Hb].
        rewrite Hh, Hb. cbn [andb orb]. rewrite !andb_false_r.
        cbn [orb].
        assert (Hacc' : (0 ≤ 16 * acc + d)%Z) by lia.
        specialize (IH (16 * acc + d)%Z false true Hacc').
        unfold digits_shape in IH. cbn [andb] in IH.
        destruct (Uuid.hex_digits (16 * acc + d) false true r) as [n|].
        -- destruct IH as (Hs & Hb'). rewrite Hs.
           split; [by destruct pu|]. nia.
        -- rewrite IH. by destruct pu.
      * rewrite Hd. cbn [andb orb]. rewrite !orb_false_r.
        rewrite int_space_blank, (all_chars_ext _ _ r int_space_blank).
        destruct pu; [done|]. destruct seen; [|done]. cbn [orb negb andb].
        destruct (TypeSpec.blank c && Str.all_chars TypeSpec.blank r);
          [|done].
        split; [done|]. nia.
Qed.

Lemma after_app p s r : TypeSpec.after p s = Some r → s = p +:+ r.
Proof.
  revert s. induction p as [|a p IH]; intros [|b s]; simpl; try done.
  - by intros [= <-].
  - by intros [= <-].
  - destruct (Ascii.eqb_spec a b) as [->|]; [|done].
    intros Hr. by rewrite (IH s Hr).
Qed.

Lemma after_length p s r :
  TypeSpec.after p s = Some r → String.length r ≤ String.length s.
Proof.
  intros ->%after_app. induction p as [|a p IH]; simpl; [done|lia].
Qed.

Lemma lstrip_with_length p s :
  String.length (Str.lstrip_with p s) ≤ String.length s.
Proof.
  induction s as [|c s IH]; simpl; [done|]. destruct (p c); simpl; lia.
Qed.

Lemma lstrip_with_mem p c s :
  Str.mem c s = false → Str.mem c (Str.lstrip_with p s) = false.
Proof.
  induction s as [|d s IH]; [done|]. cbn [Str.lstrip_with].
  destruct (p d); [|done]. cbn [Str.mem].
  destruct (Ascii.eqb c d); [done|exact IH].
Qed.

Lemma remove_char_mem c s : Str.mem c (Str.remove_char c s) = false.
Proof.
  induction s as [|d s IH]; [done|]. cbn [Str.remove_char].
  destruct (Ascii.eqb_spec d c) as [->|Hne]; [done|]. cbn [Str.mem].
  by destruct (Ascii.eqb_spec c d) as [->|].
Qed.

Lemma starts_underscore {A} (x y : A) s :
  match s with String "_" _ => x | _ => y end
  = match TypeSpec.after "_" s with Some _ => x | None => y end.
Proof.
  destruct s as [|c s]; [done|].
  destruct c as [[] [] [] [] [] [] [] []]; reflexivity.
Qed.

Lemma drop_underscore r :
  match r with String "_" r' => r' | _ => r end
  = default r (TypeSpec.after "_" r).
Proof.
  destruct r as [|c r]; [done|].
  destruct c as [[] [] [] [] [] [] [] []]; reflexivity.
Qed.

(** The text after the optional prefix [0x] or [0X] and one underscore. *)
Lemma hex_prefix s :
  match s with
  | String "0" (String x r) =>
      if Ascii.eqb x "x" || Ascii.eqb x "X" then
        match r with
        | String "_" r' => r'
        | _ => r
        end
      else s
  | _ => s
  end
  = match TypeSpec.after "0x" s, TypeSpec.after "0X" s with
    | Some r, _ | _, Some r => default r (TypeSpec.after "_" r)
    | _, _ => s
    end.
Proof.
  destruct s as [|c s]; [done|].
  destruct c as [[] [] [] [] [] [] [] []]; try reflexivity.
  destruct s as [|x r]; [done|]. rewrite drop_underscore.
  destruct x as [[] [] [] [] [] [] [] []]; reflexivity.
Qed.

Lemma int16_unfold text :
  Uuid.int16 text
  = let s := Str.lstrip_with Uuid.is_int_space text in
    match TypeSpec.after "-" s, TypeSpec.after "+" s with
    | Some r, _ => Z.opp <$> Uuid.hex_body r
    | _, Some r => Uuid.hex_body r
    | _, _ => Uuid.hex_body s
    end.
Proof.
  unfold Uuid.int16. cbv zeta.
  destruct (Str.lstrip_with Uuid.is_int_space text) as [|c s]; [done|].
  destruct c as [[] [] [] [] [] [] [] []]; reflexivity.
Qed.

Lemma hex_body_shape s :
  let digits :=
    match TypeSpec.after "0x" s, TypeSpec.after "0X" s with
    | Some r, _ | _, Some r => default r (TypeSpec.after "_" r)
    | _, _ => s
    end in
  String.length digits ≤ String.length s ∧
  match Uuid.hex_body s with
  | Some n =>
      TypeSpec.digit_groups digits = true ∧
      (0 ≤ n < 16 ^ Z.of_nat (String.length digits))%Z
  | None => TypeSpec.digit_groups digits = false
  end.
Proof.
  unfold Uuid.hex_body. rewrite hex_prefix. cbv zeta.
  match goal with |- context [String.length ?d ≤ _] => set (digits := d) end.
  split.
  { subst digits.
    assert (Hus : ∀ r, String.length (default r (TypeSpec.after "_" r))
                       ≤ String.length r).
    { intros r. destruct (TypeSpec.after "_" r) as [r'|] eqn:Hr; simpl;
        [by eapply after_length|done]. }
    destruct (TypeSpec.after "0x" s) as [r|] eqn:H1.
    - apply after_length in H1. specialize (Hus r). lia.
    - destruct (TypeSpec.after "0X" s) as [r|] eqn:H2; [|done].
      apply after_length in H2. specialize (Hus r). lia. }
  rewrite starts_underscore.
  destruct (TypeSpec.after "_" digits) as [r|] eqn:Hus.
  - apply after_app in Hus. rewrite Hus. done.
  - pose proof (hex_digits_shape digits 0 false false) as Hshape.
    assert (Hno : digits_rest digits = TypeSpec.digit_groups digits).
    { destruct digits as [|u r]; [done|].
      cbn [TypeSpec.after] in Hus. unfold digits_rest.
      destruct (Ascii.eqb_spec "_" u) as [<-|Hne]; [done|].
      by destruct (Ascii.eqb_spec u "_") as [->|]. }
    unfold digits_shape in Hshape. rewrite Hno in Hshape.
    cbn [andb orb] in Hshape.
    destruct (Uuid.hex_digits 0 false false digits) as [n|].
    + destruct Hshape as (Hs & Hb); [done|]. split; [done|]. lia.
    + by apply Hshape.
Qed.

(** On a text of at most 32 characters without a hyphen, [int(_, 16)]
    returns a number of the range of a UUID exactly for the numerals. *)
Lemma int16_numeral hex :
  String.length hex ≤ 32 → Str.mem "-" hex = false →
  match Uuid.int16 hex with
  | Some n => (0 <=? n)%Z && (n <? 2 ^ 128)%Z
  | None => false
  end = TypeSpec.hex_numeral hex.
Proof.
  intros Hlen Hminus. rewrite int16_unfold. unfold TypeSpec.hex_numeral.
  cbv zeta. rewrite (lstrip_with_ext _ _ hex int_space_blank).
  pose proof (lstrip_with_length TypeSpec.blank hex) as Hs.
  pose proof (lstrip_with_mem TypeSpec.blank _ _ Hminus) as Hm.
  set (s := Str.lstrip_with TypeSpec.blank hex) in *.
  assert (Hcase : ∀ r, String.length r ≤ 32 →
    match Uuid.hex_body r with
    | Some n => (0 <=? n)%Z && (n <? 2 ^ 128)%Z
    | None => false
    end
    = TypeSpec.digit_groups
        match TypeSpec.after "0x" r, TypeSpec.after "0X" r with
        | Some r0, _ | _, Some r0 => default r0 (TypeSpec.after "_" r0)
        | _, _ => r
        end).
  { intros r Hr. destruct (hex_body_shape r) as [Hd Hshape].
    cbv zeta in Hd, Hshape.
    match type of Hd with String.length ?d ≤ _ => set (digits := d) in * end.
    assert (Hpow : (16 ^ Z.of_nat (String.length digits) ≤ 2 ^ 128)%Z).
    { change (2 ^ 128)%Z with (16 ^ 32)%Z.
      apply Z.pow_le_mono_r; lia. }
    destruct (Uuid.hex_body r) as [n|]; simpl.
    - destruct Hshape as (Hh & Hb). rewrite Hh.
      apply andb_true_intro. split; [apply Z.leb_le|apply Z.ltb_lt]; lia.
    - by rewrite Hshape. }
  destruct (TypeSpec.after "-" s) as [r|] eqn:Hneg.
  { apply after_app in Hneg. by rewrite Hneg in Hm. }
  destruct (TypeSpec.after "+" s) as [r|] eqn:Hp; simpl.
  - apply after_length in Hp. apply Hcase. lia.
  - apply Hcase. lia.
Qed.

Lemma uuid_parses_text s : Uuid.parses s = TypeSpec.uuid_text s.
Proof.
  unfold Uuid.parses, TypeSpec.uuid_text. cbv zeta.
  match goal with |- context [String.length ?h =? 32] => set (hex := h) end.
  destruct (String.length hex =? 32) eqn:Hlen; [|done].
  apply Nat.eqb_eq in Hlen. simpl.
  apply int16_numeral; [lia|apply remove_char_mem].
Qed.

(** [lower_char] against the reading of the two alphabets: for a
    lower-case letter [t], [c] is lowered to [t] exactly when it is [t] or
    its upper-case form. *)
Lemma lower_char_same_letter c t :
  Str.mem t "abcdefghijklmnopqrstuvwxyz" = true →
  Ascii.eqb (Str.lower_char c) t = TypeSpec.same_letter c t.
Proof.
  intros Ht. apply Bool.eqb_prop.
  set (ok := λ m n : nat,
    negb (Str.mem (ascii_of_nat m) "abcdefghijklmnopqrstuvwxyz")
    || Bool.eqb (Ascii.eqb (Str.lower_char (ascii_of_nat n)) (ascii_of_nat m))
         (TypeSpec.same_letter (ascii_of_nat n) (ascii_of_nat m))).
  assert (Hall : forallb (λ m, forallb (ok m) (seq 0 256)) (seq 0 256) = true)
    by (vm_compute; reflexivity).
  pose proof (below_forallb _ _ Hall (nat_of_ascii t) (nat_ascii_bounded t))
    as Hrow. cbv beta in Hrow.
  pose proof (below_forallb _ _ Hrow (nat_of_ascii c) (nat_ascii_bounded c))
    as Hok.
  unfold ok in Hok. rewrite !ascii_nat_embedding in Hok.
  by rewrite Ht in Hok.
Qed.

Lemma lower_equal_ignoring_case s token :
  Str.all_chars (λ t, Str.mem t "abcdefghijklmnopqrstuvwxyz") token = true →
  bool_decide (Str.lower s = token) = TypeSpec.equal_ignoring_case s token.
Proof.
  revert token. induction s as [|c s IH]; intros [|t token]; simpl; try done.
  intros [Ht Htoken]%andb_prop.
  rewrite <- (lower_char_same_letter c t Ht), <- (IH token Htoken).
  destruct (Ascii.eqb_spec (Str.lower_char c) t) as [->|Hne].
  - simpl. apply bool_decide_ext. naive_solver.
  - simpl. apply bool_decide_eq_false. naive_solver.
Qed.

Lemma lower_boolean_token s :
  bool_decide (Str.lower s ∈ ["true"; "false"; "y"; "n"])
  = TypeSpec.boolean_token s.
Proof.
  unfold TypeSpec.boolean_token. cbn [existsb].
  rewrite <- !lower_equal_ignoring_case by reflexivity.
  rewrite orb_false_r.
  destruct (decide (Str.lower s ∈ ["true"; "false"; "y"; "n"])) as [Hin|Hout].
  - rewrite bool_decide_true by done.
    rewrite !elem_of_cons in Hin.
    destruct Hin as [->|[->|[->|[->|Hin]]]]; [done..|].
    by apply elem_of_nil in Hin.
  - rewrite bool_decide_false by done. symmetry.
    rewrite !orb_false_iff, !bool_decide_eq_false.
    rewrite !not_elem_of_cons in Hout. naive_solver.
Qed.

Lemma find_first_non_sentinel (keys : list string) :
  List.find (λ v, negb (String.eqb v "__TOO_MANY__")) keys =
  TypeSpec.first_non_sentinel keys.
Proof.
  induction keys as [|k keys IH]; [done|]. simpl.
  destruct (String.eqb_spec k "__TOO_MANY__") as [->|Hk]; simpl.
  - apply IH.
  - by rewrite bool_decide_false.
Qed.

(** C5: [infer_type] looks only at the first key that is not the sentinel
    and classifies it by the cascade 8 digits, 14 digits, 12 digits, UUID,
    integer, decimal, boolean token, string, in that order; without such a
    key, or when it is the empty string, the answer is ["unknown"].  The
    UUID step is met by the texts that read as a hexadecimal numeral of 32
    characters once the prefixes, braces and hyphens are taken out, and the
    boolean step by the four tokens in any case.  The order of the keys
    decides: ["abc"] first gives ["string"], ["20230101"] first gives
    ["yyyyMMdd"]. *)
Theorem infer_type_first_sample_cascade :
  (∀ values, infer_type values = TypeSpec.infer values) ∧
  (∀ n m, infer_type [("abc", n); ("20230101", m)] = "string") ∧
  (∀ n m, infer_type [("20230101", n); ("abc", m)] = "yyyyMMdd") ∧
  (∀ n m, infer_type [("__TOO_MANY__", n); ("20230101123000", m)]
          = "yyyyMMddHHmmss") ∧
  infer_type [] = "unknown" ∧
  (∀ n, infer_type [("__TOO_MANY__", n)] = "unknown") ∧
  (∀ n, infer_type [("123e4567-e89b-12d3-a456-426614174000", n)] = "uuid") ∧
  (∀ n, infer_type [("urn:uuid:{123E4567-E89B-12D3-A456-426614174000}", n)]
        = "uuid") ∧
  (∀ n, infer_type
          [("{" +:+ String (ascii_of_nat 29) "1111111111111111111111111111111"
            +:+ "}", n)] = "string") ∧
  (∀ n, infer_type [("TRUE", n)] = "boolean") ∧
  (∀ n, infer_type [("False", n)] = "boolean") ∧
  (∀ n, infer_type [("Y", n)] = "boolean") ∧
  (∀ n, infer_type [("yes", n)] = "string").
Proof.
  split; [|repeat apply conj; intros; vm_compute; reflexivity].
  intros values. unfold infer_type, TypeSpec.infer.
  rewrite find_first_non_sentinel.
  destruct (TypeSpec.first_non_sentinel (al_keys values)) as [sample|]; [|done].
  destruct (String.eqb_spec sample "") as [->|Hne]; [done|].
  rewrite (bool_decide_false (sample = "")) by done.
  unfold TypeSpec.classify.
  by rewrite !ReFacts.digits_exactly_spec, ReFacts.int_re_spec,
    ReFacts.float_re_spec, uuid_parses_text, lower_boolean_token.
Qed.

(** ** Sequence profiler: the two-message scenario and the empty input *)

Lemma for_each_total {A S} (body : S → A → pyresult S) (l : list A) (s : S) :
  (∀ s a, ∃ s', body s a = Ok s') → ∃ s', for_each body l s = Ok s'.
Proof.
  intros Hbody. revert s. induction l as [|a l IH]; intros s; [by eexists|].
  simpl. destruct (Hbody s a) as [s' ->]. apply IH.
Qed.

Lemma profile_sequences_for_type_total (messages : list (option message)) :
  ∃ p, profile_sequences_for_type messages = Ok p.
Proof.
  destruct messages as [|m ms]; [by eexists|].
  unfold profile_sequences_for_type.
  destruct (scan_messages _) as [canonical sp0].
  destruct (annotate_sequences _ _) as [annotated sp1].
  destruct (merge_similar_patterns _ _ _) as [merged sp2].
  edestruct (for_each_total
    (λ '(final_sequences, segments_presence) '(pattern, count),
       let '(final_pattern, segments_presence) :=
         final_marking pattern segments_presence (length (m :: ms)) in
       ratio ← Float.truediv count (length (m :: ms));
       Ok (final_sequences ++
             [{| sequence := final_pattern; count := count;
                 percent := Float.round1 (Float.mul ratio (Float.of_nat 100)) |}],
           segments_presence)) merged ([], sp2)) as [[fs sp3] Hfs].
  - intros [fs sp] [pattern n]. destruct (final_marking _ _ _). by eexists.
  - rewrite Hfs. by eexists.
Qed.

(** C7 (Scenario B): two messages of one category whose segments are
    MSH, PID, OBX and MSH, PID give exactly one pattern,
    MSH PID [OBX], with count 2 and percent 100.0 (the float
    [100 * 2^46 * 2^-46]); OBX is present in one message of two. *)
Theorem scenario_B_one_merged_pattern (m1 m2 : message) :
  name <$> segments m1 = ["MSH"; "PID"; "OBX"] →
  name <$> segments m2 = ["MSH"; "PID"] →
  profile_sequences_for_type [Some m1; Some m2] =
    Ok {| common_sequences :=
            [{| sequence := ["MSH"; "PID"; "[OBX]"]; count := 2;
                percent := S754_finite false (100 * 2 ^ 46) (-46) |}];
          profile_segments :=
            [("MSH", {| present_in := 2; repeats := false |});
             ("PID", {| present_in := 2; repeats := false |});
             ("OBX", {| present_in := 1; repeats := false |})];
          total_messages := 2 |}.
Proof.
  destruct m1 as [t1 s1], m2 as [t2 s2]. simpl.
  destruct s1 as [|[a fa ra] [|[b fb rb] [|[c fc rc] [|? ?]]]]; try done.
  destruct s2 as [|[d fd rd] [|[e fe re] [|? ?]]]; try done.
  simpl. intros [= -> -> ->] [= -> ->]. vm_compute. reflexivity.
Qed.

Lemma scenario_B_one_merged_pattern_witness :
  (common_sequences <$>
     profile_sequences_for_type
       [message_of "ORU^R01" ["MSH"; "PID"; "OBX"];
        message_of "ORU^R01" ["MSH"; "PID"]]) =
  Ok [{| sequence := ["MSH"; "PID"; "[OBX]"]; count := 2;
         percent := S754_finite false (100 * 2 ^ 46) (-46) |}].
Proof.
  unfold message_of.
  rewrite (scenario_B_one_merged_pattern
             {| message_type := "ORU^R01";
                segments := bare_segment <$> ["MSH"; "PID"; "OBX"] |}
             {| message_type := "ORU^R01";
                segments := bare_segment <$> ["MSH"; "PID"] |});
    [reflexivity | vm_compute; reflexivity | vm_compute; reflexivity].
Defined.

(** C8: with no messages the profiler returns the empty structures, and on
    no input at all does it raise: the only division, by the number of
    messages, is reached once per pattern, and there is no pattern without a
    message. *)
Theorem zero_messages_empty_profile :
  profile_sequences_for_type [] =
    Ok {| common_sequences := []; profile_segments := [];
          total_messages := 0 |} ∧
  profile_sequences_by_message_type [] = Ok [] ∧
  (∀ messages, ∃ p, profile_sequences_for_type messages = Ok p) ∧
  (∀ messages, ∃ d, profile_sequences_by_message_type messages = Ok d).
Proof.
  split; [done|]. split; [done|]. split.
  - apply profile_sequences_for_type_total.
  - intros messages. unfold profile_sequences_by_message_type.
    apply for_each_total. intros d [t msgs].
    destruct (profile_sequences_for_type_total msgs) as [p ->]. by eexists.
Qed.

(** ** Presence is counted at most once per message *)

Section DefaultDictFacts.
Context {V : Type}.
Implicit Types (d : list (string * list (string * list (string * V)))).

Lemma dd2_get_put a b a' b' inner d :
  dd2_get a b (dd2_put a' b' inner d) =
  if decide (a = a' ∧ b = b') then inner else dd2_get a b d.
Proof.
  unfold dd2_get, dd2_put.
  destruct (decide (a = a')) as [->|Ha].
  - rewrite al_find_set_eq. simpl.
    destruct (decide (b = b')) as [->|Hb].
    + rewrite al_find_set_eq. by rewrite decide_True.
    + rewrite al_find_set_ne by done. rewrite decide_False; [done|]. by intros [_ ?].
  - rewrite al_find_set_ne by done. rewrite decide_False; [done|]. by intros [? _].
Qed.

Lemma dd3_find_put_eq a b c v d : dd3_find a b c (dd3_put a b c v d) = Some v.
Proof.
  unfold dd3_find, dd3_put. rewrite dd2_get_put, decide_True by done.
  apply al_find_set_eq.
Qed.

Lemma dd3_find_put_ne a b c a' b' c' v d :
  (a, b, c) ≠ (a', b', c') →
  dd3_find a b c (dd3_put a' b' c' v d) = dd3_find a b c d.
Proof.
  intros Hne. unfold dd3_find, dd3_put. rewrite dd2_get_put.
  case_decide as Hab; [|done]. destruct Hab as [-> ->].
  apply al_find_set_ne. congruence.
Qed.
End DefaultDictFacts.

Lemma add_value_presence st v :
  presence_count (add_value st v) = presence_count st.
Proof.
  unfold add_value. destruct (_frozen st); [done|].
  by destruct (_ <? _).
Qed.

Lemma once_refl k x : once k x x.
Proof. split; [done|by left]. Qed.

Lemma once_trans k x y z : once k x y → once k y z → once k x z.
Proof.
  intros [Hs1 H1] [Hs2 H2]. split; [set_solver|].
  destruct H1 as [H1|(H1 & Hk1 & Hk1')], H2 as [H2|(H2 & Hk2 & Hk2')].
  - left. congruence.
  - right. split; [congruence|]. set_solver.
  - right. split; [congruence|]. set_solver.
  - done.
Qed.

Lemma process_field_value_once value field_path st seen segment_name :
  once (segment_name +:+ "." +:+ field_path) (st, seen)
    (process_field_value value field_path st seen segment_name).
Proof.
  unfold process_field_value. destruct (_frozen st); [apply once_refl|].
  case_bool_decide; [apply once_refl|].
  case_bool_decide as Hk; split; simpl; rewrite ?add_value_presence;
    [done|by left|set_solver|].
  right. split; [done|]. set_solver.
Qed.

Lemma process_complex_field_collapsed_once value field_path st seen seg :
  once (seg +:+ "." +:+ field_path) (st, seen)
    (process_complex_field_collapsed value field_path st seen seg).
Proof.
  unfold process_complex_field_collapsed.
  assert (Hsingle : ∀ v st seen,
    once (seg +:+ "." +:+ field_path) (st, seen)
      (if bool_decide (collapse_complex_components v ≠ "")
       then process_field_value (PStr (collapse_complex_components v))
              field_path st seen seg
       else (st, seen))).
  { intros. case_bool_decide; [apply process_field_value_once|apply once_refl]. }
  destruct value as [s|l]; [apply Hsingle|].
  pose proof (Hsingle (PList l) st seen) as Hsingle0.
  destruct (forallb is_list l); [|apply Hsingle0].
  clear Hsingle0. revert st seen.
  induction l as [|r reps IH]; intros st seen; [apply once_refl|].
  simpl. eapply once_trans; [apply (Hsingle r)|].
  destruct (if bool_decide _ then _ else _) as [st' seen']. apply IH.
Qed.

Section Presence.
Context `{Vocabulary}.
Variables (mt sg pa : string) (p0 : nat).

Lemma counted_once_update fs seen mt' sg' pa' st' seen' :
  counted_once mt sg pa p0 (fs, seen) →
  once (sg' +:+ "." +:+ pa') (stats_at mt' sg' pa' fs, seen) (st', seen') →
  counted_once mt sg pa p0 (dd3_put mt' sg' pa' st' fs, seen').
Proof.
  intros [Hle Hk] [Hsub Hpc]. simpl in *. unfold counted_once, presence_at in *.
  simpl. unfold stats_at in *.
  destruct (decide ((mt, sg, pa) = (mt', sg', pa'))) as [[= <- <- <-]|Hne].
  - rewrite dd3_find_put_eq. simpl.
    destruct Hpc as [->|(-> & Hk1 & Hk2)].
    + split; [done|]. intros Hk'. apply Hk. set_solver.
    + split; [|done]. specialize (Hk Hk1). lia.
  - rewrite dd3_find_put_ne by done. split; [done|].
    intros Hk'. apply Hk. set_solver.
Qed.

Lemma record_at_counted_once value mt' sg' pa' st :
  counted_once mt sg pa p0 st →
  counted_once mt sg pa p0 (record_at value mt' sg' pa' st).
Proof.
  destruct st as [fs seen]. intros Hinv. unfold record_at.
  pose proof (process_field_value_once value pa' (stats_at mt' sg' pa' fs)
                seen sg') as Honce.
  destruct (process_field_value _ _ _ _ _) as [st' seen'].
  by eapply counted_once_update.
Qed.

Lemma process_components_counted_once base mt' sg' components st (i : nat) :
  counted_once mt sg pa p0 st →
  counted_once mt sg pa p0
    (foldl (λ '(st, i) component,
              if py_truthy component || py_str_strip_truthy component then
                (record_at component mt' sg' (base +:+ "." +:+ pretty (i + 1))
                   st, i + 1)
              else (st, i + 1))
           (st, i) components).1.
Proof.
  revert st i. induction components as [|c cs IH]; intros st i Hinv; [done|].
  simpl. destruct (py_truthy c || py_str_strip_truthy c); apply IH;
    auto using record_at_counted_once.
Qed.

Lemma process_repetition_counted_once sbc base mt' sg' st repetition :
  counted_once mt sg pa p0 st →
  counted_once mt sg pa p0 (process_repetition sbc base mt' sg' st repetition).
Proof.
  intros Hinv. unfold process_repetition.
  destruct repetition as [s|components].
  - repeat case_match; auto using record_at_counted_once.
  - destruct (cval_truthy sbc); [|by apply record_at_counted_once].
    by apply process_components_counted_once.
Qed.

Lemma process_field_unified_counted_once field_value base fs mt' sg' seen
    is_repeating cache :
  counted_once mt sg pa p0 (fs, seen) →
  counted_once mt sg pa p0
    (process_field_unified field_value base fs mt' sg' seen is_repeating
       cache).1.
Proof.
  intros Hinv. unfold process_field_unified.
  destruct (cached_datatype _ _ _) as [hl7_type cache1].
  case_match.
  - pose proof (process_complex_field_collapsed_once field_value base
                  (stats_at mt' sg' base fs) seen sg') as Honce.
    destruct (process_complex_field_collapsed _ _ _ _ _) as [st' seen'].
    simpl. by eapply counted_once_update.
  - destruct (is_complex_type _ _) as [sbc cache2].
    match goal with
    | |- context [foldl ?f ?a ?l] =>
        assert (Hfold : counted_once mt sg pa p0 (foldl f a l))
    end.
    { generalize (if is_repeating
                  then match field_value with
                       | PStr _ => [field_value]
                       | PList l => l
                       end
                  else [field_value]).
      intros reps. revert Hinv. generalize (fs, seen).
      induction reps as [|r reps IH]; intros st Hst; [done|].
      simpl. apply IH. by apply process_repetition_counted_once. }
    destruct (foldl _ _ _) as [fs' seen']. done.
Qed.

Lemma process_field_counted_once mt' sg' reps fs rt seen cache i value :
  counted_once mt sg pa p0 (fs, seen) →
  let '(fs', _, seen', _, _) :=
    process_field mt' sg' reps (fs, rt, seen, cache, i) value in
  counted_once mt sg pa p0 (fs', seen').
Proof.
  intros Hinv. unfold process_field.
  pose proof (process_field_unified_counted_once value (pretty i) fs mt' sg'
                seen (bool_decide (pretty i ∈ reps)) cache Hinv) as Hu.
  destruct (process_field_unified _ _ _ _ _ _ _ _) as [[fs' seen'] cache'].
  done.
Qed.

Lemma process_fields_counted_once mt' sg' reps values fs rt seen cache i :
  counted_once mt sg pa p0 (fs, seen) →
  let '(fs', _, seen', _, _) :=
    foldl (process_field mt' sg' reps) (fs, rt, seen, cache, i) values in
  counted_once mt sg pa p0 (fs', seen').
Proof.
  revert fs rt seen cache i.
  induction values as [|v values IH]; intros fs rt seen cache i Hinv; [done|].
  cbn [foldl].
  pose proof (process_field_counted_once mt' sg' reps fs rt seen cache i v Hinv)
    as Hstep.
  destruct (process_field _ _ _ _ _) as [[[[fs1 rt1] seen1] cache1] i1].
  by apply IH.
Qed.

End Presence.

(** C4: processing one message raises the presence count of any field
    [(category, segment, path)] by at most one, however many repetitions
    or components of the message record into it: the set of counted keys
    starts empty for the message and guards the increment. *)
Theorem presence_at_most_once_per_message `{Vocabulary} (msg : message)
    (field_stats : list (string * list (string * list (string * FieldStats))))
    (repeat_tracker : list (string * list (string * gset string)))
    (totals_by_type : list (string * nat)) (cache : gmap cval cval)
    (msg_type seg_name field_path : string) :
  presence_count
    (stats_at msg_type seg_name field_path
       (process_message msg
          (field_stats, repeat_tracker, totals_by_type, cache)).1.1.1)
  ≤ presence_count (stats_at msg_type seg_name field_path field_stats) + 1.
Proof.
  unfold process_message.
  set (p0 := presence_count (stats_at msg_type seg_name field_path field_stats)).
  match goal with
  | |- context [foldl ?f (field_stats, repeat_tracker, ∅, cache) ?l] =>
      assert (Hfold : ∀ l' fs rt seen c,
        counted_once msg_type seg_name field_path p0 (fs, seen) →
        let '(fs', _, seen', _) := foldl f (fs, rt, seen, c) l' in
        counted_once msg_type seg_name field_path p0 (fs', seen'))
  end.
  { induction l' as [|s l' IH]; intros fs rt seen c Hinv; [done|].
    cbn [foldl].
    pose proof (process_fields_counted_once msg_type seg_name field_path p0
                  (message_type msg) (name s) (repeating_fields s) (fields s)
                  fs rt seen c 1 Hinv) as Hstep.
    destruct (foldl (process_field _ _ _) _ _)
      as [[[[fs1 rt1] seen1] cache1] i1].
    by apply IH. }
  specialize (Hfold (segments msg) field_stats repeat_tracker ∅ cache).
  destruct (foldl _ _ (segments msg)) as [[[fs' rt'] seen'] cache'].
  simpl. apply Hfold. split; simpl; unfold presence_at; fold p0; lia.
Qed.

(** ** Loops that may raise *)

Lemma for_each_app {A S} (body : S → A → pyresult S) (l1 l2 : list A) (s : S) :
  for_each body (l1 ++ l2) s = (for_each body l1 s ≫= for_each body l2).
Proof.
  revert s. induction l1 as [|a l1 IH]; intros s; [done|].
  simpl. destruct (body s a) as [s1|e]; [apply IH|done].
Qed.

Lemma for_each_inv {A S} (I : S → Prop) (body : S → A → pyresult S)
    (l : list A) (s s' : S) :
  (∀ s a s', a ∈ l → I s → body s a = Ok s' → I s') →
  I s → for_each body l s = Ok s' → I s'.
Proof.
  revert s. induction l as [|a l IH]; intros s Hbody Hs; simpl.
  - by intros [= <-].
  - destruct (body s a) as [s1|e] eqn:Ha; [|done]. apply IH.
    + intros s2 b s3 Hb. apply Hbody. by right.
    + eapply Hbody; [by left|done..].
Qed.

Lemma returned_Ok {A} (r : pyresult A) : returned r = true → ∃ a, r = Ok a.
Proof. destruct r as [a|e]; [by exists a|done]. Qed.

(** A loop over a dictionary in which one entry, the one under key [k],
    takes the state from [P] to [Q] and no other entry disturbs either. *)
Lemma for_each_keyed {V S} (body : S → string * V → pyresult S)
    (l : list (string * V)) (k : string) (v : V) (P Q : S → Prop) (s s' : S) :
  NoDup l.*1 → (k, v) ∈ l →
  (∀ s k' v' s', (k', v') ∈ l → k' ≠ k → body s (k', v') = Ok s' →
                 (P s → P s') ∧ (Q s → Q s')) →
  (∀ s s', P s → body s (k, v) = Ok s' → Q s') →
  P s → for_each body l s = Ok s' → Q s'.
Proof.
  revert s. induction l as [|[k0 v0] l IH]; intros s Hnd Hin Hother Hact Hs.
  { by apply elem_of_nil in Hin. }
  simpl in Hnd. apply NoDup_cons in Hnd as [Hk0 Hnd]. simpl.
  destruct (body s (k0, v0)) as [s1|e] eqn:Hb; [|done].
  apply elem_of_cons in Hin as [[= <- <-]|Hin].
  - apply (for_each_inv Q).
    + intros s2 [k' v'] s3 Hin' HQ Hb'.
      eapply Hother; [by right| |done..].
      intros ->. apply Hk0. by apply (list_elem_of_fmap_2 fst _ (k, v')).
    + by eapply Hact.
  - apply IH; [done..| | |].
    + intros s2 k' v' s3 Hin'. apply Hother. by right.
    + done.
    + eapply Hother; [by left| |done..].
      intros ->. apply Hk0. by apply (list_elem_of_fmap_2 fst _ (k, v)).
Qed.

(** ** More on ordered dictionaries *)

Section AssocListKeys.
Context {K V : Type} `{EqDecision K}.
Implicit Types (k : K) (v : V) (d : list (K * V)).

Lemma al_find_None k d : al_find k d = None ↔ k ∉ d.*1.
Proof.
  induction d as [|[k' v'] d IH]; simpl.
  - split; [intros _; apply not_elem_of_nil|done].
  - rewrite not_elem_of_cons. destruct (decide (k = k')) as [->|Hne].
    + split; [done|]. by intros [? _].
    + rewrite IH. tauto.
Qed.

Lemma al_find_Some_elem k v d : al_find k d = Some v → (k, v) ∈ d.
Proof.
  induction d as [|[k' v'] d IH]; simpl; [done|].
  destruct (decide (k = k')) as [->|Hne].
  - intros [= ->]. by left.
  - intros. right. by apply IH.
Qed.

Lemma al_elem_find k v d : NoDup d.*1 → (k, v) ∈ d → al_find k d = Some v.
Proof.
  induction d as [|[k' v'] d IH]; simpl; intros Hnd Hin.
  { by apply elem_of_nil in Hin. }
  apply NoDup_cons in Hnd as [Hk' Hnd].
  apply elem_of_cons in Hin as [[= <- <-]|Hin].
  - by rewrite decide_True.
  - rewrite decide_False; [by apply IH|].
    intros ->. apply Hk'. by apply (list_elem_of_fmap_2 fst _ (k', v)).
Qed.

Lemma al_find_remove_ne k k' d :
  k ≠ k' → al_find k (al_remove k' d) = al_find k d.
Proof.
  intros Hne. induction d as [|[k0 v0] d IH]; simpl; [done|].
  destruct (decide (k' = k0)) as [->|Hne'].
  - by rewrite decide_False.
  - simpl. by rewrite IH.
Qed.

Lemma al_remove_keys k k' d : k ∈ (al_remove k' d).*1 → k ∈ d.*1.
Proof.
  induction d as [|[k0 v0] d IH]; simpl; [done|].
  destruct (decide (k' = k0)) as [->|Hne'].
  - intros. by right.
  - simpl. rewrite !elem_of_cons. intros [->|?]; [by left|right; by apply IH].
Qed.

Lemma al_remove_NoDup k d : NoDup d.*1 → NoDup (al_remove k d).*1.
Proof.
  induction d as [|[k0 v0] d IH]; simpl; [done|].
  intros [Hk0 Hnd]%NoDup_cons.
  destruct (decide (k = k0)) as [->|Hne]; [done|].
  simpl. apply NoDup_cons. split; [|by apply IH].
  intros Hin. apply Hk0. by eapply al_remove_keys.
Qed.

Lemma al_find_remove_eq k d : NoDup d.*1 → al_find k (al_remove k d) = None.
Proof.
  induction d as [|[k0 v0] d IH]; simpl; [done|].
  intros [Hk0 Hnd]%NoDup_cons.
  destruct (decide (k = k0)) as [->|Hne].
  - by apply al_find_None.
  - simpl. rewrite decide_False by done. by apply IH.
Qed.

Lemma al_set_keys k k' v d : k ∈ (al_set k' v d).*1 ↔ k = k' ∨ k ∈ d.*1.
Proof.
  induction d as [|[k0 v0] d IH]; simpl.
  - rewrite list_elem_of_singleton. split; [by left|].
    intros [?|Hin]; [done|]. by apply elem_of_nil in Hin.
  - destruct (decide (k' = k0)) as [->|Hne]; simpl; rewrite !elem_of_cons.
    + tauto.
    + rewrite IH. tauto.
Qed.

Lemma al_set_NoDup k v d : NoDup d.*1 → NoDup (al_set k v d).*1.
Proof.
  induction d as [|[k0 v0] d IH]; simpl.
  - intros _. apply NoDup_singleton.
  - intros [Hk0 Hnd]%NoDup_cons.
    destruct (decide (k = k0)) as [->|Hne]; simpl.
    + by apply NoDup_cons.
    + apply NoDup_cons. split; [|by apply IH].
      rewrite al_set_keys. intros [?|?]; [congruence|done].
Qed.
End AssocListKeys.

(** ** Paths and their base field *)

#[local] Arguments Ascii.eqb : simpl never.

Lemma has_dot_before (s : string) : has_dot (Str.before "." s) = false.
Proof.
  unfold has_dot. induction s as [|c s IH]; simpl; [done|].
  destruct (Ascii.eqb_spec c ".") as [->|Hne]; simpl; [done|].
  destruct (Ascii.eqb_spec "." c) as [<-|_]; done.
Qed.

Lemma before_plain (s : string) : has_dot s = false → Str.before "." s = s.
Proof.
  unfold has_dot. induction s as [|c s IH]; simpl; [done|].
  rewrite (Ascii.eqb_sym c ".").
  destruct (Ascii.eqb "." c); [done|]. intros Hs. by rewrite IH.
Qed.

Lemma before_component (base rest : string) :
  has_dot base = false → Str.before "." (base +:+ "." +:+ rest) = base.
Proof.
  unfold has_dot. induction base as [|c s IH]; simpl; [done|].
  rewrite (Ascii.eqb_sym c ".").
  destruct (Ascii.eqb "." c); [done|]. intros Hs. f_equal. by apply IH.
Qed.

Lemma has_dot_key (seg base : string) : has_dot (seg +:+ "." +:+ base) = true.
Proof.
  unfold has_dot. induction seg as [|c s IH].
  - reflexivity.
  - change (Str.mem "." (String c (s +:+ "." +:+ base)) = true).
    cbn [Str.mem]. rewrite IH. by destruct (Ascii.eqb "." c).
Qed.

Lemma endswith_app (s suffix : string) : Str.endswith (s +:+ suffix) suffix = true.
Proof.
  induction s as [|c s IH].
  - change (Str.endswith suffix suffix = true).
    destruct suffix; cbn [Str.endswith]; by rewrite String.eqb_refl.
  - change (Str.endswith (String c (s +:+ suffix)) suffix = true).
    cbn [Str.endswith]. destruct (String.eqb _ _); [done|]. apply IH.
Qed.

(** ** Consolidation *)

Lemma group_components_acc {V} (fields : list (string * V))
    (acc : list (string * gset string)) (b : string) :
  match al_find b
          (foldl (λ field_components '(field_path, _),
                    let base_field := Str.before "." field_path in
                    al_set base_field
                      (default ∅ (al_find base_field field_components)
                       ∪ {[ field_path ]})
                      field_components)
                 acc fields) with
  | Some paths =>
      ∀ p, p ∈ paths ↔
           p ∈ default ∅ (al_find b acc)
           ∨ (p ∈ fields.*1 ∧ Str.before "." p = b)
  | None => al_find b acc = None ∧ ∀ p, p ∈ fields.*1 → Str.before "." p ≠ b
  end.
Proof.
  revert acc. induction fields as [|[p0 v0] fields IH]; intros acc.
  - simpl. destruct (al_find b acc) as [paths|]; simpl.
    + intros p. rewrite elem_of_nil. tauto.
    + split; [done|]. intros p Hp. by apply elem_of_nil in Hp.
  - cbn [foldl].
    set (acc' := al_set _ _ acc). specialize (IH acc').
    destruct (al_find b (foldl _ acc' fields)) as [paths|].
    + intros p. rewrite IH. subst acc'. simpl. rewrite elem_of_cons.
      destruct (decide (b = Str.before "." p0)) as [->|Hne].
      * rewrite al_find_set_eq. simpl. rewrite elem_of_union, elem_of_singleton.
        intuition congruence.
      * rewrite al_find_set_ne by done. intuition congruence.
    + destruct IH as [Hacc Hall]. subst acc'.
      destruct (decide (b = Str.before "." p0)) as [->|Hne].
      { by rewrite al_find_set_eq in Hacc. }
      rewrite al_find_set_ne in Hacc by done. split; [done|].
      intros p. simpl. rewrite elem_of_cons. intros [->|Hp]; [congruence|].
      by apply Hall.
Qed.

Lemma group_components_find {V} (fields : list (string * V)) b paths :
  al_find b (group_components fields) = Some paths →
  ∀ p, p ∈ paths ↔ p ∈ fields.*1 ∧ Str.before "." p = b.
Proof.
  intros Hfind p. pose proof (group_components_acc fields [] b) as H.
  unfold group_components in Hfind. cbv zeta in H, Hfind.
  rewrite Hfind in H. rewrite H.
  simpl. rewrite elem_of_empty. tauto.
Qed.

Lemma group_components_missing {V} (fields : list (string * V)) b :
  al_find b (group_components fields) = None →
  ∀ p, p ∈ fields.*1 → Str.before "." p ≠ b.
Proof.
  intros Hfind. pose proof (group_components_acc fields [] b) as H.
  unfold group_components in Hfind. cbv zeta in H, Hfind.
  rewrite Hfind in H. apply H.
Qed.

Lemma group_components_keys {V} (fields : list (string * V)) :
  NoDup (group_components fields).*1 ∧
  ∀ b, b ∈ (group_components fields).*1 → has_dot b = false.
Proof.
  unfold group_components.
  assert (Hgen : ∀ acc : list (string * gset string),
    NoDup acc.*1 → (∀ b, b ∈ acc.*1 → has_dot b = false) →
    let r := foldl (λ field_components '(field_path, _),
                      let base_field := Str.before "." field_path in
                      al_set base_field
                        (default ∅ (al_find base_field field_components)
                         ∪ {[ field_path ]})
                        field_components) acc fields in
    NoDup r.*1 ∧ ∀ b, b ∈ r.*1 → has_dot b = false).
  { induction fields as [|[p0 v0] fields IH]; intros acc Hnd Hplain; [done|].
    cbn [foldl]. apply IH.
    - by apply al_set_NoDup.
    - intros b [->|Hb]%al_set_keys; [apply has_dot_before|by apply Hplain]. }
  apply Hgen; [constructor|]. intros b Hb. by apply elem_of_nil in Hb.
Qed.

Section Cache.
Context `{Vocabulary}.

Lemma coherent_empty : coherent ∅.
Proof. intros k v Hk. by rewrite lookup_empty in Hk. Qed.

Lemma cached_datatype_coherent seg_name base (cache : gmap cval cval) :
  coherent cache → has_dot base = false →
  (cached_datatype seg_name base cache).1 = CStr (field_datatype seg_name base)
  ∧ coherent (cached_datatype seg_name base cache).2.
Proof.
  intros Hc Hbase. unfold cached_datatype, field_datatype.
  rewrite (before_plain base) by done.
  destruct (cache !! _) as [v|] eqn:Hk; simpl.
  - apply Hc in Hk. rewrite has_dot_key in Hk. by subst v.
  - split; [done|]. intros k v.
    destruct (decide (k = CStr (seg_name +:+ "." +:+ base))) as [->|Hne].
    + rewrite lookup_insert_eq. intros [= <-]. by rewrite has_dot_key.
    + rewrite lookup_insert_ne by done. apply Hc.
Qed.

Lemma consolidate_group_cases msg_type seg_name fields presence cache b paths
    st' :
  coherent cache → has_dot b = false →
  consolidate_group msg_type seg_name (fields, presence, cache) (b, paths)
    = Ok st' →
  ∃ cache', coherent cache' ∧
    (st' = (fields, presence, cache') ∨
     ∃ cp data n,
       elements paths = [cp] ∧ al_find cp fields = Some data ∧
       al_find cp (dd2_get msg_type seg_name presence) = Some n ∧
       st' = (al_set b data (al_remove cp fields),
              dd2_put msg_type seg_name
                (al_set b n (al_remove cp (dd2_get msg_type seg_name presence)))
                presence,
              cache')).
Proof.
  intros Hc Hb. unfold consolidate_group.
  destruct (cached_datatype_coherent seg_name b cache Hc Hb) as [_ Hc'].
  destruct (cached_datatype seg_name b cache) as [hl7_type cache'].
  simpl in Hc'.
  assert (Hsame : Ok (fields, presence, cache') = Ok st' →
    ∃ c, coherent c ∧
      (st' = (fields, presence, c) ∨
       ∃ cp data n,
         elements paths = [cp] ∧ al_find cp fields = Some data ∧
         al_find cp (dd2_get msg_type seg_name presence) = Some n ∧
         st' = (al_set b data (al_remove cp fields),
                dd2_put msg_type seg_name
                  (al_set b n
                     (al_remove cp (dd2_get msg_type seg_name presence)))
                  presence, c))).
  { intros [= <-]. exists cache'. split; [done|by left]. }
  case_bool_decide; [done|].
  destruct (elements paths) as [|cp [|? ?]]; try done.
  destruct (Str.endswith cp ".1"); [|done].
  destruct (al_find cp fields) as [[|d data]|] eqn:Hf; try done.
  destruct (al_find cp (dd2_get msg_type seg_name presence)) as [n|] eqn:Hp;
    [|done].
  intros [= <-]. exists cache'. split; [done|].
  right. by exists cp, (d :: data), n.
Qed.

(** What a step of the loop over [field_components] leaves alone. *)
Lemma consolidate_group_frame msg_type seg_name fields presence cache b paths
    fields' presence' cache' :
  coherent cache → has_dot b = false →
  consolidate_group msg_type seg_name (fields, presence, cache) (b, paths)
    = Ok (fields', presence', cache') →
  coherent cache' ∧
  (NoDup fields.*1 → NoDup fields'.*1) ∧
  (NoDup (dd2_get msg_type seg_name presence).*1 →
   NoDup (dd2_get msg_type seg_name presence').*1) ∧
  (∀ a c, (a, c) ≠ (msg_type, seg_name) →
          dd2_get a c presence' = dd2_get a c presence).
Proof.
  intros Hc Hb Hstep.
  destruct (consolidate_group_cases _ _ _ _ _ _ _ _ Hc Hb Hstep)
    as (c1 & Hc1 & [[= -> -> ->]|(cp & data & n & _ & _ & _ & [= -> -> ->])]).
  { done. }
  split; [done|]. split; [|split].
  - intros. by apply al_set_NoDup, al_remove_NoDup.
  - intros. rewrite dd2_get_put, decide_True by done.
    by apply al_set_NoDup, al_remove_NoDup.
  - intros a c Hne. rewrite dd2_get_put, decide_False; [done|].
    intros [-> ->]. done.
Qed.

(** A group other than that of [base] does not touch the paths under
    [base]. *)
Lemma consolidate_group_other msg_type seg_name base fields presence cache
    b paths fields' presence' cache' :
  coherent cache → has_dot b = false → b ≠ base →
  (∀ p, p ∈ paths → Str.before "." p = b) →
  consolidate_group msg_type seg_name (fields, presence, cache) (b, paths)
    = Ok (fields', presence', cache') →
  ∀ r, Str.before "." r = base →
    al_find r fields' = al_find r fields ∧
    al_find r (dd2_get msg_type seg_name presence') =
      al_find r (dd2_get msg_type seg_name presence).
Proof.
  intros Hc Hb Hne Hpaths Hstep r Hr.
  destruct (consolidate_group_cases _ _ _ _ _ _ _ _ Hc Hb Hstep)
    as (c1 & Hc1 & [[= -> -> ->]|(cp & data & n & Hel & _ & _ & [= -> -> ->])]).
  { done. }
  assert (Hcp : Str.before "." cp = b).
  { apply Hpaths. apply elem_of_elements. rewrite Hel. by left. }
  assert (r ≠ b).
  { intros ->. by rewrite before_plain in Hr. }
  assert (r ≠ cp) by congruence.
  rewrite dd2_get_put, decide_True by done.
  by rewrite !al_find_set_ne, !al_find_remove_ne.
Qed.

(** The frame of a whole segment. *)
Lemma consolidate_segment_frame msg_type seg_name fields presence cache
    fields' presence' cache' :
  coherent cache →
  consolidate_segment msg_type seg_name fields presence cache
    = Ok (fields', presence', cache') →
  coherent cache' ∧
  (∀ a c, (a, c) ≠ (msg_type, seg_name) →
          dd2_get a c presence' = dd2_get a c presence).
Proof.
  intros Hc Hrun. unfold consolidate_segment in Hrun.
  pose proof (group_components_keys fields) as [_ Hplain].
  revert Hrun.
  apply (for_each_inv
           (λ st, coherent st.2 ∧
                  ∀ a c, (a, c) ≠ (msg_type, seg_name) →
                         dd2_get a c st.1.2 = dd2_get a c presence)
           _ _ (fields, presence, cache) (fields', presence', cache'));
    [|done].
  intros [[f pr] c] [b paths] [[f1 pr1] c1] Hin [Hco Hfr] Hstep. simpl in *.
  apply consolidate_group_frame in Hstep as (? & _ & _ & Hfr1); [|done|].
  - split; [done|]. intros a0 c0 Hne. rewrite Hfr1 by done. by apply Hfr.
  - apply Hplain. by apply (list_elem_of_fmap_2 fst _ (b, paths)).
Qed.

End Cache.

Section Consolidation.
Context `{Vocabulary}.
Variables (msg_type seg_name base : string).
Hypothesis base_plain : has_dot base = false.

Lemma consolidate_group_rename fields presence cache data st' :
  coherent cache → NoDup fields.*1 →
  NoDup (dd2_get msg_type seg_name presence).*1 →
  al_find (base +:+ ".1") fields = Some data → data ≠ [] →
  field_datatype seg_name base ∉ never_consolidated →
  consolidate_group msg_type seg_name (fields, presence, cache)
    (base, {[ base +:+ ".1" ]}) = Ok st' →
  al_find base st'.1.1 = Some data ∧
  al_find (base +:+ ".1") st'.1.1 = None ∧
  al_find base (dd2_get msg_type seg_name st'.1.2) =
    al_find (base +:+ ".1") (dd2_get msg_type seg_name presence) ∧
  al_find (base +:+ ".1") (dd2_get msg_type seg_name st'.1.2) = None.
Proof.
  intros Hc Hndf Hndp Hfind Hdata Htype. unfold consolidate_group.
  destruct (cached_datatype_coherent seg_name base cache Hc base_plain)
    as [Hty _].
  destruct (cached_datatype seg_name base cache) as [hl7_type cache'].
  simpl in Hty. subst hl7_type.
  rewrite bool_decide_false.
  2:{ intros (y & [= <-] & Hy)%list_elem_of_fmap. by apply Htype. }
  rewrite elements_singleton, endswith_app, Hfind.
  destruct data as [|d data]; [done|].
  destruct (al_find (base +:+ ".1") (dd2_get msg_type seg_name presence))
    as [n|] eqn:Hp; [|done].
  intros [= <-]. simpl.
  assert (Hne : base +:+ ".1" ≠ base).
  { intros Heq. pose proof (has_dot_key base "1") as Hd.
    change (has_dot (base +:+ ".1") = true) in Hd.
    rewrite Heq in Hd. congruence. }
  rewrite dd2_get_put, decide_True by done.
  rewrite !al_find_set_eq, !al_find_set_ne by done.
  by rewrite !al_find_remove_eq.
Qed.

Lemma consolidate_segment_base fields presence cache fields' presence' cache' :
  coherent cache → NoDup fields.*1 →
  NoDup (dd2_get msg_type seg_name presence).*1 →
  consolidate_segment msg_type seg_name fields presence cache
    = Ok (fields', presence', cache') →
  renamed seg_name base fields fields' (dd2_get msg_type seg_name presence)
    (dd2_get msg_type seg_name presence') ∧
  kept base fields fields' (dd2_get msg_type seg_name presence)
    (dd2_get msg_type seg_name presence').
Proof.
  intros Hc Hndf Hndp Hrun. unfold consolidate_segment in Hrun.
  pose proof (group_components_keys fields) as [Hndg Hplain].
  set (inner := dd2_get msg_type seg_name presence) in *.
  set (P := λ st : list (string * list (string * nat))
                   * list (string * list (string * list (string * nat)))
                   * gmap cval cval,
              coherent st.2 ∧ NoDup st.1.1.*1 ∧
              NoDup (dd2_get msg_type seg_name st.1.2).*1 ∧
              ∀ r, Str.before "." r = base →
                al_find r st.1.1 = al_find r fields ∧
                al_find r (dd2_get msg_type seg_name st.1.2) = al_find r inner).
  assert (HP0 : P (fields, presence, cache)) by done.
  destruct (al_find base (group_components fields)) as [paths|] eqn:Hgrp.
  - set (Q := λ st : list (string * list (string * nat))
                     * list (string * list (string * list (string * nat)))
                     * gmap cval cval,
                coherent st.2 ∧
                renamed seg_name base fields st.1.1 inner
                  (dd2_get msg_type seg_name st.1.2) ∧
                kept base fields st.1.1 inner
                  (dd2_get msg_type seg_name st.1.2)).
    pose proof (group_components_find fields base paths Hgrp) as Hpaths.
    enough (HQ : Q (fields', presence', cache')) by (destruct HQ as (_&?&?); done).
    revert Hrun.
    apply (for_each_keyed _ _ base paths P Q); [done| |idtac|idtac|done].
    + by apply al_find_Some_elem.
    + intros [[f pr] c] b' paths' [[f1 pr1] c1] Hin Hne Hstep.
      assert (Hb' : has_dot b' = false).
      { apply Hplain. by apply (list_elem_of_fmap_2 fst _ (b', paths')). }
      assert (Hp' : ∀ p, p ∈ paths' → Str.before "." p = b').
      { intros p Hp. eapply (group_components_find fields b' paths'); [|done].
        by apply al_elem_find. }
      unfold P, Q. simpl. split.
      * intros (Hco & Hn1 & Hn2 & Hag).
        pose proof (consolidate_group_frame _ _ _ _ _ _ _ _ _ _ Hco Hb' Hstep)
          as (? & ? & ? & _).
        pose proof (consolidate_group_other _ _ base _ _ _ _ _ _ _ _
                      Hco Hb' Hne Hp' Hstep) as Hoth.
        split; [done|]. split; [auto|]. split; [auto|].
        intros r Hr. rewrite (proj1 (Hoth r Hr)), (proj2 (Hoth r Hr)).
        by apply Hag.
      * intros (Hco & Hren & Hkept).
        pose proof (consolidate_group_frame _ _ _ _ _ _ _ _ _ _ Hco Hb' Hstep)
          as (? & _).
        pose proof (consolidate_group_other _ _ base _ _ _ _ _ _ _ _
                      Hco Hb' Hne Hp' Hstep) as Hoth.
        assert (Hcp : Str.before "." (base +:+ ".1") = base)
          by by apply before_component.
        assert (Hbb : Str.before "." base = base) by by apply before_plain.
        split; [done|]. split.
        -- intros data H1 H2 H3 H4.
           destruct (Hren data H1 H2 H3 H4) as (?&?&?&?).
           rewrite !(proj1 (Hoth _ Hcp)), !(proj1 (Hoth _ Hbb)),
             !(proj2 (Hoth _ Hcp)), !(proj2 (Hoth _ Hbb)). done.
        -- intros p q H1 H2 H3 H4 H5 r Hr.
           rewrite (proj1 (Hoth _ Hr)), (proj2 (Hoth _ Hr)).
           by apply (Hkept p q).
    + unfold P, Q. intros [[f pr] c] st' (Hco & Hn1 & Hn2 & Hag) Hstep.
      simpl in *.
      assert (Hcp : Str.before "." (base +:+ ".1") = base)
        by by apply before_component.
      split; [|split].
      * destruct st' as [[f1 pr1] c1].
        by apply (consolidate_group_frame _ _ _ _ _ _ _ _ _ _ Hco base_plain
                    Hstep).
      * intros data Honly Hfind Hdata Htype.
        assert (paths = {[ base +:+ ".1" ]}) as ->.
        { apply set_eq. intros p. rewrite Hpaths, elem_of_singleton. split.
          - intros [? ?]. by apply Honly.
          - intros ->. split; [|done].
            apply al_find_Some_elem in Hfind.
            by apply (list_elem_of_fmap_2 fst _ (_, data)). }
        rewrite <- (proj2 (Hag _ Hcp)).
        apply (consolidate_group_rename f pr c data st'); try done.
        by rewrite (proj1 (Hag _ Hcp)).
      * intros p q Hpq Hp Hq Hbp Hbq r Hr.
        destruct st' as [[f1 pr1] c1].
        destruct (consolidate_group_cases _ _ _ _ _ _ _ _ Hco base_plain Hstep)
          as (c2 & _ & [[= -> -> ->]|(cp & _ & _ & Hel & _)]).
        { simpl. by apply Hag. }
        exfalso. apply Hpq.
        assert (Hin : ∀ x, x ∈ paths → x = cp).
        { intros x Hx. apply elem_of_elements in Hx. rewrite Hel in Hx.
          by apply list_elem_of_singleton in Hx. }
        rewrite (Hin p), (Hin q); [done|by apply Hpaths..].
  - pose proof (group_components_missing fields base Hgrp) as Hnone.
    split.
    + intros data _ Hfind _ _. exfalso.
      apply al_find_Some_elem in Hfind.
      apply (Hnone (base +:+ ".1")).
      * by apply (list_elem_of_fmap_2 fst _ (_, data)).
      * by apply before_component.
    + intros p q _ Hp _ Hbp. exfalso. by apply (Hnone p).
Qed.

End Consolidation.

Section ConsolidationTree.
Context `{Vocabulary}.
Variables (msg_type seg_name : string).

Lemma dd2_get_keys_unique {V}
    (t : list (string * list (string * list (string * V)))) a b :
  tree_keys_unique t → NoDup (dd2_get a b t).*1.
Proof.
  intros [_ Hinner]. unfold dd2_get.
  destruct (al_find a t) as [by_b|] eqn:Ha; simpl; [|constructor].
  destruct (al_find b by_b) as [by_c|] eqn:Hb; simpl; [|constructor].
  apply al_find_Some_elem in Ha, Hb.
  destruct (Hinner a by_b Ha) as [_ Hc]. by apply (Hc b by_c).
Qed.

(** Consolidating another segment leaves this one alone. *)
Lemma consolidate_entry_other mt' sg' fields spec presence cache
    spec' presence' cache' :
  coherent cache → (mt', sg') ≠ (msg_type, seg_name) →
  consolidate_entry mt' (spec, presence, cache) (sg', fields)
    = Ok (spec', presence', cache') →
  coherent cache' ∧
  dd2_get msg_type seg_name spec' = dd2_get msg_type seg_name spec ∧
  dd2_get msg_type seg_name presence' = dd2_get msg_type seg_name presence.
Proof.
  intros Hc Hne. unfold consolidate_entry.
  destruct (consolidate_segment mt' sg' fields presence cache)
    as [[[f1 pr1] c1]|e] eqn:Hseg; [|done].
  simpl. intros [= <- <- <-].
  apply consolidate_segment_frame in Hseg as [? Hfr]; [|done].
  split; [done|]. split.
  - rewrite dd2_get_put, decide_False; [done|]. intros [-> ->]. done.
  - apply Hfr. congruence.
Qed.

Lemma consolidate_entries_other mt' segments st st' :
  coherent st.2 → mt' ≠ msg_type →
  for_each (consolidate_entry mt') segments st = Ok st' →
  coherent st'.2 ∧
  dd2_get msg_type seg_name st'.1.1 = dd2_get msg_type seg_name st.1.1 ∧
  dd2_get msg_type seg_name st'.1.2 = dd2_get msg_type seg_name st.1.2.
Proof.
  intros Hc Hne.
  apply (for_each_inv
           (λ s, coherent s.2 ∧
                 dd2_get msg_type seg_name s.1.1
                   = dd2_get msg_type seg_name st.1.1 ∧
                 dd2_get msg_type seg_name s.1.2
                   = dd2_get msg_type seg_name st.1.2)); [|done].
  intros [[sp pr] c] [sg' f] [[sp1 pr1] c1] _ (Hco & Hs & Hp) Hstep.
  simpl in *.
  apply consolidate_entry_other in Hstep as (? & -> & ->); [done..|congruence].
Qed.

End ConsolidationTree.

(** C6, on the tree handed to the post-pass: for a field [base] of a
    segment of a category, (1) when the only path under [base] in the tree
    is [base.1], it holds recorded data and the datatype of the field is
    none of XCN, PPN, CX, XAD, XTN, XPN, that entry is moved to [base] in
    the value tree and in the presence table and [base.1] is gone from
    both; (2) when the tree holds two paths under [base] (such as [base.1]
    and [base.2]), every path under [base] keeps its entry in both. *)
Theorem consolidation_on_the_field_tree `{Vocabulary}
    (spec spec' : list (string * list (string * list (string * list (string * nat)))))
    (presence presence' : list (string * list (string * list (string * nat))))
    (cache cache' : gmap cval cval) (msg_type seg_name base : string) :
  tree_keys_unique spec → tree_keys_unique presence →
  coherent cache → has_dot base = false →
  consolidate_single_component_fields spec presence cache
    = Ok (spec', presence', cache') →
  renamed seg_name base
    (dd2_get msg_type seg_name spec) (dd2_get msg_type seg_name spec')
    (dd2_get msg_type seg_name presence) (dd2_get msg_type seg_name presence') ∧
  kept base
    (dd2_get msg_type seg_name spec) (dd2_get msg_type seg_name spec')
    (dd2_get msg_type seg_name presence) (dd2_get msg_type seg_name presence').
Proof.
  intros Hwf Hwfp Hc Hbase Hrun.
  set (fields0 := dd2_get msg_type seg_name spec).
  set (inner0 := dd2_get msg_type seg_name presence).
  destruct (al_find msg_type spec) as [segs|] eqn:Hmt; cycle 1.
  { assert (Hnil : fields0 = []).
    { subst fields0. unfold dd2_get. by rewrite Hmt. }
    rewrite Hnil. split.
    - intros data _ Hf. done.
    - intros p q _ Hp. by apply elem_of_nil in Hp. }
  destruct (al_find seg_name segs) as [fields|] eqn:Hsg; cycle 1.
  { assert (Hnil : fields0 = []).
    { subst fields0. unfold dd2_get. by rewrite Hmt; simpl; rewrite Hsg. }
    rewrite Hnil. split.
    - intros data _ Hf. done.
    - intros p q _ Hp. by apply elem_of_nil in Hp. }
  assert (Hf0 : fields0 = fields).
  { subst fields0. unfold dd2_get. by rewrite Hmt; simpl; rewrite Hsg. }
  pose proof (al_find_Some_elem _ _ _ Hmt) as Hmt_in.
  pose proof (al_find_Some_elem _ _ _ Hsg) as Hsg_in.
  destruct Hwf as [Hnd1 Hinner]. destruct (Hinner _ _ Hmt_in) as [Hnd2 Hnd3].
  specialize (Hnd3 _ _ Hsg_in).
  set (P := λ st : list (string * list (string * list (string * list (string * nat))))
                   * list (string * list (string * list (string * nat)))
                   * gmap cval cval,
              coherent st.2 ∧
              dd2_get msg_type seg_name st.1.1 = fields0 ∧
              dd2_get msg_type seg_name st.1.2 = inner0).
  set (Q := λ st : list (string * list (string * list (string * list (string * nat))))
                   * list (string * list (string * list (string * nat)))
                   * gmap cval cval,
              coherent st.2 ∧
              renamed seg_name base fields0 (dd2_get msg_type seg_name st.1.1)
                inner0 (dd2_get msg_type seg_name st.1.2) ∧
              kept base fields0 (dd2_get msg_type seg_name st.1.1)
                inner0 (dd2_get msg_type seg_name st.1.2)).
  enough (HQ : Q (spec', presence', cache')) by (destruct HQ as (_&?&?); done).
  revert Hrun. unfold consolidate_single_component_fields.
  apply (for_each_keyed _ _ msg_type segs P Q); [done|done| | |done].
  - intros st mt' segs' st' _ Hne Hstep. unfold P, Q. split.
    + intros (Hco & Hs & Hp).
      apply (consolidate_entries_other msg_type seg_name) in Hstep
        as (? & -> & ->); done.
    + intros (Hco & Hren & Hkept).
      apply (consolidate_entries_other msg_type seg_name) in Hstep
        as (? & -> & ->); done.
  - intros st st' HP. apply (for_each_keyed _ _ seg_name fields P Q);
      [done|done| | |done].
    + intros [[sp pr] c] sg' f' [[sp1 pr1] c1] _ Hne Hstep. unfold P, Q.
      simpl. split.
      * intros (Hco & Hs & Hp).
        apply (consolidate_entry_other msg_type seg_name) in Hstep
          as (? & -> & ->); [done..|congruence].
      * intros (Hco & Hren & Hkept).
        apply (consolidate_entry_other msg_type seg_name) in Hstep
          as (? & -> & ->); [done..|congruence].
    + intros [[sp pr] c] [[sp1 pr1] c1]. unfold P, Q. simpl.
      intros (Hco & Hs & Hp). unfold consolidate_entry.
      destruct (consolidate_segment msg_type seg_name fields pr c)
        as [[[f1 pr2] c2]|e] eqn:Hseg; [|done].
      simpl. intros [= <- <- <-].
      rewrite dd2_get_put, decide_True by done.
      pose proof (consolidate_segment_frame _ _ _ _ _ _ _ _ Hco Hseg) as [? _].
      split; [done|].
      rewrite Hf0, <- Hp.
      apply (consolidate_segment_base msg_type seg_name base Hbase
               fields pr c f1 pr2 c2); [done..| |done].
      rewrite Hp. by apply dd2_get_keys_unique.
Qed.

Lemma example_trees_keys_unique :
  tree_keys_unique example_spec ∧ tree_keys_unique example_presence.
Proof.
  split; (split; [apply NoDup_singleton|]);
    intros a by_b [= -> ->]%list_elem_of_singleton;
    (split; [apply NoDup_singleton|]);
    intros b by_c [= -> ->]%list_elem_of_singleton;
    apply (bool_decide_unpack _); vm_compute; reflexivity.
Qed.

Lemma consolidation_on_the_field_tree_witness :
  ∃ spec' presence' cache',
    @consolidate_single_component_fields example_vocabulary
      example_spec example_presence ∅ = Ok (spec', presence', cache') ∧
    dd3_find "ORU" "OBX" "1" spec' = Some [("GLU", 3)] ∧
    dd3_find "ORU" "OBX" "1.1" spec' = None ∧
    dd3_find "ORU" "OBX" "1" presence' = Some 3 ∧
    dd3_find "ORU" "OBX" "2.1" spec' = Some [("a", 2)] ∧
    dd3_find "ORU" "OBX" "2.2" spec' = Some [("b", 1)].
Proof.
  assert (Hret : returned (@consolidate_single_component_fields
                             example_vocabulary example_spec example_presence ∅)
                 = true) by (vm_compute; reflexivity).
  destruct (returned_Ok _ Hret) as [[[spec' presence'] cache'] Hrun].
  clear Hret. exists spec', presence', cache'. split; [exact Hrun|].
  destruct (@consolidation_on_the_field_tree example_vocabulary
              example_spec spec' example_presence presence' ∅ cache'
              "ORU" "OBX" "1"
              (proj1 example_trees_keys_unique)
              (proj2 example_trees_keys_unique)
              coherent_empty eq_refl Hrun) as [Hren _].
  destruct (@consolidation_on_the_field_tree example_vocabulary
              example_spec spec' example_presence presence' ∅ cache'
              "ORU" "OBX" "2"
              (proj1 example_trees_keys_unique)
              (proj2 example_trees_keys_unique)
              coherent_empty eq_refl Hrun) as [_ Hkept].
  destruct (Hren [("GLU", 3)]) as (H1 & H2 & H3 & _).
  - clear Hrun. intros p Hp Hb. vm_compute in Hp.
    repeat (apply elem_of_cons in Hp as [->|Hp]);
      [reflexivity | vm_compute in Hb; discriminate
      | vm_compute in Hb; discriminate | by apply elem_of_nil in Hp].
  - reflexivity.
  - discriminate.
  - clear Hrun. vm_compute. intros Hin.
    repeat (apply elem_of_cons in Hin as [Hin|Hin]); try discriminate.
    by apply elem_of_nil in Hin.
  - clear Hrun. pose proof (Hkept "2.1" "2.2") as Hk.
    destruct (Hk ltac:(discriminate)
                 ltac:(vm_compute; set_solver) ltac:(vm_compute; set_solver)
                 eq_refl eq_refl "2.1" eq_refl) as [H4 _].
    destruct (Hk ltac:(discriminate)
                 ltac:(vm_compute; set_solver) ltac:(vm_compute; set_solver)
                 eq_refl eq_refl "2.2" eq_refl) as [H5 _].
    unfold dd3_find.
    repeat apply conj; [exact H1|exact H2|exact H3|exact H4|exact H5].
Defined.

(** C6 as stated fails on the corpus [overflow_corpus]: OBX-1 is observed at
    [1.2] in each of the 101 messages, yet a field with more than 100
    distinct values is dropped from the tree before the post-pass, so
    [1.1] is the only path left and it is renamed to [1]. *)
Lemma consolidation_despite_second_component :
  presence_count
    (stats_at "ORU" "OBX" "1.2"
       (@aggregate_loop example_vocabulary overflow_corpus ∅).1.1.1) = 101 ∧
  (agg_spec <$> (fst <$> @aggregate_data example_vocabulary overflow_corpus ∅))
    = Ok [("ORU", [("OBX", [("1", [("GLU", 101)])])])] ∧
  (agg_presence <$>
     (fst <$> @aggregate_data example_vocabulary overflow_corpus ∅))
    = Ok [("ORU", [("OBX", [("1", 101)])])].
Proof. vm_compute. done. Qed.

(** ** The lookup cache across runs *)

Lemma memo_stable_lookup {X} (key : cval) (compute : cval) (k : cval → X) :
  memo_stable (λ c, match c !! key with
                    | Some v => (k v, c)
                    | None => (k compute, <[key := compute]> c)
                    end).
Proof.
  intros c. destruct (c !! key) as [v|] eqn:Hc; simpl.
  - split; [done|]. intros cf Hsub.
    by rewrite (lookup_weaken _ _ _ _ Hc Hsub).
  - split; [by apply insert_subseteq|]. intros cf Hsub.
    assert (cf !! key = Some compute) as ->; [|done].
    eapply lookup_weaken; [|done]. apply lookup_insert_eq.
Qed.

Section Stable.
Context `{Vocabulary}.

Lemma is_complex_type_stable hl7_type : memo_stable (is_complex_type hl7_type).
Proof.
  pose proof (memo_stable_lookup hl7_type
    match hl7_type with
    | CStr t => CBool (datatype_is_dict t)
    | CBool _ => CBool false
    end id) as Hs.
  exact Hs.
Qed.

Lemma cached_datatype_stable seg_name base :
  memo_stable (cached_datatype seg_name base).
Proof.
  pose proof (memo_stable_lookup (CStr (seg_name +:+ "." +:+ base))
    (CStr (field_datatype seg_name base)) id) as Hs.
  exact Hs.
Qed.

Lemma process_field_unified_stable field_value base fs msg_type seg_name seen
    is_repeating :
  memo_stable (process_field_unified field_value base fs msg_type seg_name
                 seen is_repeating).
Proof.
  intros c. unfold process_field_unified.
  destruct (cached_datatype_stable seg_name base c) as [Hm1 Hs1].
  destruct (cached_datatype seg_name base c) as [hl7_type c1] eqn:E1.
  simpl in Hm1, Hs1.
  destruct (bool_decide _ && negb is_repeating) eqn:Hx.
  - destruct (process_complex_field_collapsed _ _ _ _ _) as [st' seen'].
    simpl. split; [done|]. intros cf Hsub.
    rewrite (Hs1 cf Hsub), Hx. done.
  - destruct (is_complex_type_stable hl7_type c1) as [Hm2 Hs2].
    destruct (is_complex_type hl7_type c1) as [sbc c2] eqn:E2.
    simpl in Hm2, Hs2.
    destruct (foldl _ _ _) as [fs' seen'] eqn:Hfold. simpl.
    split; [by etrans|]. intros cf Hsub.
    rewrite (Hs1 cf) by by etrans. rewrite Hx, (Hs2 cf Hsub), Hfold. done.
Qed.

End Stable.

(** A loop whose steps are stable is stable; [get] and [put] read and
    replace the cache component of the loop state. *)
Lemma foldl_stable {A S} (get : S → gmap cval cval)
    (put : gmap cval cval → S → S) (step : S → A → S) (l : list A) :
  (∀ a s, get s ⊆ get (step s a) ∧
          ∀ cf, get (step s a) ⊆ cf → step (put cf s) a = put cf (step s a)) →
  ∀ s, get s ⊆ get (foldl step s l) ∧
       ∀ cf, get (foldl step s l) ⊆ cf →
             foldl step (put cf s) l = put cf (foldl step s l).
Proof.
  intros Hstep. induction l as [|a l IH]; intros s; [done|].
  cbn [foldl]. destruct (Hstep a s) as [Hm Hs].
  destruct (IH (step s a)) as [Hm' Hs']. split; [by etrans|].
  intros cf Hsub. rewrite Hs by by etrans. by apply Hs'.
Qed.

Lemma for_each_stable {A S} (get : S → gmap cval cval)
    (put : gmap cval cval → S → S) (body : S → A → pyresult S) (l : list A) :
  (∀ a s s', body s a = Ok s' →
     get s ⊆ get s' ∧
     ∀ cf, get s' ⊆ cf → body (put cf s) a = Ok (put cf s')) →
  ∀ s s', for_each body l s = Ok s' →
    get s ⊆ get s' ∧
    ∀ cf, get s' ⊆ cf → for_each body l (put cf s) = Ok (put cf s').
Proof.
  intros Hbody. induction l as [|a l IH]; intros s s'; simpl.
  { intros [= <-]. done. }
  destruct (body s a) as [s1|e] eqn:Ha; [|done]. intros Hrest.
  destruct (Hbody a s s1 Ha) as [Hm Hs].
  destruct (IH s1 s' Hrest) as [Hm' Hs']. split; [by etrans|].
  intros cf Hsub. rewrite Hs by by etrans. by apply Hs'.
Qed.

Section StableRuns.
Context `{Vocabulary}.

Lemma process_field_stable msg_type seg_name reps value
    (s : list (string * list (string * list (string * FieldStats)))
         * list (string * list (string * gset string))
         * gset string * gmap cval cval * nat) :
  s.1.2 ⊆ (process_field msg_type seg_name reps s value).1.2 ∧
  ∀ cf, (process_field msg_type seg_name reps s value).1.2 ⊆ cf →
    process_field msg_type seg_name reps (s.1.1, cf, s.2) value
    = ((process_field msg_type seg_name reps s value).1.1, cf,
       (process_field msg_type seg_name reps s value).2).
Proof.
  destruct s as [[[[fs rt] seen] c] i]. unfold process_field. simpl.
  destruct (process_field_unified_stable value (pretty i) fs msg_type seg_name
              seen (bool_decide (pretty i ∈ reps)) c) as [Hm Hs].
  destruct (process_field_unified _ _ _ _ _ _ _ c) as [[fs' seen'] c'].
  simpl in *. split; [done|]. intros cf Hsub. by rewrite (Hs cf Hsub).
Qed.

Lemma process_message_stable msg
    (s : list (string * list (string * list (string * FieldStats)))
         * list (string * list (string * gset string))
         * list (string * nat) * gmap cval cval) :
  s.2 ⊆ (process_message msg s).2 ∧
  ∀ cf, (process_message msg s).2 ⊆ cf →
    process_message msg (s.1, cf) = ((process_message msg s).1, cf).
Proof.
  destruct s as [[[fs rt] totals] c]. unfold process_message. simpl.
  match goal with
  | |- context [foldl ?f (fs, rt, ∅, c) (segments msg)] =>
      pose proof (foldl_stable (λ s, s.2) (λ cf s, (s.1, cf)) f (segments msg))
        as Hfold
  end.
  destruct (Hfold) with (s := (fs, rt, (∅ : gset string), c)) as [Hm Hs].
  { intros seg [[[fs1 rt1] seen1] c1]. simpl.
    pose proof (foldl_stable (λ s, s.1.2) (λ cf s, (s.1.1, cf, s.2))
                  (process_field (message_type msg) (name seg)
                     (repeating_fields seg)) (fields seg)) as Hinner.
    destruct Hinner with (s := (fs1, rt1, seen1, c1, 1)) as [Hm Hs].
    { intros v s. apply process_field_stable. }
    simpl in Hm, Hs.
    destruct (foldl (process_field _ _ _) (fs1, rt1, seen1, c1, 1) _)
      as [[[[fs2 rt2] seen2] c2] i2]. simpl in *.
    split; [done|]. intros cf Hsub. by rewrite (Hs cf Hsub). }
  simpl in Hm, Hs.
  destruct (foldl _ (fs, rt, ∅, c) (segments msg)) as [[[fs' rt'] seen'] c'].
  simpl in *. split; [done|]. intros cf Hsub. by rewrite (Hs cf Hsub).
Qed.

Lemma aggregate_loop_stable messages c :
  c ⊆ (aggregate_loop messages c).2 ∧
  ∀ cf, (aggregate_loop messages c).2 ⊆ cf →
    aggregate_loop messages cf = ((aggregate_loop messages c).1, cf).
Proof.
  unfold aggregate_loop.
  match goal with
  | |- context [foldl ?f _ messages] =>
      pose proof (foldl_stable (λ s, s.2) (λ cf s, (s.1, cf)) f messages)
        as Hfold
  end.
  destruct Hfold with
    (s := (([] : list (string * list (string * list (string * FieldStats)))),
           ([] : list (string * list (string * gset string))),
           ([] : list (string * nat)), c)) as [Hm Hs]; [|done].
  intros [msg|] s; [|by destruct s].
  destruct s as [x c1]. apply (process_message_stable msg (x, c1)).
Qed.

Lemma consolidate_group_stable msg_type seg_name group
    (s s' : list (string * list (string * nat))
            * list (string * list (string * list (string * nat)))
            * gmap cval cval) :
  consolidate_group msg_type seg_name s group = Ok s' →
  s.2 ⊆ s'.2 ∧
  ∀ cf, s'.2 ⊆ cf →
    consolidate_group msg_type seg_name (s.1, cf) group = Ok (s'.1, cf).
Proof.
  destruct s as [[f pr] c], s' as [[f' pr'] c'], group as [b paths].
  unfold consolidate_group. simpl.
  destruct (cached_datatype_stable seg_name b c) as [Hm Hs].
  destruct (cached_datatype seg_name b c) as [hl7_type c1]. simpl in Hm, Hs.
  intros Hstep.
  assert (Hc : c' = c1).
  { repeat case_match; simplify_eq; done. }
  subst c'. split; [done|]. intros cf Hsub.
  rewrite (Hs cf Hsub).
  repeat case_match; simplify_eq; done.
Qed.

Lemma consolidate_entry_stable msg_type entry
    (s s' : list (string * list (string * list (string * list (string * nat))))
            * list (string * list (string * list (string * nat)))
            * gmap cval cval) :
  consolidate_entry msg_type s entry = Ok s' →
  s.2 ⊆ s'.2 ∧
  ∀ cf, s'.2 ⊆ cf → consolidate_entry msg_type (s.1, cf) entry = Ok (s'.1, cf).
Proof.
  destruct s as [[sp pr] c], entry as [seg_name fields].
  unfold consolidate_entry, consolidate_segment. simpl.
  destruct (for_each _ _ (fields, pr, c)) as [[[f1 pr1] c1]|e] eqn:Hseg;
    [|done].
  simpl. intros [= <-]. simpl.
  destruct (for_each_stable (λ s, s.2) (λ cf s, (s.1, cf))
              (consolidate_group msg_type seg_name) (group_components fields)
              (consolidate_group_stable msg_type seg_name)
              (fields, pr, c) (f1, pr1, c1) Hseg) as [Hm Hs].
  split; [done|]. intros cf Hsub. simpl in Hs. by rewrite (Hs cf Hsub).
Qed.

Lemma consolidate_stable spec presence c spec' presence' c' :
  consolidate_single_component_fields spec presence c
    = Ok (spec', presence', c') →
  c ⊆ c' ∧
  ∀ cf, c' ⊆ cf →
    consolidate_single_component_fields spec presence cf
    = Ok (spec', presence', cf).
Proof.
  unfold consolidate_single_component_fields. intros Hrun.
  eapply (for_each_stable (λ s, s.2) (λ cf s, (s.1, cf))) in Hrun; [exact Hrun|].
  intros [msg_type segs] s s' Hinner.
  eapply (for_each_stable (λ s, s.2) (λ cf s, (s.1, cf))) in Hinner;
    [exact Hinner|].
  intros entry s1 s2. apply consolidate_entry_stable.
Qed.

End StableRuns.

(** C9: a run of [aggregate_data] on a list of messages is determined by
    the list: the only state that outlives a run is the lookup cache, and a
    second run on the same list, started with the cache the first run left,
    returns the same output (value counters, presence table, repeat
    tracker, totals and sequence profiles alike) and leaves the cache as
    it found it, so every further run does too. *)
Theorem aggregate_data_repeatable `{Vocabulary}
    (messages : list (option message)) (cache cache' : gmap cval cval)
    (out : aggregated) :
  aggregate_data messages cache = Ok (out, cache') →
  aggregate_data messages cache' = Ok (out, cache').
Proof.
  unfold aggregate_data.
  destruct (aggregate_loop_stable messages cache) as [Hm Hs].
  destruct (aggregate_loop messages cache) as [[[fs rt] totals] c1].
  simpl in Hm, Hs.
  destruct (to_output fs) as [spec presence] eqn:Hout.
  destruct (consolidate_single_component_fields spec presence c1)
    as [[[spec' presence'] c2]|e] eqn:Hcons; [|done].
  simpl.
  destruct (profile_sequences_by_message_type messages) as [profiles|e];
    [|done].
  simpl. intros [= <- <-].
  destruct (consolidate_stable _ _ _ _ _ _ Hcons) as [Hm2 Hs2].
  rewrite (Hs c2 Hm2). cbv beta iota. rewrite Hout.
  rewrite (Hs2 c2) by done. done.
Qed.

Lemma aggregate_data_repeatable_witness :
  ∃ out cache',
    @aggregate_data example_vocabulary small_corpus ∅ = Ok (out, cache') ∧
    @aggregate_data example_vocabulary small_corpus cache' = Ok (out, cache') ∧
    agg_presence out =
      [("ORU", [("PID", [("1.1", 2); ("1.3", 1); ("2", 1)]);
                ("OBX", [("1.1", 1); ("1.2", 1); ("2", 1)])])].
Proof.
  assert (Hret : returned (@aggregate_data example_vocabulary small_corpus ∅)
                 = true) by (vm_compute; reflexivity).
  assert (Hp : agg_presence <$>
                 (fst <$> @aggregate_data example_vocabulary small_corpus ∅)
               = Ok [("ORU", [("PID", [("1.1", 2); ("1.3", 1); ("2", 1)]);
                              ("OBX", [("1.1", 1); ("1.2", 1); ("2", 1)])])])
    by (vm_compute; reflexivity).
  destruct (returned_Ok _ Hret) as [[out cache'] Hrun]. clear Hret.
  exists out, cache'. split; [exact Hrun|]. split.
  - exact (@aggregate_data_repeatable example_vocabulary small_corpus ∅ cache'
             out Hrun).
  - rewrite Hrun in Hp. by injection Hp.
Defined.

(** ** Sequence profiler: the merge functions over the read-only view *)

Lemma al_find_app {K V} `{EqDecision K} (k : K) (d1 d2 : list (K * V)) :
  al_find k (d1 ++ d2) =
  match al_find k d1 with Some v => Some v | None => al_find k d2 end.
Proof.
  induction d1 as [|[k' v'] d1 IH]; simpl; [done|].
  destruct (decide (k = k')); [done|apply IH].
Qed.

Lemma same_view_refl sp : same_view sp sp.
Proof. done. Qed.

Lemma same_view_trans sp1 sp2 sp3 :
  same_view sp1 sp2 → same_view sp2 sp3 → same_view sp1 sp3.
Proof. intros H1 H2 k. by rewrite H2, H1. Qed.

Lemma sp_get_view k sp :
  (sp_get k sp).1 = sp_view sp k ∧ same_view sp (sp_get k sp).2.
Proof.
  unfold sp_get, sp_view, same_view.
  destruct (al_find k sp) as [e|] eqn:Hk; simpl; [done|].
  split; [done|]. intros k'. unfold sp_view. rewrite al_find_app.
  destruct (al_find k' sp) as [e'|] eqn:Hk'; [done|].
  simpl. destruct (decide (k' = k)) as [->|]; done.
Qed.

Lemma mark_optional_ext v v' total seg :
  (∀ k, v' k = v k) → mark_optional v' total seg = mark_optional v total seg.
Proof. intros Hv. unfold mark_optional. by rewrite Hv. Qed.

Lemma merge_with_optional_view_ext v v' longer shorter total :
  (∀ k, v' k = v k) →
  merge_with_optional_view v' longer shorter total =
  merge_with_optional_view v longer shorter total.
Proof.
  intros Hv. unfold merge_with_optional_view. apply list_fmap_ext.
  intros i seg _. by rewrite (mark_optional_ext v v').
Qed.

Lemma find_common_structure_view_ext v v' p1 p2 total :
  (∀ k, v' k = v k) →
  find_common_structure_view v' p1 p2 total =
  find_common_structure_view v p1 p2 total.
Proof.
  intros Hv. unfold find_common_structure_view. apply list_fmap_ext.
  intros i seg _. by rewrite (mark_optional_ext v v').
Qed.

Lemma try_merge_view_ext v v' p1 p2 total :
  (∀ k, v' k = v k) →
  try_merge_view v' p1 p2 total = try_merge_view v p1 p2 total.
Proof.
  intros Hv. unfold try_merge_view.
  by rewrite !(merge_with_optional_view_ext v v'),
    (find_common_structure_view_ext v v').
Qed.

(** One marking step of the stateful loops. *)
Lemma marking_step total seg (sp : list (string * seg_presence)) merged :
  (let '(e, segments_presence) := sp_get (clean_segment_name seg) sp in
   if present_in e <? total then
     if Str.endswith seg "+" then
       (merged ++ ["[" +:+ clean_segment_name seg +:+ "+]"], segments_presence)
     else
       (merged ++ ["[" +:+ clean_segment_name seg +:+ "]"], segments_presence)
   else (merged ++ [seg], segments_presence))
  = (merged ++ [mark_optional (sp_view sp) total seg],
     (sp_get (clean_segment_name seg) sp).2).
Proof.
  unfold mark_optional.
  destruct (sp_get_view (clean_segment_name seg) sp) as [He _].
  destruct (sp_get (clean_segment_name seg) sp) as [e sp']. simpl in *.
  subst e. by repeat case_match.
Qed.

Lemma merge_with_optional_segments_view longer shorter sp total :
  (merge_with_optional_segments longer shorter sp total).1 =
    merge_with_optional_view (sp_view sp) longer shorter total ∧
  same_view sp (merge_with_optional_segments longer shorter sp total).2.
Proof.
  unfold merge_with_optional_segments, merge_with_optional_view.
  set (f := λ v seg,
         if bool_decide (clean_segment_name seg
                         ∈ clean_segment_name <$> shorter)
         then seg else mark_optional v total seg).
  match goal with |- context [foldl ?g _ longer] => set (step := g) end.
  enough (Hgen : ∀ l acc sp1, same_view sp sp1 →
    (foldl step (acc, sp1) l).1 = acc ++ (f (sp_view sp) <$> l) ∧
    same_view sp (foldl step (acc, sp1) l).2).
  { apply (Hgen longer [] sp). done. }
  induction l as [|seg l IH]; intros acc sp1 Hv.
  { simpl. by rewrite app_nil_r. }
  cbn [foldl]. unfold step at 2 4. cbv beta iota zeta.
  case_bool_decide as Hin.
  - destruct (IH (acc ++ [seg]) sp1 Hv) as [-> Hv'].
    split; [|done]. rewrite <- app_assoc. simpl. unfold f at 2.
    by rewrite bool_decide_true.
  - rewrite marking_step.
    destruct (sp_get_view (clean_segment_name seg) sp1) as [_ Hv1].
    destruct (IH (acc ++ [mark_optional (sp_view sp1) total seg])
                (sp_get (clean_segment_name seg) sp1).2) as [-> Hv'].
    { by eapply same_view_trans. }
    split; [|done]. rewrite <- app_assoc. simpl. unfold f at 2.
    rewrite bool_decide_false by done.
    by rewrite (mark_optional_ext (sp_view sp) (sp_view sp1)).
Qed.

Lemma list_insert_at_end {A} (x : A) (l : list A) :
  list_insert_at (length l) x l = l ++ [x].
Proof. unfold list_insert_at. by rewrite take_ge, drop_ge by lia. Qed.

Lemma keep_first_pass1 (l acc : list string) (seen : gset string) :
  foldl (λ '(all_segments, seen) seg,
           let clean_seg := clean_segment_name seg in
           if bool_decide (clean_seg ∈ (seen : gset string))
           then (all_segments, seen)
           else (all_segments ++ [seg], seen ∪ {[ clean_seg ]}))
        (acc, seen) l
  = (acc ++ keep_first seen l,
     seen ∪ list_to_set (clean_segment_name <$> l)).
Proof.
  revert acc seen. induction l as [|seg l IH]; intros acc seen.
  { simpl. rewrite app_nil_r. f_equal. set_solver. }
  cbn [foldl keep_first]. cbv zeta. case_bool_decide as Hin.
  - rewrite IH. f_equal. set_solver.
  - rewrite IH, <- app_assoc. simpl. f_equal. set_solver.
Qed.

Lemma keep_first_pass2 (pattern2 l acc : list string) (seen : gset string)
    (i : nat) :
  foldl (λ '(all_segments, seen, p2_index) seg,
           let clean_seg := clean_segment_name seg in
           if bool_decide (clean_seg ∈ (seen : gset string))
           then (all_segments, seen, p2_index + 1)
           else
             let insert_pos :=
               find_insertion_point all_segments seg pattern2 p2_index in
             (list_insert_at insert_pos seg all_segments,
              seen ∪ {[ clean_seg ]}, p2_index + 1))
        (acc, seen, i) l
  = (acc ++ keep_first seen l,
     seen ∪ list_to_set (clean_segment_name <$> l), i + length l).
Proof.
  revert acc seen i. induction l as [|seg l IH]; intros acc seen i.
  { simpl. rewrite app_nil_r. f_equal; [|lia]. f_equal. set_solver. }
  cbn [foldl keep_first]. cbv zeta. case_bool_decide as Hin.
  - rewrite IH. simpl. f_equal; [|lia]. f_equal. set_solver.
  - unfold find_insertion_point. rewrite list_insert_at_end.
    rewrite IH, <- app_assoc. simpl. f_equal; [|lia]. f_equal. set_solver.
Qed.

Lemma find_common_structure_refines p1 p2 sp total :
  (find_common_structure p1 p2 sp total).1 =
    find_common_structure_view (sp_view sp) p1 p2 total ∧
  same_view sp (find_common_structure p1 p2 sp total).2.
Proof.
  unfold find_common_structure, find_common_structure_view.
  rewrite keep_first_pass1. rewrite keep_first_pass2.
  rewrite (left_id_L ∅ (∪)). simpl app.
  set (f := λ v seg,
         if bool_decide (clean_segment_name seg ∈ clean_segment_name <$> p1)
            && bool_decide (clean_segment_name seg
                            ∈ clean_segment_name <$> p2)
         then seg else mark_optional v total seg).
  generalize (keep_first ∅ p1
              ++ keep_first (list_to_set (clean_segment_name <$> p1)) p2).
  intros all.
  match goal with |- context [foldl ?g _ all] => set (step := g) end.
  enough (Hgen : ∀ l acc sp1, same_view sp sp1 →
    (foldl step (acc, sp1) l).1 = acc ++ (f (sp_view sp) <$> l) ∧
    same_view sp (foldl step (acc, sp1) l).2).
  { apply (Hgen all [] sp). done. }
  induction l as [|seg l IH]; intros acc sp1 Hv.
  { simpl. by rewrite app_nil_r. }
  cbn [foldl]. unfold step at 2 4. cbv beta iota zeta.
  destruct (bool_decide _ && bool_decide _) eqn:Hin.
  - destruct (IH (acc ++ [seg]) sp1 Hv) as [-> Hv'].
    split; [|done]. rewrite <- app_assoc. simpl. unfold f at 2.
    by rewrite Hin.
  - rewrite marking_step.
    destruct (sp_get_view (clean_segment_name seg) sp1) as [_ Hv1].
    destruct (IH (acc ++ [mark_optional (sp_view sp1) total seg])
                (sp_get (clean_segment_name seg) sp1).2) as [-> Hv'].
    { by eapply same_view_trans. }
    split; [|done]. rewrite <- app_assoc. simpl. unfold f at 2.
    rewrite Hin.
    by rewrite (mark_optional_ext (sp_view sp) (sp_view sp1)).
Qed.

Lemma try_merge_patterns_refines p1 p2 sp total :
  (try_merge_patterns p1 p2 sp total).1 =
    try_merge_view (sp_view sp) p1 p2 total ∧
  same_view sp (try_merge_patterns p1 p2 sp total).2.
Proof.
  unfold try_merge_patterns, try_merge_view.
  case_bool_decide; [done|].
  destruct (is_subsequence p1 p2).
  { destruct (merge_with_optional_segments_view p2 p1 sp total) as [H1 H2].
    destruct (merge_with_optional_segments p2 p1 sp total). simpl in *.
    by subst. }
  destruct (is_subsequence p2 p1).
  { destruct (merge_with_optional_segments_view p1 p2 sp total) as [H1 H2].
    destruct (merge_with_optional_segments p1 p2 sp total). simpl in *.
    by subst. }
  destruct (find_common_structure_refines p1 p2 sp total) as [H1 H2].
  destruct (find_common_structure p1 p2 sp total) as [m sp']. simpl in *.
  subst m. by destruct (_ && _).
Qed.

(** ** Sequence profiler: names and pattern elements *)

Lemma remove_char_app c (a b : string) :
  Str.remove_char c (a +:+ b) = Str.remove_char c a +:+ Str.remove_char c b.
Proof.
  induction a as [|d a IH]; [done|].
  change (String d a +:+ b) with (String d (a +:+ b)).
  cbn [Str.remove_char]. rewrite IH. by destruct (Ascii.eqb d c).
Qed.

Lemma clean_segment_name_app (a b : string) :
  clean_segment_name (a +:+ b) = clean_segment_name a +:+ clean_segment_name b.
Proof. unfold clean_segment_name. by rewrite !remove_char_app. Qed.

Lemma remove_char_absent c (s : string) :
  Str.mem c s = false → Str.remove_char c s = s.
Proof.
  induction s as [|d s IH]; [done|]. cbn [Str.mem Str.remove_char].
  rewrite (Ascii.eqb_sym d c). destruct (Ascii.eqb c d); [done|].
  intros H. by rewrite IH.
Qed.

Lemma marker_free_mem (n : string) c :
  marker_free n = true → Str.mem c "+[]" = true → Str.mem c n = false.
Proof.
  unfold marker_free. intros Hn Hc.
  induction n as [|d n IH]; [done|]. cbn [Str.all_chars Str.mem] in *.
  apply andb_true_iff in Hn as [Hd Hn].
  destruct (Ascii.eqb_spec c d) as [->|_]; [|by apply IH].
  by rewrite Hc in Hd.
Qed.

Lemma clean_segment_name_marker_free (n : string) :
  marker_free n = true → clean_segment_name n = n.
Proof.
  intros Hn. unfold clean_segment_name.
  rewrite (remove_char_absent "[" n) by by apply marker_free_mem.
  rewrite (remove_char_absent "]" n) by by apply marker_free_mem.
  by rewrite (remove_char_absent "+" n) by by apply marker_free_mem.
Qed.

Lemma clean_segment_name_is_marker_free (s : string) :
  marker_free (clean_segment_name s) = true.
Proof.
  unfold marker_free, clean_segment_name.
  induction s as [|d s IH]; [done|]. cbn [Str.remove_char].
  destruct (Ascii.eqb_spec d "[") as [->|H1]; [exact IH|].
  cbn [Str.remove_char].
  destruct (Ascii.eqb_spec d "]") as [->|H2]; [exact IH|].
  cbn [Str.remove_char].
  destruct (Ascii.eqb_spec d "+") as [->|H3]; [exact IH|].
  cbn [Str.all_chars]. rewrite IH, andb_true_r. cbn [Str.mem].
  destruct (Ascii.eqb_spec d "+"); [done|].
  destruct (Ascii.eqb_spec d "["); [done|].
  by destruct (Ascii.eqb_spec d "]").
Qed.

Lemma clean_segment_name_idemp (s : string) :
  clean_segment_name (clean_segment_name s) = clean_segment_name s.
Proof.
  apply clean_segment_name_marker_free, clean_segment_name_is_marker_free.
Qed.

Lemma clean_segment_name_repeat (n : string) :
  marker_free n = true → clean_segment_name (n +:+ "+") = n.
Proof.
  intros Hn. rewrite clean_segment_name_app, clean_segment_name_marker_free by done.
  change (clean_segment_name "+") with "". clear Hn.
  induction n as [|d n IH]; [done|].
  change (String d n +:+ "") with (String d (n +:+ "")). by rewrite IH.
Qed.

Lemma clean_segment_name_mark_optional v total seg :
  clean_segment_name (mark_optional v total seg) = clean_segment_name seg.
Proof.
  unfold mark_optional. destruct (_ <? _); [|done].
  destruct (Str.endswith seg "+");
    rewrite !clean_segment_name_app, clean_segment_name_idemp.
  - change (clean_segment_name "[") with "".
    change (clean_segment_name "+]") with "".
    change ("" +:+ ?x) with x.
    generalize (clean_segment_name seg). intros n.
    induction n as [|d n IH]; [done|].
    change (String d n +:+ "") with (String d (n +:+ "")). by rewrite IH.
  - change (clean_segment_name "[") with "".
    change (clean_segment_name "]") with "".
    change ("" +:+ ?x) with x.
    generalize (clean_segment_name seg). intros n.
    induction n as [|d n IH]; [done|].
    change (String d n +:+ "") with (String d (n +:+ "")). by rewrite IH.
Qed.

Lemma mark_optional_unbracketed v total seg :
  unbracketed (mark_optional v total seg) = true →
  mark_optional v total seg = seg ∧
  ¬ present_in (v (clean_segment_name seg)) < total.
Proof.
  unfold mark_optional. destruct (Nat.ltb_spec (present_in (v (clean_segment_name seg))) total) as [Hlt|Hge].
  - by destruct (Str.endswith seg "+").
  - split; [done|lia].
Qed.

Lemma unbracketed_marker_free (n : string) :
  marker_free n = true → unbracketed n = true.
Proof. intros Hn. unfold unbracketed. by rewrite (marker_free_mem n). Qed.

Lemma unbracketed_repeat (n : string) :
  marker_free n = true → unbracketed (n +:+ "+") = true.
Proof.
  intros Hn. unfold unbracketed.
  pose proof (marker_free_mem n "[" Hn eq_refl) as Hm.
  induction n as [|d n IH]; [done|].
  change (String d n +:+ "+") with (String d (n +:+ "+")).
  cbn [Str.mem] in *. destruct (Ascii.eqb "[" d); [done|].
  apply IH; [|done]. unfold marker_free in *. cbn [Str.all_chars] in Hn.
  by apply andb_true_iff in Hn as [_ Hn].
Qed.

(** ** Sequence profiler: first occurrences of names *)

Lemma keep_first_elem seen l seg :
  seg ∈ keep_first seen l → seg ∈ l ∧ clean_segment_name seg ∉ seen.
Proof.
  revert seen. induction l as [|x l IH]; intros seen; simpl.
  { by intros ?%elem_of_nil. }
  case_bool_decide as Hx.
  - intros [? ?]%IH. split; [by right|done].
  - intros [->|[? ?]%IH]%elem_of_cons.
    + split; [by left|done].
    + split; [by right|set_solver].
Qed.

Lemma keep_first_NoDup seen l :
  NoDup (clean_segment_name <$> keep_first seen l).
Proof.
  revert seen. induction l as [|x l IH]; intros seen; simpl; [constructor|].
  case_bool_decide; [apply IH|]. rewrite fmap_cons. constructor; [|apply IH].
  intros [y [Hy Hin]]%list_elem_of_fmap.
  apply keep_first_elem in Hin as [_ Hin]. set_solver.
Qed.

Lemma keep_first_covers seen l n :
  n ∈ clean_segment_name <$> l →
  n ∈ seen ∨ n ∈ clean_segment_name <$> keep_first seen l.
Proof.
  revert seen. induction l as [|x l IH]; intros seen; simpl.
  { by intros ?%elem_of_nil. }
  rewrite elem_of_cons. intros [->|Hn].
  - case_bool_decide; [by left|right]. rewrite fmap_cons. by left.
  - case_bool_decide; [by apply IH|].
    destruct (IH (seen ∪ {[clean_segment_name x]}) Hn) as [Hs|Hk].
    + apply elem_of_union in Hs as [?|Hs%elem_of_singleton]; [by left|right].
      rewrite Hs, fmap_cons. by left.
    + right. rewrite fmap_cons. by right.
Qed.

Lemma keep_first_length seen l : length (keep_first seen l) ≤ length l.
Proof.
  revert seen. induction l as [|x l IH]; intros seen; simpl; [done|].
  case_bool_decide; simpl; [by apply Nat.le_le_succ_r|].
  apply le_n_S, IH.
Qed.

Lemma keep_first_full seen l :
  length l ≤ length (keep_first seen l) → keep_first seen l = l.
Proof.
  revert seen. induction l as [|x l IH]; intros seen; simpl; [done|].
  case_bool_decide; simpl.
  - pose proof (keep_first_length seen l). lia.
  - intros Hlen. f_equal. apply IH. lia.
Qed.

Lemma keep_first_all_seen seen l :
  (∀ seg, seg ∈ l → clean_segment_name seg ∈ seen) → keep_first seen l = [].
Proof.
  induction l as [|x l IH]; intros Hall; simpl; [done|].
  rewrite bool_decide_true by (apply Hall; by left).
  apply IH. intros seg Hseg. apply Hall. by right.
Qed.

Lemma keep_first_id l :
  NoDup (clean_segment_name <$> l) → keep_first ∅ l = l.
Proof.
  intros Hnd. apply keep_first_full.
  enough (Hlen : length (clean_segment_name <$> l)
                 ≤ length (clean_segment_name <$> keep_first ∅ l)).
  { by rewrite !length_fmap in Hlen. }
  apply submseteq_length, NoDup_submseteq; [done|].
  intros n Hn. destruct (keep_first_covers ∅ l n Hn) as [?|?]; [set_solver|done].
Qed.

(** The scan of [is_subsequence] finds the first occurrences. *)
Lemma keep_first_scan l pre seen shorter :
  shorter = pre ++ keep_first seen l →
  foldl (λ i seg,
           match shorter !! i with
           | Some s =>
               if decide (clean_segment_name s = clean_segment_name seg)
               then S i else i
           | None => i
           end) (length pre) l
  = length pre + length (keep_first seen l).
Proof.
  revert pre seen shorter.
  induction l as [|x l IH]; intros pre seen shorter; simpl.
  { lia. }
  case_bool_decide as Hx; intros ->.
  - destruct ((pre ++ keep_first seen l) !! length pre) as [s|] eqn:Hs.
    + rewrite lookup_app_r in Hs by lia. rewrite Nat.sub_diag in Hs.
      apply list_elem_of_lookup_2, keep_first_elem in Hs as [_ Hs].
      rewrite decide_False by (intros E; by rewrite E in Hs).
      by apply IH.
    + by apply IH.
  - rewrite lookup_app_r by lia. rewrite Nat.sub_diag. simpl.
    rewrite decide_True by done.
    replace (S (length pre)) with (length (pre ++ [x]))
      by (rewrite length_app; simpl; lia).
    rewrite (IH (pre ++ [x]) (seen ∪ {[clean_segment_name x]})).
    + rewrite length_app. simpl. lia.
    + by rewrite <- app_assoc.
Qed.

Lemma keep_first_is_subsequence l :
  length (keep_first ∅ l) < length l →
  is_subsequence (keep_first ∅ l) l = true.
Proof.
  intros Hlen. unfold is_subsequence.
  destruct (Nat.leb_spec (length l) (length (keep_first ∅ l))); [lia|].
  rewrite (keep_first_scan l [] ∅) by done. simpl. apply Nat.eqb_refl.
Qed.

Lemma is_subsequence_length shorter longer :
  is_subsequence shorter longer = true → length shorter < length longer.
Proof.
  unfold is_subsequence.
  by destruct (Nat.leb_spec (length longer) (length shorter)).
Qed.

(** ** Sequence profiler: merging patterns without optional markings *)

Section Merging.
Variable v : string → seg_presence.
Variable total : nat.
Variable patterns : list (list string).
Hypothesis plain :
  ∀ P, P ∈ patterns → Forall (λ seg, unbracketed seg = true) P.
Hypothesis missing :
  ∀ Q n, Q ∈ patterns → n ∉ clean_segment_name <$> Q →
         present_in (v n) < total.

Lemma merge_with_optional_unbracketed longer shorter :
  Forall (λ seg, unbracketed seg = true)
    (merge_with_optional_view v longer shorter total) →
  merge_with_optional_view v longer shorter total = longer.
Proof.
  unfold merge_with_optional_view. intros Hall.
  rewrite <- (list_fmap_id longer) at 2. apply list_fmap_ext.
  intros i seg Hseg. rewrite Forall_fmap, Forall_lookup in Hall.
  specialize (Hall i seg Hseg). simpl in Hall.
  case_bool_decide; [done|]. by apply mark_optional_unbracketed in Hall as [-> _].
Qed.

Lemma merge_with_optional_same longer shorter :
  (∀ seg, seg ∈ longer →
          clean_segment_name seg ∈ clean_segment_name <$> shorter) →
  merge_with_optional_view v longer shorter total = longer.
Proof.
  intros Hall. unfold merge_with_optional_view.
  rewrite <- (list_fmap_id longer) at 2. apply list_fmap_ext.
  intros i seg Hseg. simpl. rewrite bool_decide_true; [done|].
  by eapply Hall, list_elem_of_lookup_2.
Qed.

Lemma find_common_structure_same p1 p2 :
  (∀ n, n ∈ clean_segment_name <$> p1 ↔ n ∈ clean_segment_name <$> p2) →
  find_common_structure_view v p1 p2 total = keep_first ∅ p1.
Proof.
  intros Hsame. unfold find_common_structure_view.
  rewrite (keep_first_all_seen _ p2), app_nil_r.
  - rewrite <- (list_fmap_id (keep_first ∅ p1)) at 2. apply list_fmap_ext.
    intros i seg Hseg. simpl.
    apply list_elem_of_lookup_2, keep_first_elem in Hseg as [Hseg _].
    assert (clean_segment_name seg ∈ clean_segment_name <$> p1)
      by by apply list_elem_of_fmap_2.
    rewrite !bool_decide_true; [done| |done]. by apply Hsame.
  - intros seg Hseg. apply elem_of_list_to_set, Hsame.
    by apply list_elem_of_fmap_2.
Qed.

Lemma find_common_structure_unbracketed p1 p2 :
  p1 ∈ patterns → p2 ∈ patterns →
  Forall (λ seg, unbracketed seg = true)
    (find_common_structure_view v p1 p2 total) →
  find_common_structure_view v p1 p2 total = keep_first ∅ p1 ∧
  ∀ n, n ∈ clean_segment_name <$> p1 ↔ n ∈ clean_segment_name <$> p2.
Proof.
  intros H1 H2 Hall.
  assert (Hboth : ∀ seg,
    seg ∈ keep_first ∅ p1
          ++ keep_first (list_to_set (clean_segment_name <$> p1)) p2 →
    clean_segment_name seg ∈ clean_segment_name <$> p1 ∧
    clean_segment_name seg ∈ clean_segment_name <$> p2).
  { intros seg Hseg. unfold find_common_structure_view in Hall.
    rewrite Forall_fmap, Forall_forall in Hall.
    specialize (Hall seg Hseg). simpl in Hall.
    destruct (decide (clean_segment_name seg ∈ clean_segment_name <$> p1))
      as [Hin1|Hout1];
      destruct (decide (clean_segment_name seg ∈ clean_segment_name <$> p2))
      as [Hin2|Hout2]; [done|..].
    - rewrite bool_decide_true, bool_decide_false in Hall by done.
      apply mark_optional_unbracketed in Hall as [_ []].
      by apply (missing p2).
    - rewrite bool_decide_false in Hall by done.
      apply mark_optional_unbracketed in Hall as [_ []].
      by apply (missing p1).
    - rewrite bool_decide_false in Hall by done.
      apply mark_optional_unbracketed in Hall as [_ []].
      by apply (missing p1). }
  assert (Hnil : keep_first (list_to_set (clean_segment_name <$> p1)) p2 = []).
  { destruct (keep_first _ p2) as [|seg r] eqn:Hk; [done|].
    assert (Hseg : seg ∈ keep_first
                     (list_to_set (clean_segment_name <$> p1)) p2)
      by (rewrite Hk; by left).
    apply keep_first_elem in Hseg as [_ []].
    apply elem_of_list_to_set, Hboth, elem_of_app. right. by left. }
  assert (Hsame : ∀ n,
    n ∈ clean_segment_name <$> p1 ↔ n ∈ clean_segment_name <$> p2).
  { intros n. split; intros Hn.
    - destruct (keep_first_covers ∅ p1 n Hn) as [?|Hk]; [set_solver|].
      apply list_elem_of_fmap in Hk as (seg & -> & Hseg).
      apply Hboth, elem_of_app. by left.
    - destruct (keep_first_covers (list_to_set (clean_segment_name <$> p1))
                  p2 n Hn) as [Hs|Hk].
      + by apply elem_of_list_to_set in Hs.
      + rewrite Hnil in Hk. by apply elem_of_nil in Hk. }
  split; [by apply find_common_structure_same|done].
Qed.

(** Two distinct patterns that do not merge. *)
Lemma unmergeable A B :
  A ∈ patterns → B ∈ patterns → A ≠ B →
  try_merge_view v A B total = None →
  NoDup (clean_segment_name <$> A) ∧
  (∀ n, n ∈ clean_segment_name <$> A ↔ n ∈ clean_segment_name <$> B) ∧
  is_subsequence A B = false.
Proof.
  intros HA HB Hne. unfold try_merge_view.
  rewrite bool_decide_false by done.
  destruct (is_subsequence A B) eqn:HsAB; [done|].
  destruct (is_subsequence B A) eqn:HsBA; [done|]. cbv zeta.
  destruct (bool_decide _ && bool_decide _) eqn:Hm; [done|]. intros _.
  apply andb_false_iff in Hm as [Hm|Hm];
    apply bool_decide_eq_false in Hm; apply dec_stable in Hm.
  - destruct (find_common_structure_unbracketed A B HA HB) as [Hk Hsame].
    { rewrite Hm. by apply plain. }
    rewrite Hm in Hk. split; [|done]. rewrite Hk. apply keep_first_NoDup.
  - destruct (find_common_structure_unbracketed A B HA HB) as [Hk Hsame].
    { rewrite Hm. by apply plain. }
    rewrite Hm in Hk. exfalso.
    destruct (decide (length (keep_first ∅ A) < length A)) as [Hlt|Hge].
    + apply keep_first_is_subsequence in Hlt. congruence.
    + apply Hne. rewrite Hk. symmetry. apply keep_first_full. lia.
Qed.

Lemma try_merge_same B X K :
  (∀ n, n ∈ clean_segment_name <$> B ↔ n ∈ clean_segment_name <$> X) →
  try_merge_view v B X total = Some K →
  K = X ∨ K = B ∨ K = keep_first ∅ B.
Proof.
  intros Hsame. unfold try_merge_view. case_bool_decide; [done|].
  destruct (is_subsequence B X).
  { intros [= <-]. left. apply merge_with_optional_same.
    intros seg Hseg. by apply Hsame, list_elem_of_fmap_2. }
  destruct (is_subsequence X B).
  { intros [= <-]. right. left. apply merge_with_optional_same.
    intros seg Hseg. by apply Hsame, list_elem_of_fmap_2. }
  cbv zeta. destruct (_ && _); [|done]. intros [= <-]. right. right.
  by apply find_common_structure_same.
Qed.

(** A merge result is never the empty pattern. *)
Lemma try_merge_view_nonempty p1 p2 K :
  try_merge_view v p1 p2 total = Some K → K ≠ [].
Proof.
  unfold try_merge_view. case_bool_decide as Hne; [done|].
  destruct (is_subsequence p1 p2) eqn:Hs12.
  { intros [= <-] HK. apply is_subsequence_length in Hs12.
    apply (f_equal length) in HK. unfold merge_with_optional_view in HK.
    rewrite length_fmap in HK. simpl in HK. lia. }
  destruct (is_subsequence p2 p1) eqn:Hs21.
  { intros [= <-] HK. apply is_subsequence_length in Hs21.
    apply (f_equal length) in HK. unfold merge_with_optional_view in HK.
    rewrite length_fmap in HK. simpl in HK. lia. }
  cbv zeta. destruct (_ && _); [|done]. intros [= <-] HK.
  unfold find_common_structure_view in HK.
  apply fmap_nil_inv, app_eq_nil in HK as [HK1 HK2].
  destruct p1 as [|x p1]; [|simpl in HK1; by rewrite bool_decide_false in HK1 by set_solver].
  destruct p2 as [|y p2]; [done|]. done.
Qed.

(** The keys stored for two groups of patterns differ. *)
Lemma merged_keys_differ A B X Ka Kb :
  A ∈ patterns → B ∈ patterns → X ∈ patterns →
  A ≠ B → A ≠ X →
  try_merge_view v A B total = None →
  try_merge_view v A X total = None →
  (Ka = A ∨ ∃ Y, Y ∈ patterns ∧ Y ≠ B ∧ Y ≠ X ∧
                 try_merge_view v A Y total = Some Ka) →
  (Kb = B ∨ try_merge_view v B X total = Some Kb) →
  Ka ≠ Kb.
Proof.
  intros HA HB HX HAB HAX HmB HmX HKa HKb.
  destruct (unmergeable A B HA HB HAB HmB) as (HndA & HsameB & HsAB).
  destruct (unmergeable A X HA HX HAX HmX) as (_ & HsameX & _).
  assert (HKb' : Kb = B ∨ Kb = X ∨ Kb = keep_first ∅ B).
  { destruct HKb as [->|HKb]; [by left|].
    apply try_merge_same in HKb; [by destruct HKb as [-> | [-> | ->]]; auto|].
    intros n. by rewrite <- HsameB, <- HsameX. }
  assert (Hplain : Forall (λ seg, unbracketed seg = true) Kb).
  { destruct HKb' as [-> | [-> | ->]]; [by apply plain..|].
    apply Forall_forall. intros seg [Hseg _]%keep_first_elem.
    pose proof (plain B HB) as HpB. rewrite Forall_forall in HpB.
    by apply HpB. }
  assert (HnA : A ≠ Kb).
  { destruct HKb' as [-> | [-> | ->]]; [done..|]. intros HAk.
    destruct (decide (length (keep_first ∅ B) < length B)) as [Hlt|Hge].
    - apply keep_first_is_subsequence in Hlt. congruence.
    - apply HAB. rewrite HAk. apply keep_first_full. lia. }
  intros <-. destruct HKa as [->|(Y & HY & HYB & HYX & Hm)]; [done|].
  unfold try_merge_view in Hm. case_bool_decide as HAY; [done|].
  destruct (is_subsequence A Y) eqn:HsAY.
  { injection Hm as <-.
    rewrite merge_with_optional_unbracketed in HKb' by done.
    destruct HKb' as [-> | [-> | HYk]]; [done..|].
    apply is_subsequence_length in HsAY.
    assert (Hlen : length (clean_segment_name <$> Y)
                   ≤ length (clean_segment_name <$> A)).
    { apply submseteq_length, NoDup_submseteq.
      - rewrite HYk. apply keep_first_NoDup.
      - intros n Hn. apply HsameB. rewrite HYk in Hn.
        apply list_elem_of_fmap in Hn as (seg & -> & [Hseg _]%keep_first_elem).
        by apply list_elem_of_fmap_2. }
    rewrite !length_fmap in Hlen. lia. }
  destruct (is_subsequence Y A).
  { injection Hm as <-.
    by rewrite merge_with_optional_unbracketed in HnA by done. }
  cbv zeta in Hm. destruct (bool_decide _ && bool_decide _) eqn:Hb; [|done].
  injection Hm as <-. apply andb_true_iff in Hb as [Hb _].
  apply bool_decide_eq_true in Hb.
  destruct (find_common_structure_unbracketed A Y HA HY Hplain) as [Hk _].
  apply Hb. rewrite Hk. by apply keep_first_id.
Qed.

End Merging.

(** ** Sequence profiler: the merge loops keep the counts *)

Lemma al_set_fresh {K V} `{EqDecision K} (k : K) (v : V) (d : list (K * V)) :
  k ∉ d.*1 → al_set k v d = d ++ [(k, v)].
Proof.
  induction d as [|[k' v'] d IH]; simpl; [done|].
  rewrite not_elem_of_cons. intros [Hne Hk].
  rewrite decide_False by done. by rewrite IH.
Qed.

Lemma counter_total_app {K} (c1 c2 : list (K * nat)) :
  counter_total (c1 ++ c2) = counter_total c1 + counter_total c2.
Proof.
  unfold counter_total. induction c1 as [|[k n] c1 IH]; simpl; [done|].
  rewrite IH. lia.
Qed.

Lemma counter_total_set_fresh {K} `{EqDecision K} (k : K) (n : nat)
    (c : list (K * nat)) :
  k ∉ c.*1 → counter_total (al_set k n c) = counter_total c + n.
Proof.
  intros Hk. rewrite al_set_fresh, counter_total_app by done.
  unfold counter_total. simpl. lia.
Qed.

Lemma pending_fresh processed P l :
  P ∉ l.*1 → pending (processed ∪ {[P]}) l = pending processed l.
Proof.
  induction l as [|[Q c] l IH]; simpl; [done|].
  rewrite not_elem_of_cons. intros [Hne Hl]. rewrite IH by done.
  destruct (decide (Q ∈ processed)).
  - rewrite !bool_decide_true; [done..|set_solver].
  - rewrite !bool_decide_false; [done..|set_solver].
Qed.

Lemma pending_empty l : pending ∅ l = counter_total l.
Proof.
  unfold counter_total. induction l as [|[Q c] l IH]; simpl; [done|].
  rewrite bool_decide_false by set_solver. by rewrite IH.
Qed.

Section MergeLoops.
Variable sp0 : list (string * seg_presence).
Variable total : nat.
Variable patterns : list (list string).
Hypothesis plain :
  ∀ P, P ∈ patterns → Forall (λ seg, unbracketed seg = true) P.
Hypothesis missing :
  ∀ Q n, Q ∈ patterns → n ∉ clean_segment_name <$> Q →
         present_in (sp_view sp0 n) < total.

Lemma merge_into_inv B l :
  NoDup l.*1 →
  ∀ mp mc pr sp, same_view sp0 sp →
  ∃ mp' mc' pr' sp',
    merge_into B total l (mp, mc, pr, sp) = (mp', mc', pr', sp') ∧
    same_view sp0 sp' ∧
    mc' + pending pr' l = mc + pending pr l ∧
    pr ⊆ pr' ∧
    (∀ P, P ∈ pr' → P ∈ pr ∨ P ∈ l.*1) ∧
    (mp' = mp ∨
     ∃ X, X ∈ l.*1 ∧ X ∉ pr ∧ X ∈ pr' ∧
          try_merge_view (sp_view sp0) B X total = Some mp') ∧
    (∀ X, X ∈ l.*1 → X ∉ pr' →
          try_merge_view (sp_view sp0) B X total = None).
Proof.
  unfold merge_into.
  match goal with |- context [foldl ?g _ l] => set (step := g) end.
  induction l as [|[X c] l IH]; intros Hnd mp mc pr sp Hv.
  { exists mp, mc, pr, sp. simpl. repeat split; try done.
    - by left.
    - by left.
    - by intros X ?%elem_of_nil. }
  apply NoDup_cons in Hnd as [HX Hnd]. cbn [foldl].
  unfold step at 2. cbv beta iota.
  case_bool_decide as Hpr.
  - destruct (IH Hnd mp mc pr sp Hv)
      as (mp' & mc' & pr' & sp' & -> & Hv' & Hsum & Hsub & Hfrom & Hkey & Hun).
    exists mp', mc', pr', sp'. repeat split; try done.
    + simpl. rewrite !bool_decide_true by set_solver. done.
    + intros P HP. destruct (Hfrom P HP); [by left|right]. simpl. by right.
    + destruct Hkey as [?|(Y & HY & ? & ? & ?)]; [by left|right].
      exists Y. repeat split; try done. simpl. by right.
    + intros Y [->|HY]%elem_of_cons HYpr; [set_solver|by apply Hun].
  - destruct (try_merge_patterns_refines B X sp total) as [Hr Hv2].
    rewrite (try_merge_view_ext (sp_view sp0)) in Hr by apply Hv.
    destruct (try_merge_patterns B X sp total) as [r sp2]. simpl in Hr, Hv2.
    assert (Hv02 : same_view sp0 sp2) by by eapply same_view_trans.
    destruct r as [K|].
    + assert (HK : K ≠ []) by by eapply try_merge_view_nonempty.
      destruct K as [|k K]; [done|].
      cbv beta iota zeta. cbn [merge_result_truthy default from_option id].
      destruct (IH Hnd (k :: K) (mc + c) (pr ∪ {[X]}) sp2 Hv02)
        as (mp' & mc' & pr' & sp' & -> & Hv' & Hsum & Hsub & Hfrom & Hkey & Hun).
      exists mp', mc', pr', sp'. repeat split; try done.
      * simpl. rewrite bool_decide_true by set_solver.
        rewrite bool_decide_false by done.
        rewrite pending_fresh in Hsum by done. lia.
      * set_solver.
      * intros P HP. destruct (Hfrom P HP) as [HP'|HP'].
        -- apply elem_of_union in HP' as [?|HP'%elem_of_singleton];
             [by left|right]. rewrite HP'. simpl. by left.
        -- right. simpl. by right.
      * right. destruct Hkey as [->|(Y & HY & HYpr & HYpr' & HYm)].
        -- exists X. repeat split; try done; [simpl; by left|set_solver].
        -- exists Y. repeat split; try done; [simpl; by right|set_solver].
      * intros Y [->|HY]%elem_of_cons HYpr; [set_solver|by apply Hun].
    + cbv beta iota zeta. cbn [merge_result_truthy].
      destruct (IH Hnd mp mc pr sp2 Hv02)
        as (mp' & mc' & pr' & sp' & -> & Hv' & Hsum & Hsub & Hfrom & Hkey & Hun).
      exists mp', mc', pr', sp'. repeat split; try done.
      * simpl. rewrite (bool_decide_false (X ∈ pr)) by done.
        rewrite bool_decide_false; [lia|].
        intros [?|?]%Hfrom; done.
      * intros P HP. destruct (Hfrom P HP); [by left|right]. simpl. by right.
      * destruct Hkey as [?|(Y & HY & ? & ? & ?)]; [by left|right].
        exists Y. repeat split; try done. simpl. by right.
      * intros Y [->|HY]%elem_of_cons HYpr; [done|by apply Hun].
Qed.

Lemma merge_from_total rest :
  NoDup rest.*1 → (∀ P, P ∈ rest.*1 → P ∈ patterns) →
  ∀ merged pr sp,
    same_view sp0 sp → (∀ P, P ∈ pr → P ∈ patterns) →
    (∀ K, K ∈ merged.*1 →
          key_led (sp_view sp0) total patterns rest pr K) →
    counter_total (merge_from rest total (merged, pr, sp)).1.1
    = counter_total merged + pending pr rest.
Proof.
  induction rest as [|[B cB] later IH];
    intros Hnd Hpat merged pr sp Hv Hpr Hkeys.
  { simpl. lia. }
  apply NoDup_cons in Hnd as [HB Hnd]. cbn [merge_from].
  assert (Hpat' : ∀ P, P ∈ later.*1 → P ∈ patterns).
  { intros P HP. apply Hpat. simpl. by right. }
  case_bool_decide as HBpr.
  - rewrite IH; try done.
    + simpl. by rewrite bool_decide_true.
    + intros K HK. destruct (Hkeys K HK) as (A & HA & HApr & HKA & Hun).
      exists A. repeat split; try done.
      intros X HX. apply Hun. simpl. by right.
  - destruct (merge_into_inv B later Hnd B cB (pr ∪ {[B]}) sp Hv)
      as (mp' & mc' & pr' & sp' & -> & Hv' & Hsum & Hsub & Hfrom & Hkey & Hun).
    assert (HBpat : B ∈ patterns) by (apply Hpat; simpl; by left).
    assert (Hpr' : ∀ P, P ∈ pr' → P ∈ patterns).
    { intros P HP. apply Hfrom in HP as [HP|HP]; [|by apply Hpat'].
      apply elem_of_union in HP as [HP|HP]; [by apply Hpr|].
      apply elem_of_singleton in HP. by subst. }
    assert (Hfresh : mp' ∉ merged.*1).
    { intros HK. destruct (Hkeys mp' HK) as (A & HA & HApr & HKA & HunA).
      assert (HAB : A ≠ B) by (by intros ->).
      assert (HmB : try_merge_view (sp_view sp0) A B total = None).
      { apply HunA; [simpl; by left|done]. }
      destruct Hkey as [->|(X & HX & HXpr & HXpr' & HXm)].
      - refine (merged_keys_differ (sp_view sp0) total patterns plain missing
                  A B B B B HA HBpat HBpat HAB HAB HmB HmB _ _ eq_refl).
        + destruct HKA as [?|(Y & HY & HYpr & HYm)]; [by left|right].
          exists Y. repeat split; try done; by intros ->.
        + by left.
      - assert (HXpr0 : X ∉ pr) by set_solver.
        assert (HAX : A ≠ X) by (by intros ->).
        assert (HXpat : X ∈ patterns) by by apply Hpat'.
        assert (HmX : try_merge_view (sp_view sp0) A X total = None).
        { apply HunA; [simpl; by right|done]. }
        refine (merged_keys_differ (sp_view sp0) total patterns plain missing
                  A B X mp' mp' HA HBpat HXpat HAB HAX HmB HmX _ _ eq_refl).
        + destruct HKA as [?|(Y & HY & HYpr & HYm)]; [by left|right].
          exists Y. repeat split; try done; by intros ->.
        + by right. }
    rewrite IH; try done.
    + rewrite counter_total_set_fresh by done. simpl.
      rewrite bool_decide_false by done.
      rewrite pending_fresh in Hsum by done. lia.
    + intros K [->|HK]%al_set_keys.
      * exists B. repeat split; try done; [set_solver|].
        destruct Hkey as [?|(X & HX & HXpr & HXpr' & HXm)]; [by left|right].
        exists X. repeat split; try done. by apply Hpat'.
      * destruct (Hkeys K HK) as (A & HA & HApr & HKA & HunA).
        exists A. repeat split; try done; [set_solver| |].
        -- destruct HKA as [?|(Y & HY & HYpr & HYm)]; [by left|right].
           exists Y. repeat split; try done. set_solver.
        -- intros X HX HXpr. apply HunA; [simpl; by right|set_solver].
Qed.

Lemma merge_similar_patterns_total pl :
  NoDup pl.*1 → (∀ P, P ∈ pl.*1 → P ∈ patterns) →
  counter_total (merge_similar_patterns pl sp0 total).1 = counter_total pl.
Proof.
  intros Hnd Hpat. unfold merge_similar_patterns.
  pose proof (merge_from_total pl Hnd Hpat [] ∅ sp0) as Hsum.
  destruct (merge_from pl total ([], ∅, sp0)) as [[merged pr] sp].
  simpl in *. rewrite Hsum.
  - by rewrite pending_empty.
  - apply same_view_refl.
  - set_solver.
  - by intros K ?%elem_of_nil.
Qed.

End MergeLoops.

(** ** Sequence profiler: the scan of the messages *)

Lemma sp_view_set k e sp n :
  sp_view (al_set k e sp) n = if decide (n = k) then e else sp_view sp n.
Proof.
  unfold sp_view. destruct (decide (n = k)) as [->|Hne].
  - by rewrite al_find_set_eq.
  - by rewrite al_find_set_ne.
Qed.

Lemma scan_segment_step order occ uniq sp seg :
  ∃ order' occ' sp',
    scan_segment (order, occ, uniq, sp) seg
    = (order', occ', uniq ∪ {[name seg]}, sp') ∧
    (∀ n, n ∈ order' ↔ n ∈ order ∨ n = name seg) ∧
    (∀ n, present_in (sp_view sp' n)
          = present_in (sp_view sp n)
            + (if bool_decide (n = name seg ∧ name seg ∉ uniq) then 1 else 0)).
Proof.
  unfold scan_segment.
  set (occ' := counter_incr (name seg) occ).
  set (order' := match last order with
                 | Some l => if bool_decide (l ≠ name seg)
                             then order ++ [name seg] else order
                 | None => order ++ [name seg]
                 end).
  assert (Horder : ∀ n, n ∈ order' ↔ n ∈ order ∨ n = name seg).
  { intros n. unfold order'. destruct (last order) as [l|] eqn:Hl.
    - case_bool_decide as Hne.
      + rewrite elem_of_app, list_elem_of_singleton. tauto.
      + subst l. apply last_Some_elem_of in Hl.
        split; [by left|]. by intros [?| ->].
    - rewrite elem_of_app, list_elem_of_singleton. tauto. }
  set (first := if bool_decide (name seg ∈ uniq) then (uniq, sp)
                else let '(e, segments_presence) := sp_get (name seg) sp in
                     (uniq ∪ {[name seg]},
                      al_set (name seg)
                        {| present_in := present_in e + 1;
                           repeats := repeats e |} segments_presence)).
  assert (Hfirst : first.1 = uniq ∪ {[name seg]} ∧
    ∀ n, present_in (sp_view first.2 n)
         = present_in (sp_view sp n)
           + (if bool_decide (n = name seg ∧ name seg ∉ uniq) then 1 else 0)).
  { unfold first. case_bool_decide as Hu; simpl.
    - split; [set_solver|]. intros n.
      rewrite bool_decide_false by tauto. lia.
    - destruct (sp_get_view (name seg) sp) as [He Hv].
      destruct (sp_get (name seg) sp) as [e sp1]. simpl in *.
      split; [done|]. intros n. rewrite sp_view_set.
      destruct (decide (n = name seg)) as [->|Hne].
      + rewrite bool_decide_true by done. simpl. by rewrite He.
      + rewrite bool_decide_false by tauto. rewrite Hv. lia. }
  destruct first as [uniq1 sp1]. simpl in Hfirst. destruct Hfirst as [-> Hp].
  eexists order', occ', _. split; [reflexivity|]. split; [done|].
  intros n. rewrite <- Hp. destruct (1 <? _); [|done].
  destruct (sp_get_view (name seg) sp1) as [He Hv].
  destruct (sp_get (name seg) sp1) as [e sp2]. simpl in *.
  rewrite sp_view_set. destruct (decide (n = name seg)) as [->|Hne].
  - simpl. by rewrite He.
  - by rewrite Hv.
Qed.

Lemma scan_segments_fold segs order occ uniq sp :
  ∃ order' occ' uniq' sp',
    foldl scan_segment (order, occ, uniq, sp) segs
    = (order', occ', uniq', sp') ∧
    uniq' = uniq ∪ list_to_set (name <$> segs) ∧
    (∀ n, n ∈ order' ↔ n ∈ order ∨ n ∈ name <$> segs) ∧
    (∀ n, present_in (sp_view sp' n)
          = present_in (sp_view sp n)
            + (if bool_decide (n ∈ name <$> segs ∧ n ∉ uniq)
               then 1 else 0)).
Proof.
  revert order occ uniq sp.
  induction segs as [|seg segs IH]; intros order occ uniq sp.
  { exists order, occ, uniq, sp. cbn [foldl].
    change (name <$> []) with (@nil string).
    split; [done|]. split; [set_solver|].
    split.
    - intros n. rewrite elem_of_nil. tauto.
    - intros n. rewrite bool_decide_false; [lia|].
      intros [?%elem_of_nil _]. done. }
  cbn [foldl].
  destruct (scan_segment_step order occ uniq sp seg)
    as (order1 & occ1 & sp1 & -> & Horder1 & Hp1).
  destruct (IH order1 occ1 (uniq ∪ {[name seg]}) sp1)
    as (order' & occ' & uniq' & sp' & -> & -> & Horder & Hp).
  exists order', occ', (uniq ∪ {[name seg]} ∪ list_to_set (name <$> segs)), sp'.
  split; [done|]. split; [set_solver|]. split.
  - intros n. rewrite Horder, Horder1, fmap_cons, elem_of_cons. tauto.
  - intros n. rewrite Hp, Hp1, fmap_cons.
    destruct (decide (n = name seg)) as [->|Hne];
      destruct (decide (name seg ∈ uniq)) as [Hu|Hu].
    + rewrite !bool_decide_false; [lia|set_solver..].
    + rewrite (bool_decide_true (_ ∧ _ ∉ uniq)) by done.
      rewrite bool_decide_false by set_solver.
      rewrite bool_decide_true; [lia|]. split; [by left|done].
    + rewrite (bool_decide_false (n = _ ∧ _)) by tauto.
      destruct (decide (n ∈ name <$> segs ∧ n ∉ uniq)) as [Hn|Hn].
      * rewrite !bool_decide_true; [lia| |set_solver].
        split; [right|]; tauto.
      * rewrite !bool_decide_false; [lia| |set_solver].
        rewrite elem_of_cons. tauto.
    + rewrite (bool_decide_false (n = _ ∧ _)) by tauto.
      destruct (decide (n ∈ name <$> segs ∧ n ∉ uniq)) as [Hn|Hn].
      * rewrite !bool_decide_true; [lia| |set_solver].
        split; [right|]; tauto.
      * rewrite !bool_decide_false; [lia| |set_solver].
        rewrite elem_of_cons. tauto.
Qed.

Lemma scan_messages_fold msgs canon sp :
  ∃ new sp',
    foldl (λ '(canonical_sequences, segments_presence) msg,
             match msg with
             | None => (canonical_sequences, segments_presence)
             | Some msg =>
                 let '(segment_order, _, _, segments_presence) :=
                   foldl scan_segment ([], [], ∅, segments_presence)
                     (segments msg) in
                 (canonical_sequences ++ [segment_order], segments_presence)
             end) (canon, sp) msgs
    = (canon ++ new, sp') ∧
    length new = length (decoded msgs) ∧
    (∀ s, s ∈ new →
          ∃ m, Some m ∈ msgs ∧ ∀ n, n ∈ s ↔ n ∈ segment_names m) ∧
    (∀ n, present_in (sp_view sp' n)
          = present_in (sp_view sp n) + containing n (decoded msgs)).
Proof.
  revert canon sp. induction msgs as [|[m|] msgs IH]; intros canon sp.
  - exists [], sp. cbn [foldl]. rewrite app_nil_r. split; [done|].
    split; [done|]. split; [by intros s ?%elem_of_nil|].
    intros n. unfold containing. simpl. lia.
  - cbn [foldl].
    destruct (scan_segments_fold (segments m) [] [] ∅ sp)
      as (order' & occ' & uniq' & sp1 & -> & _ & Horder & Hp).
    destruct (IH (canon ++ [order']) sp1)
      as (new & sp' & -> & Hlen & Hnames & Hpres).
    exists (order' :: new), sp'. rewrite <- app_assoc. split; [done|].
    split; [simpl; by rewrite Hlen|]. split.
    + intros s [->|Hs]%elem_of_cons.
      * exists m. split; [by left|]. intros n. rewrite Horder, elem_of_nil.
        unfold segment_names. tauto.
      * destruct (Hnames s Hs) as (m' & Hm' & Hn). exists m'.
        split; [by right|done].
    + intros n. rewrite Hpres, Hp. unfold containing.
      change (decoded (Some m :: msgs)) with (m :: decoded msgs).
      rewrite filter_cons. unfold segment_names.
      destruct (decide (n ∈ name <$> segments m)) as [Hin|Hout].
      * rewrite bool_decide_true by set_solver. simpl. lia.
      * rewrite bool_decide_false by tauto. lia.
  - cbn [foldl].
    destruct (IH canon sp) as (new & sp' & -> & Hlen & Hnames & Hpres).
    exists new, sp'. split; [done|]. split; [done|]. split; [|done].
    intros s Hs. destruct (Hnames s Hs) as (m' & Hm' & Hn). exists m'.
    split; [by right|done].
Qed.

Lemma decoded_length msgs : length (decoded msgs) ≤ length msgs.
Proof.
  induction msgs as [|[m|] msgs IH]; simpl; [done|..].
  - change (decoded (Some m :: msgs)) with (m :: decoded msgs). simpl. lia.
  - change (decoded (None :: msgs)) with (decoded msgs). lia.
Qed.

Lemma decoded_elem msgs m : m ∈ decoded msgs ↔ Some m ∈ msgs.
Proof.
  unfold decoded. rewrite list_elem_of_omap. split.
  - intros (x & Hx & Hm). simpl in Hm. by subst.
  - intros Hm. by exists (Some m).
Qed.

(** What the scan leaves: one canonical sequence per decoded message, over
    the names of that message, and a presence count below the number of
    messages for every name that some message lacks. *)
Lemma scan_messages_spec msgs canon sp :
  scan_messages msgs = (canon, sp) →
  length canon = length (decoded msgs) ∧
  (∀ s, s ∈ canon →
        ∃ m, Some m ∈ msgs ∧ ∀ n, n ∈ s ↔ n ∈ segment_names m) ∧
  (∀ m n, Some m ∈ msgs → n ∉ segment_names m →
          present_in (sp_view sp n) < length msgs).
Proof.
  unfold scan_messages.
  destruct (scan_messages_fold msgs [] [])
    as (new & sp' & -> & Hlen & Hnames & Hpres).
  simpl. intros [= <- <-]. split; [done|]. split; [done|].
  intros m n Hm Hn. rewrite Hpres. unfold sp_view at 1. simpl.
  pose proof (decoded_length msgs). unfold containing.
  enough (length (filter (λ m, n ∈ segment_names m) (decoded msgs))
          < length (decoded msgs)) by lia.
  apply (length_filter_lt _ _ m); [by apply decoded_elem|done].
Qed.

(** ** Sequence profiler: counting and annotating the sequences *)

Lemma counter_total_set {K} `{EqDecision K} (k : K) (n : nat)
    (c : list (K * nat)) :
  counter_total (al_set k n c) + default 0 (al_find k c)
  = counter_total c + n.
Proof.
  unfold counter_total. induction c as [|[k' n'] c IH]; simpl; [lia|].
  destruct (decide (k = k')) as [->|Hne]; simpl; lia.
Qed.

Lemma counter_incr_total {K} `{EqDecision K} (k : K) (c : list (K * nat)) :
  counter_total (counter_incr k c) = S (counter_total c).
Proof.
  unfold counter_incr.
  pose proof (counter_total_set k (S (default 0 (al_find k c))) c). lia.
Qed.

Lemma sequence_counts_spec (canon : list (list string)) c :
  NoDup c.*1 →
  NoDup (foldl (λ sequence_counts seq, counter_incr seq sequence_counts)
           c canon).*1 ∧
  counter_total (foldl (λ sequence_counts seq, counter_incr seq sequence_counts)
                   c canon) = counter_total c + length canon ∧
  ∀ s, s ∈ (foldl (λ sequence_counts seq, counter_incr seq sequence_counts)
              c canon).*1 → s ∈ c.*1 ∨ s ∈ canon.
Proof.
  revert c. induction canon as [|seq canon IH]; intros c Hnd; cbn [foldl].
  { split; [done|]. split; [simpl; lia|]. intros s ?. by left. }
  destruct (IH (counter_incr seq c)) as (Hnd' & Htot & Hkeys).
  { by apply al_set_NoDup. }
  split; [done|]. split.
  - rewrite Htot, counter_incr_total. simpl. lia.
  - intros s Hs. destruct (Hkeys s Hs) as [Hc|Hc].
    + apply al_set_keys in Hc as [->|Hc]; [right; by left|by left].
    + right. by right.
Qed.

Lemma clean_segment_name_annotate v (s : list string) :
  Forall (λ n, marker_free n = true) s →
  clean_segment_name <$> annotate v s = s.
Proof.
  unfold annotate. induction 1 as [|n s Hn Hs IH]; [done|].
  rewrite !fmap_cons, IH. f_equal. destruct (repeats (v n)).
  - by apply clean_segment_name_repeat.
  - by apply clean_segment_name_marker_free.
Qed.

Lemma annotate_unbracketed v (s : list string) :
  Forall (λ n, marker_free n = true) s →
  Forall (λ seg, unbracketed seg = true) (annotate v s).
Proof.
  unfold annotate. induction 1 as [|n s Hn Hs IH]; [done|].
  rewrite fmap_cons. constructor; [|done]. destruct (repeats (v n)).
  - by apply unbracketed_repeat.
  - by apply unbracketed_marker_free.
Qed.

Lemma annotate_ext v v' s :
  (∀ k, v' k = v k) → annotate v' s = annotate v s.
Proof.
  intros Hv. unfold annotate. apply list_fmap_ext. intros i n _.
  by rewrite Hv.
Qed.

Lemma annotate_one_refines seq sp :
  (foldl (λ '(annotated_seq, segments_presence) seg,
            let '(e, segments_presence) := sp_get seg segments_presence in
            if repeats e then
              (annotated_seq ++ [seg +:+ "+"], segments_presence)
            else (annotated_seq ++ [seg], segments_presence))
     ([], sp) seq).1 = annotate (sp_view sp) seq ∧
  same_view sp
    (foldl (λ '(annotated_seq, segments_presence) seg,
              let '(e, segments_presence) := sp_get seg segments_presence in
              if repeats e then
                (annotated_seq ++ [seg +:+ "+"], segments_presence)
              else (annotated_seq ++ [seg], segments_presence))
       ([], sp) seq).2.
Proof.
  match goal with |- context [foldl ?g _ seq] => set (step := g) end.
  enough (Hgen : ∀ l acc sp1, same_view sp sp1 →
    (foldl step (acc, sp1) l).1 = acc ++ annotate (sp_view sp) l ∧
    same_view sp (foldl step (acc, sp1) l).2).
  { apply (Hgen seq [] sp). apply same_view_refl. }
  induction l as [|seg l IH]; intros acc sp1 Hv.
  { simpl. by rewrite app_nil_r. }
  cbn [foldl]. unfold step at 2 4. cbv beta iota.
  destruct (sp_get_view seg sp1) as [He Hv1].
  destruct (sp_get seg sp1) as [e sp2]. simpl in He, Hv1.
  assert (Hv2 : same_view sp sp2) by by eapply same_view_trans.
  rewrite He, (Hv seg).
  unfold annotate. rewrite fmap_cons. fold (annotate (sp_view sp) l).
  destruct (repeats (sp_view sp seg)).
  - destruct (IH (acc ++ [seg +:+ "+"]) sp2 Hv2) as [-> Hv'].
    by rewrite <- app_assoc.
  - destruct (IH (acc ++ [seg]) sp2 Hv2) as [-> Hv'].
    by rewrite <- app_assoc.
Qed.

Lemma annotate_sequences_spec sc sp :
  NoDup (annotate (sp_view sp) <$> sc.*1) →
  (annotate_sequences sc sp).1
  = prod_map (annotate (sp_view sp)) id <$> sc ∧
  same_view sp (annotate_sequences sc sp).2.
Proof.
  unfold annotate_sequences.
  match goal with |- context [foldl ?g _ sc] => set (step := g) end.
  enough (Hgen : ∀ l acc sp1, same_view sp sp1 →
    NoDup (acc.*1 ++ (annotate (sp_view sp) <$> l.*1)) →
    (foldl step (acc, sp1) l).1
    = acc ++ (prod_map (annotate (sp_view sp)) id <$> l) ∧
    same_view sp (foldl step (acc, sp1) l).2).
  { intros Hnd. apply (Hgen sc [] sp); [apply same_view_refl|done]. }
  induction l as [|[seq c] l IH]; intros acc sp1 Hv Hnd.
  { simpl. by rewrite app_nil_r. }
  cbn [foldl]. unfold step at 2 4. cbv beta iota.
  destruct (annotate_one_refines seq sp1) as [Ha Hv1].
  match goal with |- context [foldl ?g ([], sp1) seq] =>
    destruct (foldl g ([], sp1) seq) as [ann sp2] end.
  simpl in Ha, Hv1. subst ann.
  rewrite (annotate_ext (sp_view sp) (sp_view sp1)) by apply Hv.
  assert (Hv2 : same_view sp sp2) by by eapply same_view_trans.
  rewrite !fmap_cons in Hnd. cbn [fst] in Hnd.
  apply NoDup_app in Hnd as (Hacc & Hdisj & Hl).
  apply NoDup_cons in Hl as [Hseq Hl].
  rewrite al_set_fresh.
  - destruct (IH (acc ++ [(annotate (sp_view sp) seq, c)]) sp2 Hv2)
      as [-> Hv'].
    + rewrite fmap_app. simpl. rewrite <- app_assoc. simpl.
      apply NoDup_app. split; [done|]. split.
      * intros K HK. apply Hdisj. simpl. done.
      * by apply NoDup_cons.
    + split; [|done]. by rewrite <- app_assoc.
  - intros HK. apply (Hdisj _ HK). simpl. by left.
Qed.

(** ** Sequence profiler: the counts of the final patterns *)

Lemma names_marker_free_elem messages m s :
  names_marker_free messages = true →
  Some m ∈ messages → s ∈ segments m → marker_free (name s) = true.
Proof.
  unfold names_marker_free. rewrite forallb_forall. intros Hall Hm Hs.
  apply list_elem_of_In in Hm. specialize (Hall (Some m) Hm). simpl in Hall.
  rewrite forallb_forall in Hall. by apply Hall, list_elem_of_In.
Qed.

Lemma names_marker_free_sub msgs messages :
  (∀ x, x ∈ msgs → x ∈ messages) →
  names_marker_free messages = true → names_marker_free msgs = true.
Proof.
  unfold names_marker_free. rewrite !forallb_forall. intros Hsub Hall x Hx.
  by apply Hall, list_elem_of_In, Hsub, list_elem_of_In.
Qed.

Lemma sum_counts_app l1 l2 :
  sum_counts (l1 ++ l2) = sum_counts l1 + sum_counts l2.
Proof.
  unfold sum_counts. induction l1 as [|e l1 IH]; simpl; [done|].
  rewrite IH. lia.
Qed.

Lemma sum_counts_insert x l :
  sum_counts (insert_by_count x l) = count x + sum_counts l.
Proof.
  unfold sum_counts. induction l as [|y l IH]; simpl; [done|].
  destruct (count x <? count y); simpl; [|done]. rewrite IH. lia.
Qed.

Lemma sum_counts_sort l : sum_counts (sort_by_count_desc l) = sum_counts l.
Proof.
  unfold sort_by_count_desc. induction l as [|x l IH]; simpl; [done|].
  rewrite sum_counts_insert, IH. done.
Qed.

Lemma final_sequences_counts total merged acc sp r :
  for_each (λ '(final_sequences, segments_presence) '(pattern, count),
              let '(final_pattern, segments_presence) :=
                final_marking pattern segments_presence total in
              ratio ← Float.truediv count total;
              Ok (final_sequences ++
                    [{| sequence := final_pattern;
                        count := count;
                        percent :=
                          Float.round1
                            (Float.mul ratio (Float.of_nat 100)) |}],
                  segments_presence))
    merged (acc, sp) = Ok r →
  sum_counts r.1 = sum_counts acc + counter_total merged.
Proof.
  revert acc sp. induction merged as [|[P c] merged IH]; intros acc sp.
  { simpl. intros [= <-]. simpl. unfold counter_total. simpl. lia. }
  cbn [for_each]. destruct (final_marking P sp total) as [fp sp1].
  destruct (Float.truediv c total) as [ratio|e]; [|done].
  simpl. intros Hr. apply IH in Hr. rewrite Hr, sum_counts_app.
  unfold sum_counts at 2, counter_total. simpl. lia.
Qed.

Lemma prod_map_keys {A B C} (f : A → B) (l : list (A * C)) :
  (prod_map f id <$> l).*1 = f <$> l.*1.
Proof.
  induction l as [|[a c] l IH]; [done|]. rewrite !fmap_cons. by rewrite IH.
Qed.

Lemma counter_total_prod_map {A B} (f : A → B) (l : list (A * nat)) :
  counter_total (prod_map f id <$> l) = counter_total l.
Proof.
  unfold counter_total. induction l as [|[a c] l IH]; [done|].
  rewrite fmap_cons. cbn [foldr]. by rewrite IH.
Qed.

(** The counts of the patterns of one group add up to its decoded
    messages. *)
Lemma profile_sequences_for_type_counts messages p :
  names_marker_free messages = true →
  profile_sequences_for_type messages = Ok p →
  sum_counts (common_sequences p) = length (decoded messages) ∧
  total_messages p = length messages.
Proof.
  intros Hfree. unfold profile_sequences_for_type.
  destruct (scan_messages messages) as [canon sp0] eqn:Hscan.
  apply scan_messages_spec in Hscan as (Hlen & Hnames & Hpres).
  destruct (sequence_counts_spec canon []) as (Hnd & Htot & Hkeys).
  { constructor. }
  match goal with |- context [annotate_sequences ?c sp0] => set (sc := c) in * end.
  assert (Hmf : ∀ s, s ∈ sc.*1 → s ∈ canon ∧
                     Forall (λ n, marker_free n = true) s).
  { intros s Hs. destruct (Hkeys s Hs) as [Hc|Hc].
    { by apply elem_of_nil in Hc. }
    split; [done|]. destruct (Hnames s Hc) as (m & Hm & Hn).
    apply Forall_forall. intros n Hin. apply Hn in Hin.
    unfold segment_names in Hin.
    apply list_elem_of_fmap in Hin as (seg & -> & Hseg).
    by eapply names_marker_free_elem. }
  assert (Hnd_ann : NoDup (annotate (sp_view sp0) <$> sc.*1)).
  { apply NoDup_fmap_2_strong; [|done]. intros s1 s2 H1 H2 Heq.
    rewrite <- (clean_segment_name_annotate (sp_view sp0) s1)
      by by apply Hmf.
    rewrite <- (clean_segment_name_annotate (sp_view sp0) s2)
      by by apply Hmf.
    by rewrite Heq. }
  destruct (annotate_sequences_spec sc sp0 Hnd_ann) as [Hann Hv1].
  destruct (annotate_sequences sc sp0) as [annotated sp1].
  simpl in Hann, Hv1.
  assert (Hmerge :
    counter_total (merge_similar_patterns annotated sp1 (length messages)).1
    = counter_total annotated).
  { apply (merge_similar_patterns_total sp1 (length messages) annotated.*1).
    - intros P HP. rewrite Hann, prod_map_keys in HP.
      apply list_elem_of_fmap in HP as (s & -> & Hs).
      by apply annotate_unbracketed, Hmf.
    - intros Q n HQ Hn. rewrite Hann, prod_map_keys in HQ.
      apply list_elem_of_fmap in HQ as (s & -> & Hs).
      destruct (Hmf s Hs) as [Hc Hfs].
      rewrite clean_segment_name_annotate in Hn by done.
      destruct (Hnames s Hc) as (m & Hm & Hsn).
      rewrite (Hv1 n). apply (Hpres m n Hm). by rewrite <- Hsn.
    - by rewrite Hann, prod_map_keys.
    - done. }
  destruct (merge_similar_patterns annotated sp1 (length messages))
    as [merged sp2]. simpl in Hmerge.
  match goal with |- context [for_each ?b merged ?s] =>
    destruct (for_each b merged s) as [[fs sp3]|e] eqn:Hfinal end; [|done].
  simpl. intros [= <-]. simpl. split; [|done].
  apply final_sequences_counts in Hfinal. simpl in Hfinal.
  rewrite sum_counts_sort, Hfinal, Hmerge, Hann, counter_total_prod_map.
  fold sc in Htot. rewrite Htot. unfold counter_total, sum_counts. simpl. lia.
Qed.

(** ** Sequence profiler: the groups of messages *)

Lemma al_set_elem {K V} `{EqDecision K} (k k' : K) (v v' : V)
    (d : list (K * V)) :
  (k, v) ∈ al_set k' v' d → (k, v) = (k', v') ∨ (k, v) ∈ d.
Proof.
  induction d as [|[k0 v0] d IH]; simpl.
  - intros ?%list_elem_of_singleton. by left.
  - destruct (decide (k' = k0)) as [->|Hne]; rewrite !elem_of_cons.
    + intros [?|?]; [by left|right; by right].
    + intros [?|Hin]; [right; by left|].
      destruct (IH Hin); [by left|right; by right].
Qed.

Lemma decoded_app l1 l2 : decoded (l1 ++ l2) = decoded l1 ++ decoded l2.
Proof. apply omap_app. Qed.

Lemma decoded_Some ms : decoded (Some <$> ms) = ms.
Proof.
  induction ms as [|m ms IH]; [done|]. rewrite fmap_cons.
  change (decoded (Some m :: (Some <$> ms))) with (m :: decoded (Some <$> ms)).
  by rewrite IH.
Qed.

Lemma group_by_type_spec messages :
  NoDup (group_by_type messages).*1 ∧
  ∀ t, default [] (al_find t (group_by_type messages))
       = Some <$> of_type t messages.
Proof.
  unfold group_by_type, of_type.
  induction messages as [|msg messages IH] using rev_ind.
  { split; [constructor|done]. }
  rewrite foldl_app. cbn [foldl].
  destruct IH as [Hnd Hfind]. destruct msg as [m|].
  - split; [by apply al_set_NoDup|]. intros t.
    rewrite decoded_app, filter_app, fmap_app.
    change (decoded [Some m]) with [m].
    destruct (decide (t = message_type m)) as [->|Hne].
    + rewrite al_find_set_eq. simpl. rewrite Hfind.
      rewrite filter_cons, decide_True by done. done.
    + rewrite al_find_set_ne by done. rewrite Hfind.
      rewrite filter_cons, decide_False by done.
      by rewrite filter_nil, app_nil_r.
  - split; [done|]. intros t. rewrite Hfind.
    rewrite decoded_app, filter_app.
    change (decoded [None]) with (@nil message).
    by rewrite filter_nil, app_nil_r.
Qed.

Lemma profile_sequences_for_type_total_messages messages p :
  profile_sequences_for_type messages = Ok p →
  total_messages p = length messages.
Proof.
  unfold profile_sequences_for_type.
  destruct (scan_messages messages) as [canon sp0].
  destruct (annotate_sequences _ _) as [annotated sp1].
  destruct (merge_similar_patterns _ _ _) as [merged sp2].
  match goal with |- context [for_each ?b merged ?s] =>
    destruct (for_each b merged s) as [[fs sp3]|e] end; [|done].
  simpl. by intros [= <-].
Qed.

Lemma group_by_type_keys messages t :
  t ∈ (group_by_type messages).*1 ↔
  ∃ m, Some m ∈ messages ∧ message_type m = t.
Proof.
  unfold group_by_type.
  induction messages as [|msg messages IH] using rev_ind.
  { simpl. split; [by intros ?%elem_of_nil|].
    intros (m & Hm & _). by apply elem_of_nil in Hm. }
  rewrite foldl_app. cbn [foldl]. destruct msg as [m0|].
  - rewrite al_set_keys, IH. split.
    + intros [->|(m & Hm & Ht)].
      * exists m0. split; [|done]. apply elem_of_app. right. by left.
      * exists m. split; [|done]. apply elem_of_app. by left.
    + intros (m & [Hm|Hm%list_elem_of_singleton]%elem_of_app & Ht).
      * right. by exists m.
      * left. by injection Hm as ->.
  - rewrite IH. split.
    + intros (m & Hm & Ht). exists m. split; [|done].
      apply elem_of_app. by left.
    + intros (m & [Hm|Hm%list_elem_of_singleton]%elem_of_app & Ht); [|done].
      by exists m.
Qed.

Lemma for_each_al_set_keys {A B} (f : A → pyresult B)
    (l : list (string * A)) (acc d : list (string * B)) :
  for_each (λ sequence_data '(msg_type, msgs),
              p ← f msgs; Ok (al_set msg_type p sequence_data)) l acc
  = Ok d →
  NoDup (acc.*1 ++ l.*1) → d.*1 = acc.*1 ++ l.*1.
Proof.
  revert acc. induction l as [|[t a] l IH]; intros acc.
  { simpl. intros [= <-] _. by rewrite app_nil_r. }
  cbn [for_each]. destruct (f a) as [p|e]; [|done]. simpl.
  intros Hd Hnd. rewrite (IH _ Hd).
  - rewrite al_set_fresh.
    + rewrite fmap_app. simpl. by rewrite <- app_assoc.
    + apply NoDup_app in Hnd as (_ & Hdisj & _). intros Hin.
      apply (Hdisj _ Hin). by left.
  - rewrite al_set_fresh.
    + rewrite fmap_app. simpl. by rewrite <- app_assoc.
    + apply NoDup_app in Hnd as (_ & Hdisj & _). intros Hin.
      apply (Hdisj _ Hin). by left.
Qed.

Lemma category_marker_free_names t messages :
  category_marker_free t messages
  = names_marker_free (Some <$> of_type t messages).
Proof.
  unfold category_marker_free, names_marker_free.
  induction (of_type t messages) as [|m l IH]; [done|].
  cbn [forallb fmap list_fmap]. by rewrite IH.
Qed.

(** C3, category by category: the profiler returns, its result has exactly
    one entry for each message type that occurs among the decoded messages,
    the entry of a category carries the number of its decoded messages as
    total, and when the segment names of that category are free of the
    marker characters (the plus sign and the square brackets), the counts
    of its final patterns add up to that total, whatever the names in the
    other categories are. *)
Theorem pattern_counts_sum_to_category_total
    (messages : list (option message)) :
  ∃ d, profile_sequences_by_message_type messages = Ok d ∧
       NoDup d.*1 ∧
       (∀ t, (∃ m, Some m ∈ messages ∧ message_type m = t) ↔
             ∃ p, (t, p) ∈ d) ∧
       ∀ t p, (t, p) ∈ d →
              total_messages p = length (of_type t messages) ∧
              (category_marker_free t messages = true →
               sum_counts (common_sequences p) = total_messages p).
Proof.
  unfold profile_sequences_by_message_type.
  destruct (group_by_type_spec messages) as [Hnd Hfind].
  match goal with |- context [for_each ?b _ _] => set (body := b) end.
  destruct (for_each_total body (group_by_type messages) []) as [d Hd].
  { intros s [t msgs]. unfold body.
    destruct (profile_sequences_for_type_total msgs) as [p ->]. by eexists. }
  exists d. split; [done|].
  assert (Hkeys : d.*1 = (group_by_type messages).*1).
  { apply for_each_al_set_keys in Hd; [|done]. by simpl in Hd. }
  split; [by rewrite Hkeys|]. split.
  { intros t. rewrite <- group_by_type_keys, <- Hkeys. split.
    - intros ([t' p] & -> & Hin)%list_elem_of_fmap. by exists p.
    - intros [p Hin]. apply list_elem_of_fmap. by exists (t, p). }
  assert (Hfrom : ∀ t p, (t, p) ∈ d →
    ∃ msgs, (t, msgs) ∈ group_by_type messages ∧
            profile_sequences_for_type msgs = Ok p).
  { apply (for_each_inv
             (λ d, ∀ t p, (t, p) ∈ d →
                ∃ msgs, (t, msgs) ∈ group_by_type messages ∧
                        profile_sequences_for_type msgs = Ok p)
             body (group_by_type messages) [] d); [| |exact Hd].
    - intros s [t0 msgs0] s' Hin Hs. unfold body.
      destruct (profile_sequences_for_type msgs0) as [p0|e] eqn:Hp0; [|done].
      simpl. intros [= <-] t p [[= -> ->]|Hold]%al_set_elem.
      + by exists msgs0.
      + by apply Hs.
    - by intros t p ?%elem_of_nil. }
  intros t p Htp. destruct (Hfrom t p Htp) as (msgs & Hin & Hp).
  apply al_elem_find in Hin; [|done].
  pose proof (Hfind t) as Hmsgs. rewrite Hin in Hmsgs. simpl in Hmsgs.
  subst msgs. split.
  - apply profile_sequences_for_type_total_messages in Hp.
    by rewrite Hp, length_fmap.
  - rewrite category_marker_free_names. intros Hfree.
    apply profile_sequences_for_type_counts in Hp as [Hsum Htotal]; [|done].
    rewrite decoded_Some in Hsum. rewrite length_fmap in Htotal.
    by rewrite Hsum, Htotal.
Qed.

Lemma pattern_counts_sum_to_category_total_witness :
  names_marker_free two_category_corpus = false ∧
  category_marker_free "T2" two_category_corpus = true ∧
  ∃ d p, profile_sequences_by_message_type two_category_corpus = Ok d ∧
         ("T2", p) ∈ d ∧
         sum_counts (common_sequences p) = total_messages p ∧
         total_messages p = 2.
Proof.
  split; [reflexivity|]. split; [reflexivity|].
  destruct (pattern_counts_sum_to_category_total two_category_corpus)
    as (d & Hd & _ & Hcat & Hsum).
  destruct (proj1 (Hcat "T2")) as [p Hp].
  { exists (mkMessage "T2" (bare_segment <$> ["MSH"])). split; [|reflexivity].
    unfold two_category_corpus. do 3 right. left. }
  exists d, p. split; [exact Hd|]. split; [exact Hp|].
  destruct (Hsum "T2" p Hp) as [Htotal Hfree].
  split; [apply Hfree; reflexivity|exact Htotal].
Defined.

(** C3 as stated fails on [marked_corpus]: the canonical sequences A and A+
    are both annotated to the pattern A+, the second count overwrites the
    first, and the one final pattern counts 1 of the 2 messages. *)
Lemma marked_segment_name_loses_a_message :
  names_marker_free marked_corpus = false ∧
  category_marker_free "T" marked_corpus = false ∧
  ∃ p, profile_sequences_by_message_type marked_corpus = Ok [("T", p)] ∧
       pattern_counts p = [(["[A+]"], 1)] ∧
       sum_counts (common_sequences p) = 1 ∧
       total_messages p = 2.
Proof.
  split; [reflexivity|]. split; [reflexivity|].
  eexists. split; [vm_compute; reflexivity|].
  vm_compute. done.
Qed.

(** * Further properties of the sources *)

(** ** PHI fields *)

Lemma prefix_app (p s t : string) :
  String.prefix p s = true → String.prefix p (s +:+ t) = true.
Proof.
  revert p. induction s as [|d s IH]; intros p.
  - destruct p; [|done]. intros _. by destruct t.
  - destruct p as [|c p]; [done|].
    change (String d s +:+ t) with (String d (s +:+ t)). simpl.
    destruct (ascii_dec c d); [apply IH|done].
Qed.

Lemma prefix_refl (s : string) : String.prefix s s = true.
Proof.
  induction s as [|c s IH]; simpl; [done|]. by destruct (ascii_dec c c).
Qed.

Lemma full_path_app (segment field_path suffix : string) :
  segment +:+ "." +:+ field_path +:+ suffix
  = (segment +:+ "." +:+ field_path) +:+ suffix.
Proof. by rewrite !append_assoc. Qed.

Lemma phi_prefixes_are_fields :
  PHI_PREFIXES = PHI_FIELDS ∧ SpecBuilder.PHI_PREFIXES = SpecBuilder.PHI_FIELDS.
Proof. split; vm_compute; reflexivity. Qed.

Lemma listed_prefix (listed : list string) (full_path : string) :
  bool_decide (full_path ∈ listed)
  || existsb (λ prefix, String.prefix prefix full_path) listed = true ↔
  ∃ f, f ∈ listed ∧ String.prefix f full_path = true.
Proof.
  rewrite orb_true_iff, bool_decide_eq_true, existsb_exists. split.
  - intros [Hin|(f & Hf & Hp)].
    + exists full_path. split; [done|apply prefix_refl].
    + exists f. split; [by apply list_elem_of_In|done].
  - intros (f & Hf & Hp). right. exists f. split; [by apply list_elem_of_In|done].
Qed.

(** X1: a path is a PHI path exactly when one of the listed paths is a
    prefix of its text; hence every text extension of a PHI path is a PHI
    path (the components of a listed field, and also field 50 next to the
    listed field 5). *)
Theorem is_phi_field_prefix_closed :
  (∀ segment field_path,
     is_phi_field segment field_path = true ↔
     ∃ f, f ∈ PHI_FIELDS ∧
          String.prefix f (segment +:+ "." +:+ field_path) = true) ∧
  (∀ segment field_path suffix,
     is_phi_field segment field_path = true →
     is_phi_field segment (field_path +:+ suffix) = true).
Proof.
  assert (Hchar : ∀ segment field_path,
    is_phi_field segment field_path = true ↔
    ∃ f, f ∈ PHI_FIELDS ∧
         String.prefix f (segment +:+ "." +:+ field_path) = true).
  { intros segment field_path. unfold is_phi_field. cbv zeta.
    rewrite (proj1 phi_prefixes_are_fields). apply listed_prefix. }
  split; [done|]. intros segment field_path suffix.
  rewrite !Hchar. intros (f & Hf & Hp). exists f. split; [done|].
  rewrite full_path_app. by apply prefix_app.
Qed.

Lemma is_phi_field_prefix_closed_witness :
  is_phi_field "PID" "5" = true ∧ is_phi_field "PID" "50" = true.
Proof.
  split; [reflexivity|].
  apply (proj2 is_phi_field_prefix_closed "PID" "5" "0"). reflexivity.
Defined.

(** X2: every path that [hl7_fields.is_phi_field] takes for PHI is also PHI
    for the list of the spec builder. *)
Theorem is_phi_field_local_covers (segment field_path : string) :
  is_phi_field segment field_path = true →
  SpecBuilder.is_phi_field_local segment field_path = true.
Proof.
  unfold is_phi_field, SpecBuilder.is_phi_field_local. cbv zeta.
  rewrite (proj1 phi_prefixes_are_fields), (proj2 phi_prefixes_are_fields).
  rewrite !listed_prefix. intros (f & Hf & Hp). exists f. split; [|done].
  assert (Hsub : Forall (λ f, f ∈ SpecBuilder.PHI_FIELDS) PHI_FIELDS).
  { unfold PHI_FIELDS. repeat constructor; by apply bool_decide_eq_true. }
  rewrite Forall_forall in Hsub. by apply Hsub.
Qed.

Lemma is_phi_field_local_covers_witness :
  is_phi_field "PID" "11.2" = true ∧
  SpecBuilder.is_phi_field_local "PID" "11.2" = true.
Proof.
  split; [reflexivity|].
  apply (is_phi_field_local_covers "PID" "11.2"). reflexivity.
Defined.

(** X3: unique values are never listed for a path that extends a PHI path
    of the spec builder, nor for a counter that holds the overflow sentinel
    or more than 100 keys, whatever the other arguments are. *)
Theorem should_collect_unique_values_never :
  (∀ seg_name field_path suffix values hl7_type,
     SpecBuilder.is_phi_field_local seg_name field_path = true →
     SpecBuilder.should_collect_unique_values seg_name (field_path +:+ suffix)
       values hl7_type = false) ∧
  (∀ seg_name field_path values hl7_type,
     "__TOO_MANY__" ∈ al_keys values ∨ 100 < length values →
     SpecBuilder.should_collect_unique_values seg_name field_path values
       hl7_type = false).
Proof.
  split.
  - intros seg_name field_path suffix values hl7_type.
    unfold SpecBuilder.should_collect_unique_values.
    unfold SpecBuilder.is_phi_field_local. cbv zeta.
    rewrite (proj2 phi_prefixes_are_fields). intros Hphi.
    apply listed_prefix in Hphi as (f & Hf & Hp).
    assert (Hext : bool_decide
              (seg_name +:+ "." +:+ field_path +:+ suffix
               ∈ SpecBuilder.PHI_FIELDS)
            || existsb (λ prefix,
                 String.prefix prefix
                   (seg_name +:+ "." +:+ field_path +:+ suffix))
                 SpecBuilder.PHI_FIELDS = true).
    { apply listed_prefix. exists f. split; [done|].
      rewrite full_path_app. by apply prefix_app. }
    by rewrite Hext.
  - intros seg_name field_path values hl7_type Hover.
    unfold SpecBuilder.should_collect_unique_values.
    destruct (SpecBuilder.is_phi_field_local seg_name field_path); [done|].
    destruct Hover as [Hs|Hlen].
    + by rewrite bool_decide_true.
    + apply Nat.ltb_lt in Hlen. rewrite Hlen. by rewrite orb_true_r.
Qed.

Lemma should_collect_unique_values_never_witness :
  SpecBuilder.is_phi_field_local "GT1" "2" = true ∧
  SpecBuilder.should_collect_unique_values "GT1" "25" [("x", 1)] "ST"
  = false ∧
  SpecBuilder.should_collect_unique_values "OBX" "5" [("__TOO_MANY__", 1)]
    "ST" = false.
Proof.
  split; [reflexivity|]. split.
  - apply (proj1 should_collect_unique_values_never "GT1" "2" "5").
    reflexivity.
  - apply (proj2 should_collect_unique_values_never "OBX" "5").
    left. cbn. left.
Defined.

(** ** The tree of statistics objects under the updates of one message *)

Lemma stats_at_put {mt sg pa mt' sg' pa'} st
    (fs : list (string * list (string * list (string * FieldStats)))) :
  stats_at mt sg pa (dd3_put mt' sg' pa' st fs) =
  if decide ((mt, sg, pa) = (mt', sg', pa')) then st else stats_at mt sg pa fs.
Proof.
  unfold stats_at. case_decide as Hk.
  - injection Hk as -> -> ->. by rewrite dd3_find_put_eq.
  - by rewrite dd3_find_put_ne.
Qed.

(** Every update of the tree made for a message of category [mt'] stores,
    at some key, an object reached from the stored one by calls of
    [process_field_value] for that key.  [R] abstracts those calls and [J]
    is a property of the tree (and of the set of counted keys) that such
    updates keep. *)
Section TreeUpdates.
Context `{Vocabulary}.
Variable mt' : string.
Variable R : string → string →
             FieldStats * gset string → FieldStats * gset string → Prop.
Variable J : list (string * list (string * list (string * FieldStats)))
             * gset string → Prop.
Hypothesis R_refl : ∀ sg pa x, R sg pa x x.
Hypothesis R_trans : ∀ sg pa x y z, R sg pa x y → R sg pa y z → R sg pa x z.
Hypothesis R_step : ∀ value pa st seen sg,
  R sg pa (st, seen) (process_field_value value pa st seen sg).
Hypothesis J_update : ∀ fs seen sg pa st' seen',
  J (fs, seen) → R sg pa (stats_at mt' sg pa fs, seen) (st', seen') →
  J (dd3_put mt' sg pa st' fs, seen').

Lemma collapsed_related value pa st seen sg :
  R sg pa (st, seen) (process_complex_field_collapsed value pa st seen sg).
Proof.
  unfold process_complex_field_collapsed.
  assert (Hsingle : ∀ v st seen,
    R sg pa (st, seen)
      (if bool_decide (collapse_complex_components v ≠ "")
       then process_field_value (PStr (collapse_complex_components v))
              pa st seen sg
       else (st, seen))).
  { intros. case_bool_decide; [apply R_step|apply R_refl]. }
  destruct value as [s|l]; [apply Hsingle|].
  pose proof (Hsingle (PList l) st seen) as Hsingle0.
  destruct (forallb is_list l); [|apply Hsingle0].
  clear Hsingle0. revert st seen.
  induction l as [|r reps IH]; intros st seen; [apply R_refl|].
  simpl. eapply R_trans; [apply (Hsingle r)|].
  destruct (if bool_decide _ then _ else _) as [st' seen']. apply IH.
Qed.

Lemma record_at_kept value sg pa st :
  J st → J (record_at value mt' sg pa st).
Proof.
  destruct st as [fs seen]. intros Hinv. unfold record_at.
  pose proof (R_step value pa (stats_at mt' sg pa fs) seen sg) as Hstep.
  destruct (process_field_value _ _ _ _ _) as [st' seen'].
  by eapply J_update.
Qed.

Lemma process_components_kept base sg components st (i : nat) :
  J st →
  J (foldl (λ '(st, i) component,
              if py_truthy component || py_str_strip_truthy component then
                (record_at component mt' sg (base +:+ "." +:+ pretty (i + 1))
                   st, i + 1)
              else (st, i + 1))
           (st, i) components).1.
Proof.
  revert st i. induction components as [|c cs IH]; intros st i Hinv; [done|].
  simpl. destruct (py_truthy c || py_str_strip_truthy c); apply IH;
    auto using record_at_kept.
Qed.

Lemma process_repetition_kept sbc base sg st repetition :
  J st → J (process_repetition sbc base mt' sg st repetition).
Proof.
  intros Hinv. unfold process_repetition.
  destruct repetition as [s|components].
  - repeat case_match; auto using record_at_kept.
  - destruct (cval_truthy sbc); [|by apply record_at_kept].
    by apply process_components_kept.
Qed.

Lemma process_field_unified_kept field_value base fs sg seen is_repeating
    cache :
  J (fs, seen) →
  J (process_field_unified field_value base fs mt' sg seen is_repeating
       cache).1.
Proof.
  intros Hinv. unfold process_field_unified.
  destruct (cached_datatype _ _ _) as [hl7_type cache1].
  case_match.
  - pose proof (collapsed_related field_value base
                  (stats_at mt' sg base fs) seen sg) as Hrel.
    destruct (process_complex_field_collapsed _ _ _ _ _) as [st' seen'].
    simpl. by eapply J_update.
  - destruct (is_complex_type _ _) as [sbc cache2].
    match goal with
    | |- context [foldl ?f ?a ?l] => assert (Hfold : J (foldl f a l))
    end.
    { generalize (if is_repeating
                  then match field_value with
                       | PStr _ => [field_value]
                       | PList l => l
                       end
                  else [field_value]).
      intros reps. revert Hinv. generalize (fs, seen).
      induction reps as [|r reps IH]; intros st Hst; [done|].
      simpl. apply IH. by apply process_repetition_kept. }
    destruct (foldl _ _ _) as [fs' seen']. done.
Qed.

Lemma process_fields_kept sg reps values fs rt seen cache i :
  J (fs, seen) →
  let '(fs', _, seen', _, _) :=
    foldl (process_field mt' sg reps) (fs, rt, seen, cache, i) values in
  J (fs', seen').
Proof.
  revert fs rt seen cache i.
  induction values as [|v values IH]; intros fs rt seen cache i Hinv; [done|].
  cbn [foldl]. unfold process_field at 2.
  pose proof (process_field_unified_kept v (pretty i) fs sg seen
                (bool_decide (pretty i ∈ reps)) cache Hinv) as Hu.
  destruct (process_field_unified _ _ _ _ _ _ _ _) as [[fs' seen'] cache'].
  by apply IH.
Qed.

Lemma process_message_kept msg fs rt totals cache :
  message_type msg = mt' → J (fs, ∅) →
  ∃ seen', J ((process_message msg (fs, rt, totals, cache)).1.1.1, seen').
Proof.
  intros Hmt Hinv. unfold process_message. rewrite Hmt.
  match goal with
  | |- context [foldl ?f (fs, rt, ∅, cache) ?l] =>
      assert (Hfold : ∀ l' fs rt seen c,
        J (fs, seen) →
        let '(fs', _, seen', _) := foldl f (fs, rt, seen, c) l' in
        J (fs', seen'))
  end.
  { induction l' as [|s l' IH]; intros fs0 rt0 seen c Hinv0; [done|].
    cbn [foldl].
    pose proof (process_fields_kept (name s) (repeating_fields s) (fields s)
                  fs0 rt0 seen c 1 Hinv0) as Hstep.
    destruct (foldl (process_field _ _ _) _ _)
      as [[[[fs1 rt1] seen1] cache1] i1].
    by apply IH. }
  specialize (Hfold (segments msg) fs rt ∅ cache Hinv).
  destruct (foldl _ _ (segments msg)) as [[[fs' rt'] seen'] cache'].
  simpl. by exists seen'.
Qed.

End TreeUpdates.

(** ** The statistics objects of the aggregator *)

Lemma counter_incr_length_le {K} `{EqDecision K} (k : K) (c : list (K * nat)) :
  length (counter_incr k c) ≤ S (length c).
Proof.
  unfold counter_incr. destruct (al_find k c) as [n|] eqn:Hk.
  - rewrite al_set_length_present; [lia|]. by rewrite Hk.
  - by rewrite al_set_length_fresh.
Qed.

Lemma add_value_sound st v :
  v ≠ "" →
  length (values st) ≤ MAX_UNIQUE →
  (_frozen st = true → values st = [("__TOO_MANY__", 1)]) →
  (_frozen st = false →
     presence_count st ≤ S (counter_total (values st))
     ∧ "" ∉ al_keys (values st)) →
  stats_sound (add_value st v).
Proof.
  intros Hv Hlen Hfr Hpc. unfold add_value.
  destruct (_frozen st) eqn:Hf.
  { split; [done|]. split; [auto|]. intros; congruence. }
  destruct (Nat.ltb_spec (length (values st)) MAX_UNIQUE) as [Hlt|Hge].
  - split; simpl.
    + pose proof (counter_incr_length_le v (values st)). lia.
    + split; [congruence|]. intros _. destruct (Hpc eq_refl) as [Hp Hk].
      rewrite counter_incr_total. split; [done|].
      unfold al_keys, counter_incr. rewrite al_set_keys.
      intros [?|?]; [by subst|done].
  - split; simpl; [unfold MAX_UNIQUE; lia|]. split; [done|]. done.
Qed.

Lemma process_field_value_sound value pa st seen sg :
  stats_sound st → stats_sound (process_field_value value pa st seen sg).1.
Proof.
  intros Hs. unfold process_field_value.
  destruct (_frozen st) eqn:Hf; [done|].
  case_bool_decide as Hv; [done|]. destruct Hs as (Hlen & Hfr & Hpc).
  destruct (Hpc Hf) as [Hp Hk].
  case_bool_decide; simpl; apply add_value_sound; simpl; try done.
  - intros _. split; [lia|done].
  - intros _. split; [lia|done].
Qed.

Lemma aggregate_fold_kept `{Vocabulary}
    (I : list (string * list (string * list (string * FieldStats)))
         * list (string * nat) → Prop) messages fs rt totals cache :
  (∀ msg fs rt totals cache,
     I (fs, totals) →
     I ((process_message msg (fs, rt, totals, cache)).1.1.1,
        (process_message msg (fs, rt, totals, cache)).1.2)) →
  I (fs, totals) →
  I ((foldl (λ st msg, match msg with
                       | None => st
                       | Some msg => process_message msg st
                       end) (fs, rt, totals, cache) messages).1.1.1,
     (foldl (λ st msg, match msg with
                       | None => st
                       | Some msg => process_message msg st
                       end) (fs, rt, totals, cache) messages).1.2).
Proof.
  intros Hstep. revert fs rt totals cache.
  induction messages as [|[msg|] messages IH]; intros fs rt totals cache Hinv;
    cbn [foldl]; [done| |by apply IH].
  pose proof (Hstep msg fs rt totals cache Hinv) as Hnext.
  destruct (process_message msg (fs, rt, totals, cache))
    as [[[fs1 rt1] totals1] cache1].
  by apply IH.
Qed.

(** X4: every statistics object that the aggregation loop leaves in the
    tree holds at most 100 keys; if frozen it holds the sentinel alone; if
    not, its presence count is at most the sum of its value counts and the
    empty string is none of its keys. *)
Theorem aggregate_loop_stats_sound `{Vocabulary}
    (messages : list (option message)) (cache : gmap cval cval)
    (msg_type seg_name field_path : string) :
  stats_sound
    (stats_at msg_type seg_name field_path
       (aggregate_loop messages cache).1.1.1).
Proof.
  unfold aggregate_loop.
  pose proof (aggregate_fold_kept
    (λ x, ∀ mt sg pa, stats_sound (stats_at mt sg pa x.1))
    messages [] [] [] cache) as Hfold.
  simpl in Hfold. apply Hfold.
  - intros msg fs rt totals c Hinv.
    destruct (process_message_kept (message_type msg)
                (λ _ _ a b, stats_sound a.1 → stats_sound b.1)
                (λ x, ∀ mt sg pa, stats_sound (stats_at mt sg pa x.1)))
      with (msg := msg) (fs := fs) (rt := rt) (totals := totals) (cache := c)
      as [seen' Hres]; try done.
    + auto.
    + intros value pa st seen sg. apply process_field_value_sound.
    + intros fs0 seen sg pa st' seen' Hall Hrel mt0 sg0 pa0. simpl in *.
      rewrite stats_at_put. case_decide; [|apply Hall].
      apply Hrel, Hall.
  - intros mt sg pa. unfold stats_at, dd3_find, dd2_get. simpl.
    split; [unfold MAX_UNIQUE; simpl; lia|]. split; [done|].
    intros _. simpl. split; [lia|]. apply not_elem_of_nil.
Qed.

(** ** Message totals and presence counts *)

Lemma process_message_totals `{Vocabulary} msg fs rt totals cache :
  (process_message msg (fs, rt, totals, cache)).1.2
  = counter_incr (message_type msg) totals.
Proof.
  unfold process_message. by destruct (foldl _ _ _) as [[[? ?] ?] ?].
Qed.

Lemma counter_incr_find_ne {K} `{EqDecision K} (k k' : K) (c : list (K * nat)) :
  k ≠ k' → al_find k (counter_incr k' c) = al_find k c.
Proof. intros Hne. unfold counter_incr. by rewrite al_find_set_ne. Qed.

Lemma of_type_cons_Some t m messages :
  of_type t (Some m :: messages)
  = if decide (message_type m = t) then m :: of_type t messages
    else of_type t messages.
Proof.
  unfold of_type. change (decoded (Some m :: messages)) with (m :: decoded messages).
  by rewrite filter_cons.
Qed.

Lemma process_message_presence `{Vocabulary} msg fs rt totals cache mt sg pa :
  presence_count
    (stats_at mt sg pa (process_message msg (fs, rt, totals, cache)).1.1.1)
  ≤ presence_count (stats_at mt sg pa fs)
    + (if decide (message_type msg = mt) then 1 else 0).
Proof.
  case_decide as Hmt.
  - destruct (process_message_kept (message_type msg)
                (λ sg' pa', once (sg' +:+ "." +:+ pa'))
                (counted_once mt sg pa (presence_count (stats_at mt sg pa fs))))
      with (msg := msg) (fs := fs) (rt := rt) (totals := totals)
           (cache := cache) as [seen' [Hle _]]; try done.
    + intros. apply once_refl.
    + intros. by eapply once_trans.
    + intros. apply process_field_value_once.
    + intros. by eapply counted_once_update.
    + split; simpl; unfold presence_at; lia.
  - destruct (process_message_kept (message_type msg)
                (λ _ _ _ _, True)
                (λ x, stats_at mt sg pa x.1 = stats_at mt sg pa fs))
      with (msg := msg) (fs := fs) (rt := rt) (totals := totals)
           (cache := cache) as [seen' Heq]; try done.
    + intros fs0 seen sg' pa' st' seen0 Hold _. simpl in *.
      rewrite stats_at_put. case_decide as Hk; [|done]. by injection Hk.
    + cbn [fst] in Heq. rewrite Heq. lia.
Qed.

Lemma aggregate_fold_totals `{Vocabulary} msgs fs rt totals c t :
  let r := foldl (λ st msg, match msg with
                            | None => st
                            | Some msg => process_message msg st
                            end) (fs, rt, totals, c) msgs in
  default 0 (al_find t r.1.2)
  = default 0 (al_find t totals) + length (of_type t msgs) ∧
  counter_total r.1.2 = counter_total totals + length (decoded msgs).
Proof.
  revert fs rt totals c.
  induction msgs as [|[msg|] msgs IH]; intros fs rt totals c; cbn [foldl].
  - simpl. unfold of_type. simpl. lia.
  - pose proof (process_message_totals msg fs rt totals c) as Htot.
    destruct (process_message msg (fs, rt, totals, c))
      as [[[fs1 rt1] totals1] c1]. simpl in Htot.
    destruct (IH fs1 rt1 totals1 c1) as [IH1 IH2].
    rewrite of_type_cons_Some. subst totals1. cbv zeta. split.
    + rewrite IH1. case_decide as Hmt.
      * rewrite <- Hmt, counter_incr_get. simpl. lia.
      * rewrite counter_incr_find_ne by done. lia.
    + rewrite IH2, counter_incr_total.
      change (decoded (Some msg :: msgs)) with (msg :: decoded msgs).
      simpl. lia.
  - apply IH.
Qed.

Lemma aggregate_fold_presence `{Vocabulary} msgs fs rt totals c
    (msg_type seg_name field_path : string) :
  presence_count
    (stats_at msg_type seg_name field_path
       (foldl (λ st msg, match msg with
                         | None => st
                         | Some msg => process_message msg st
                         end) (fs, rt, totals, c) msgs).1.1.1)
  ≤ presence_count (stats_at msg_type seg_name field_path fs)
    + length (of_type msg_type msgs).
Proof.
  revert fs rt totals c.
  induction msgs as [|[msg|] msgs IH]; intros fs rt totals c; cbn [foldl].
  - simpl. lia.
  - pose proof (process_message_presence msg fs rt totals c msg_type seg_name
                  field_path) as Hpres.
    destruct (process_message msg (fs, rt, totals, c))
      as [[[fs1 rt1] totals1] c1]. simpl in Hpres.
    rewrite of_type_cons_Some.
    etrans; [apply IH|]. case_decide; simpl; lia.
  - apply IH.
Qed.

(** X5: in the state the aggregation loop leaves, no field of a category
    is present in more messages than the total recorded for the category,
    which is the number of decoded messages of that category. *)
Theorem aggregate_loop_presence_le_total `{Vocabulary}
    (messages : list (option message)) (cache : gmap cval cval)
    (msg_type seg_name field_path : string) :
  presence_count
    (stats_at msg_type seg_name field_path
       (aggregate_loop messages cache).1.1.1)
  ≤ default 0 (al_find msg_type (aggregate_loop messages cache).1.2) ∧
  default 0 (al_find msg_type (aggregate_loop messages cache).1.2)
  = length (of_type msg_type messages).
Proof.
  unfold aggregate_loop.
  destruct (aggregate_fold_totals messages [] [] [] cache msg_type)
    as [Htot _]. cbv zeta in Htot. rewrite Htot. simpl. split; [|done].
  etrans; [apply aggregate_fold_presence|]. simpl. lia.
Qed.

(** ** The output of [aggregate_data]: totals *)

Lemma group_by_type_nonempty messages t msgs :
  (t, msgs) ∈ group_by_type messages → msgs ≠ [].
Proof.
  unfold group_by_type. revert t msgs.
  induction messages as [|msg messages IH] using rev_ind; intros t msgs.
  { by intros ?%elem_of_nil. }
  rewrite foldl_app. cbn [foldl]. destruct msg as [m|]; [|apply IH].
  intros [[= -> ->]|Hold]%al_set_elem; [|by eapply IH].
  by destruct (default [] _).
Qed.

Lemma profile_sequences_by_message_type_entries messages d t p :
  profile_sequences_by_message_type messages = Ok d → (t, p) ∈ d →
  of_type t messages ≠ [] ∧
  profile_sequences_for_type (Some <$> of_type t messages) = Ok p.
Proof.
  unfold profile_sequences_by_message_type. intros Hd Htp.
  destruct (group_by_type_spec messages) as [Hnd Hfind].
  assert (Hfrom : ∃ msgs, (t, msgs) ∈ group_by_type messages ∧
                          profile_sequences_for_type msgs = Ok p).
  { revert t p Htp.
    match type of Hd with for_each ?body _ _ = _ =>
      apply (for_each_inv
               (λ d, ∀ t p, (t, p) ∈ d →
                  ∃ msgs, (t, msgs) ∈ group_by_type messages ∧
                          profile_sequences_for_type msgs = Ok p)
               body (group_by_type messages) [] d); [| |exact Hd] end.
    - intros s [t0 msgs0] s' Hin Hs.
      destruct (profile_sequences_for_type msgs0) as [p0|e] eqn:Hp0; [|done].
      simpl. intros [= <-] t p [[= -> ->]|Hold]%al_set_elem.
      + by exists msgs0.
      + by apply Hs.
    - by intros t p ?%elem_of_nil. }
  destruct Hfrom as (msgs & Hin & Hp).
  pose proof (group_by_type_nonempty _ _ _ Hin) as Hne.
  apply al_elem_find in Hin; [|done].
  pose proof (Hfind t) as Hmsgs. rewrite Hin in Hmsgs. simpl in Hmsgs.
  subst msgs. split; [|done]. by destruct (of_type t messages).
Qed.

(** X6: in the result of [aggregate_data], [total] counts all list entries
    (also the messages that failed to decode), the totals by category add
    up to the decoded messages, and the sequence profile of each category
    carries the category's total, which is not zero. *)
Theorem aggregate_data_totals `{Vocabulary}
    (messages : list (option message)) (cache cache' : gmap cval cval)
    (a : aggregated) :
  aggregate_data messages cache = Ok (a, cache') →
  agg_total a = length messages ∧
  counter_total (agg_totals_by_type a) = length (decoded messages) ∧
  (∀ t, default 0 (al_find t (agg_totals_by_type a))
        = length (of_type t messages)) ∧
  (∀ t p, (t, p) ∈ agg_sequence_profiles_by_type a →
          0 < total_messages p ∧
          total_messages p = default 0 (al_find t (agg_totals_by_type a))).
Proof.
  unfold aggregate_data, aggregate_loop.
  pose proof (λ t, aggregate_fold_totals messages [] [] [] cache t) as Htot.
  destruct (foldl _ _ messages) as [[[fs rt] totals] c1].
  cbv zeta in Htot. simpl in Htot.
  destruct (to_output fs) as [spec presence].
  destruct (consolidate_single_component_fields spec presence c1)
    as [[[spec' presence'] c2]|e]; [|done].
  destruct (profile_sequences_by_message_type messages) as [d|e] eqn:Hd;
    [|done].
  simpl. intros [= <- <-]. simpl. split; [done|].
  split; [apply (Htot "")|]. split; [intros t; apply (Htot t)|].
  intros t p Htp.
  destruct (profile_sequences_by_message_type_entries _ _ _ _ Hd Htp)
    as [Hne Hp].
  apply profile_sequences_for_type_total_messages in Hp.
  rewrite length_fmap in Hp. rewrite Hp, (proj1 (Htot t)).
  split; [|done]. destruct (of_type t messages); [done|simpl; lia].
Qed.

Lemma aggregate_data_totals_witness :
  ∃ a cache',
    @aggregate_data example_vocabulary small_corpus ∅ = Ok (a, cache') ∧
    agg_total a = 3 ∧
    counter_total (agg_totals_by_type a) = 2.
Proof.
  assert (Hret : returned (@aggregate_data example_vocabulary small_corpus ∅)
                 = true) by (vm_compute; reflexivity).
  destruct (returned_Ok _ Hret) as [[a cache'] Hrun]. clear Hret.
  exists a, cache'. split; [exact Hrun|].
  destruct (@aggregate_data_totals example_vocabulary small_corpus ∅ cache' a
              Hrun) as (Htotal & Hsum & _).
  split; [exact Htotal|exact Hsum].
Defined.

(** ** Normalised values *)

Section StripTwice.
Variable p : ascii → bool.

Lemma lstrip_head (s r : string) (c : ascii) :
  Str.lstrip_with p s = String c r → p c = false.
Proof.
  induction s as [|d s IH]; simpl; [done|].
  destruct (p d) eqn:Hd; [done|]. by intros [= <- _].
Qed.

Lemma rstrip_last_kept (s : string) :
  Str.rstrip_with p s = "" ∨
  ∃ d, last_char (Str.rstrip_with p s) = Some d ∧ p d = false.
Proof.
  induction s as [|c s IH]; simpl; [by left|].
  destruct IH as [->|(d & Hd & Hp)].
  - destruct (p c) eqn:Hc; [by left|right]. by exists c.
  - right. destruct (Str.rstrip_with p s) as [|e r]; [done|].
    by exists d.
Qed.

Lemma strip_with_idemp (s : string) :
  Str.strip_with p (Str.strip_with p s) = Str.strip_with p s.
Proof.
  unfold Str.strip_with at 2 3.
  destruct (Str.lstrip_with p s) as [|c t] eqn:Hl; [done|].
  pose proof (lstrip_head _ _ _ Hl) as Hc.
  destruct (rstrip_last_kept (String c t)) as [He|(d & Hd & Hp)].
  - simpl in He. destruct (Str.rstrip_with p t); [by rewrite Hc in He|done].
  - apply (strip_clean p _ c d); [|done..].
    simpl. by destruct (Str.rstrip_with p t); [rewrite Hc|].
Qed.
End StripTwice.

(** X7: normalising a string a second time changes nothing, and for a
    plain string the collapsing path used for XCN and PPN fields records
    exactly what the ordinary path records. *)
Theorem string_values_record_alike :
  (∀ s, normalize_value (PStr (normalize_value (PStr s)))
        = normalize_value (PStr s)) ∧
  (∀ s field_path stats seen_fields segment_name,
     process_complex_field_collapsed (PStr s) field_path stats seen_fields
       segment_name
     = process_field_value (PStr s) field_path stats seen_fields
         segment_name).
Proof.
  split; [intros s; apply strip_with_idemp|].
  intros s pa st seen sg. unfold process_complex_field_collapsed.
  cbn [collapse_complex_components]. case_bool_decide as Hs.
  - unfold process_field_value. cbn [normalize_value].
    by rewrite (strip_with_idemp Str.is_space s : Str.strip (Str.strip s) = _).
  - unfold process_field_value. cbn [normalize_value].
    rewrite Hs.
    destruct (_frozen st); [done|]. by rewrite bool_decide_true.
Qed.

Lemma collapse_flat (l : list pyval) :
  forallb (λ v, negb (is_list v)) l = true →
  (fix each (vs : list pyval) : list string :=
     match vs with
     | [] => []
     | v :: r =>
         match v with
         | PList _ => collapse_complex_components v
         | PStr s => Str.strip s
         end :: each r
     end) l = flatten_list l.
Proof.
  induction l as [|v l IH]; [done|]. cbn [forallb].
  intros [Hv Hl]%andb_prop. rewrite flatten_list_cons, IH by done.
  by destruct v.
Qed.

(** X8: on a list of strings [collapse_complex_components] and
    [normalize_value] give the same text; on nested lists they can differ,
    as an inner list is stripped of its own carets before it is joined. *)
Theorem collapse_agrees_on_flat_lists :
  (∀ l, forallb (λ v, negb (is_list v)) l = true →
        collapse_complex_components (PList l) = normalize_value (PList l)) ∧
  collapse_complex_components (PList [PList [PStr "a"; PStr ""]; PStr "b"])
  = "a^b" ∧
  normalize_value (PList [PList [PStr "a"; PStr ""]; PStr "b"]) = "a^^b".
Proof.
  split; [|split; vm_compute; reflexivity].
  intros l Hl. cbn [collapse_complex_components normalize_value].
  by rewrite collapse_flat.
Qed.

Lemma collapse_agrees_on_flat_lists_witness :
  collapse_complex_components (PList [PStr " DOE "; PStr ""; PStr "JOHN"])
  = normalize_value (PList [PStr " DOE "; PStr ""; PStr "JOHN"]).
Proof.
  apply (proj1 collapse_agrees_on_flat_lists
           [PStr " DOE "; PStr ""; PStr "JOHN"]).
  reflexivity.
Defined.

(** X9: a value all of whose leaves are blank (empty or white space) is
    not recorded: neither the statistics object nor the set of counted keys
    changes. *)
Theorem process_field_value_ignores_blank (value : pyval)
    (field_path : string) (stats : FieldStats) (seen_fields : gset string)
    (segment_name : string) :
  Forall (λ s, Str.all_chars Str.is_space s = true) (leaves value) →
  process_field_value value field_path stats seen_fields segment_name
  = (stats, seen_fields).
Proof.
  intros Hblank.
  assert (Hn : normalize_value value = "").
  { destruct value as [s|l]; cbn [normalize_value].
    - apply Forall_inv in Hblank. by apply strip_only_separators.
    - unfold Str.strip_chars. apply strip_only_separators.
      apply join_all_blank. unfold flatten_list.
      rewrite flatten_value_leaves. apply Forall_fmap.
      eapply Forall_impl; [exact Hblank|]. intros s Hs. simpl.
      by apply strip_only_separators. }
  unfold process_field_value. destruct (_frozen stats); [done|].
  by rewrite Hn, bool_decide_true.
Qed.

Lemma process_field_value_ignores_blank_witness :
  process_field_value (PList [PStr " "; PList [PStr ""; PStr "  "]]) "3"
    FieldStats_init ∅ "PID"
  = (FieldStats_init, ∅).
Proof.
  apply (process_field_value_ignores_blank
           (PList [PStr " "; PList [PStr ""; PStr "  "]])).
  repeat constructor.
Defined.

(** ** Pattern elements and their names *)

Lemma clean_segment_name_bracketed (n : string) :
  marker_free n = true →
  clean_segment_name ("[" +:+ n +:+ "]") = n ∧
  clean_segment_name ("[" +:+ n +:+ "+]") = n.
Proof.
  intros Hn. rewrite !clean_segment_name_app.
  rewrite (clean_segment_name_marker_free n) by done.
  split; exact (append_nil_r n).
Qed.

(** X10: [clean_segment_name] removes every marker character and is
    idempotent; for a name without marker characters it undoes each of the
    four forms a pattern element takes. *)
Theorem clean_segment_name_round_trip :
  (∀ s, marker_free (clean_segment_name s) = true ∧
        clean_segment_name (clean_segment_name s) = clean_segment_name s) ∧
  (∀ n, marker_free n = true →
        clean_segment_name n = n ∧
        clean_segment_name (n +:+ "+") = n ∧
        clean_segment_name ("[" +:+ n +:+ "]") = n ∧
        clean_segment_name ("[" +:+ n +:+ "+]") = n).
Proof.
  split.
  - intros s. split; [apply clean_segment_name_is_marker_free|].
    apply clean_segment_name_idemp.
  - intros n Hn. split; [by apply clean_segment_name_marker_free|].
    split; [by apply clean_segment_name_repeat|].
    by apply clean_segment_name_bracketed.
Qed.

Lemma clean_segment_name_round_trip_witness :
  clean_segment_name "OBX" = "OBX" ∧
  clean_segment_name ("OBX" +:+ "+") = "OBX" ∧
  clean_segment_name ("[" +:+ "OBX" +:+ "]") = "OBX" ∧
  clean_segment_name ("[" +:+ "OBX" +:+ "+]") = "OBX".
Proof.
  apply (proj2 clean_segment_name_round_trip "OBX"). reflexivity.
Defined.

(** ** [is_subsequence] *)

Lemma subsequence_scan (shorter longer : list string) (i : nat) :
  i ≤ length shorter →
  foldl (λ i seg,
           match shorter !! i with
           | Some s =>
               if decide (clean_segment_name s = clean_segment_name seg)
               then S i else i
           | None => i
           end) i longer = length shorter ↔
  drop i (clean_segment_name <$> shorter)
    `sublist_of` (clean_segment_name <$> longer).
Proof.
  revert i. induction longer as [|x longer IH]; intros i Hi.
  - simpl. rewrite sublist_nil_r. split.
    + intros ->. by rewrite drop_ge by (rewrite length_fmap; lia).
    + intros Hd. apply (f_equal length) in Hd.
      rewrite length_drop, length_fmap in Hd. simpl in Hd. lia.
  - cbn [foldl]. rewrite fmap_cons.
    destruct (shorter !! i) as [s|] eqn:Hs.
    + pose proof (lookup_lt_Some _ _ _ Hs) as Hlt.
      rewrite (drop_S _ (clean_segment_name s))
        by (by rewrite list_lookup_fmap, Hs).
      case_decide as Heq.
      * rewrite IH by lia. rewrite Heq. split.
        -- apply sublist_skip.
        -- intros [Hsub|(l' & [= <-] & Hsub)]%sublist_cons_r; [|done].
           etrans; [|exact Hsub]. apply sublist_cons. reflexivity.
      * rewrite IH by lia.
        rewrite (drop_S _ (clean_segment_name s))
          by (by rewrite list_lookup_fmap, Hs).
        split.
        -- apply sublist_cons.
        -- intros [Hsub|(l' & [= Hx _] & Hsub)]%sublist_cons_r; [done|].
           by destruct Heq.
    + apply lookup_ge_None in Hs. rewrite IH by done.
      rewrite drop_ge by (rewrite length_fmap; lia).
      split; intros _; apply sublist_nil_l.
Qed.

Lemma is_subsequence_sublist (shorter longer : list string) :
  is_subsequence shorter longer = true ↔
  length shorter < length longer ∧
  (clean_segment_name <$> shorter)
    `sublist_of` (clean_segment_name <$> longer).
Proof.
  unfold is_subsequence.
  destruct (Nat.leb_spec (length longer) (length shorter)) as [Hle|Hlt].
  { split; [done|]. intros [? _]. lia. }
  cbv zeta. rewrite Nat.eqb_eq, subsequence_scan by lia. simpl. tauto.
Qed.

(** X11: [is_subsequence] answers true exactly when its first argument is
    strictly shorter than the second and its names, markers removed, are
    obtained from the names of the second by deleting elements: the greedy
    scan misses no embedding. *)
Theorem is_subsequence_spec (shorter longer : list string) :
  is_subsequence shorter longer = true ↔
  length shorter < length longer ∧
  (clean_segment_name <$> shorter)
    `sublist_of` (clean_segment_name <$> longer).
Proof. apply is_subsequence_sublist. Qed.

(** ** The names of a merged pattern *)

Lemma clean_merge_with_optional v longer shorter total :
  clean_segment_name <$> merge_with_optional_view v longer shorter total
  = clean_segment_name <$> longer.
Proof.
  unfold merge_with_optional_view. rewrite <- list_fmap_compose.
  apply list_fmap_ext. intros i seg _. simpl.
  case_bool_decide; [done|apply clean_segment_name_mark_optional].
Qed.

Lemma clean_find_common_structure v p1 p2 total n :
  n ∈ clean_segment_name <$> find_common_structure_view v p1 p2 total ↔
  n ∈ clean_segment_name <$> p1 ∨ n ∈ clean_segment_name <$> p2.
Proof.
  assert (Hc : clean_segment_name <$> find_common_structure_view v p1 p2 total
               = clean_segment_name
                 <$> (keep_first ∅ p1
                      ++ keep_first
                           (list_to_set (clean_segment_name <$> p1)) p2)).
  { unfold find_common_structure_view. rewrite <- list_fmap_compose.
    apply list_fmap_ext. intros i seg _. simpl.
    destruct (_ && _); [done|apply clean_segment_name_mark_optional]. }
  rewrite Hc, fmap_app, elem_of_app. split.
  - intros [(seg & -> & [Hseg _]%keep_first_elem)%list_elem_of_fmap
           |(seg & -> & [Hseg _]%keep_first_elem)%list_elem_of_fmap].
    + left. by apply list_elem_of_fmap_2.
    + right. by apply list_elem_of_fmap_2.
  - intros [Hn|Hn].
    + destruct (keep_first_covers ∅ p1 n Hn) as [?|?]; [set_solver|by left].
    + destruct (keep_first_covers (list_to_set (clean_segment_name <$> p1))
                  p2 n Hn) as [Hs|?]; [|by right].
      apply elem_of_list_to_set in Hs.
      destruct (keep_first_covers ∅ p1 n Hs) as [?|?]; [set_solver|by left].
Qed.

Lemma try_merge_view_names v p1 p2 total m n :
  try_merge_view v p1 p2 total = Some m →
  n ∈ clean_segment_name <$> m ↔
  n ∈ clean_segment_name <$> p1 ∨ n ∈ clean_segment_name <$> p2.
Proof.
  unfold try_merge_view. case_bool_decide; [done|].
  destruct (is_subsequence p1 p2) eqn:H12.
  { intros [= <-]. rewrite clean_merge_with_optional.
    apply is_subsequence_sublist in H12 as [_ Hsub].
    split; [by right|]. intros [Hn|Hn]; [|done].
    by eapply sublist_subseteq. }
  destruct (is_subsequence p2 p1) eqn:H21.
  { intros [= <-]. rewrite clean_merge_with_optional.
    apply is_subsequence_sublist in H21 as [_ Hsub].
    split; [by left|]. intros [Hn|Hn]; [done|].
    by eapply sublist_subseteq. }
  cbv zeta. destruct (_ && _); [|done]. intros [= <-].
  apply clean_find_common_structure.
Qed.

(** X12: [try_merge_patterns] returns [None] for two equal patterns; a
    pattern it returns is not empty and carries exactly the names of the
    two patterns, none lost and none added; and what [segments_presence]
    reads as is the same after the call. *)
Theorem try_merge_patterns_keeps_names (pattern1 pattern2 : list string)
    (segments_presence : list (string * seg_presence)) (total : nat) :
  (pattern1 = pattern2 →
   (try_merge_patterns pattern1 pattern2 segments_presence total).1 = None) ∧
  (∀ m, (try_merge_patterns pattern1 pattern2 segments_presence total).1
        = Some m →
        m ≠ [] ∧
        ∀ n, n ∈ clean_segment_name <$> m ↔
             n ∈ clean_segment_name <$> pattern1
             ∨ n ∈ clean_segment_name <$> pattern2) ∧
  (∀ k, sp_view
          (try_merge_patterns pattern1 pattern2 segments_presence total).2 k
        = sp_view segments_presence k).
Proof.
  destruct (try_merge_patterns_refines pattern1 pattern2 segments_presence
              total) as [Hr Hv].
  split; [|split].
  - intros ->. unfold try_merge_patterns. by rewrite bool_decide_true.
  - rewrite Hr. intros m Hm. split.
    + by eapply try_merge_view_nonempty.
    + intros n. by eapply try_merge_view_names.
  - exact Hv.
Qed.

Lemma try_merge_patterns_keeps_names_witness :
  (try_merge_patterns ["MSH"; "PID"] ["MSH"; "PID"] [] 2).1 = None ∧
  ∀ n, n ∈ clean_segment_name <$> ["MSH"; "PID"; "[OBX+]"] ↔
       n ∈ clean_segment_name <$> ["MSH"; "PID"; "OBX+"]
       ∨ n ∈ clean_segment_name <$> ["MSH"; "PID"].
Proof.
  split.
  - apply (proj1 (try_merge_patterns_keeps_names ["MSH"; "PID"]
                    ["MSH"; "PID"] [] 2)).
    reflexivity.
  - apply (proj1 (proj2 (try_merge_patterns_keeps_names
                           ["MSH"; "PID"; "OBX+"] ["MSH"; "PID"] [] 2))).
    vm_compute. reflexivity.
Defined.

Lemma is_subsequence_spec_witness :
  is_subsequence ["MSH"; "OBX+"] ["MSH"; "[PID]"; "OBX"] = true.
Proof.
  apply (proj2 (is_subsequence_spec ["MSH"; "OBX+"] ["MSH"; "[PID]"; "OBX"])).
  split; [simpl; lia|].
  change (["MSH"; "OBX"] `sublist_of` ["MSH"; "PID"; "OBX"]).
  apply sublist_skip, sublist_cons, sublist_skip, sublist_nil.
Defined.

(** ** What the profile records about each segment name *)

Lemma occurrences_cons n x names :
  occurrences n (x :: names)
  = (if decide (x = n) then 1 else 0) + occurrences n names.
Proof.
  unfold occurrences. rewrite filter_cons. by case_decide.
Qed.

Lemma scan_segment_repeats order occ uniq sp seg :
  (scan_segment (order, occ, uniq, sp) seg).1.1.2
  = counter_incr (name seg) occ ∧
  ∀ n, repeats (sp_view (scan_segment (order, occ, uniq, sp) seg).2 n) = true ↔
       repeats (sp_view sp n) = true
       ∨ (n = name seg ∧ 1 ≤ default 0 (al_find n occ)).
Proof.
  unfold scan_segment. cbv zeta.
  set (first := if bool_decide (name seg ∈ uniq) then (uniq, sp)
                else let '(e, segments_presence) := sp_get (name seg) sp in
                     (uniq ∪ {[name seg]},
                      al_set (name seg)
                        {| present_in := present_in e + 1;
                           repeats := repeats e |} segments_presence)).
  assert (Hfirst : ∀ n, repeats (sp_view first.2 n) = repeats (sp_view sp n)).
  { unfold first. case_bool_decide as Hu; simpl; [done|].
    destruct (sp_get_view (name seg) sp) as [He Hv].
    destruct (sp_get (name seg) sp) as [e sp1]. simpl in *.
    intros n. rewrite sp_view_set.
    destruct (decide (n = name seg)) as [->|Hne]; [by rewrite He|].
    by rewrite Hv. }
  destruct first as [uniq1 sp1]. simpl in Hfirst. split; [done|].
  intros n. simpl. rewrite counter_incr_get. simpl.
  destruct (default 0 (al_find (name seg) occ)) as [|c] eqn:Hc.
  - simpl. rewrite Hfirst. split; [by left|].
    intros [?|[-> Hle]]; [done|]. rewrite Hc in Hle. lia.
  - change (1 <? S (S c)) with true. cbv iota.
    destruct (sp_get_view (name seg) sp1) as [He Hv].
    destruct (sp_get (name seg) sp1) as [e sp2]. simpl in *.
    rewrite sp_view_set. destruct (decide (n = name seg)) as [->|Hne].
    + simpl. split; [|done]. intros _. right. split; [done|].
      rewrite Hc. lia.
    + rewrite Hv, Hfirst. split; [by left|]. by intros [?|[? _]].
Qed.

Lemma scan_segments_repeats segs order occ uniq sp n :
  let r := foldl scan_segment (order, occ, uniq, sp) segs in
  default 0 (al_find n r.1.1.2)
  = default 0 (al_find n occ) + occurrences n (name <$> segs) ∧
  (repeats (sp_view r.2 n) = true ↔
   repeats (sp_view sp n) = true
   ∨ (1 ≤ occurrences n (name <$> segs) ∧
      2 ≤ default 0 (al_find n occ) + occurrences n (name <$> segs))).
Proof.
  revert order occ uniq sp.
  induction segs as [|seg segs IH]; intros order occ uniq sp; cbv zeta.
  { cbn [foldl]. unfold occurrences. simpl. split; [lia|].
    split; [by left|]. intros [?|[? _]]; [done|lia]. }
  cbn [foldl].
  destruct (scan_segment_repeats order occ uniq sp seg) as [Hocc Hrep].
  destruct (scan_segment (order, occ, uniq, sp) seg)
    as [[[order1 occ1] uniq1] sp1]. simpl in Hocc, Hrep. subst occ1.
  destruct (IH order1 (counter_incr (name seg) occ) uniq1 sp1) as [IH1 IH2].
  cbv zeta in IH1, IH2. rewrite IH1, IH2, Hrep, fmap_cons, occurrences_cons.
  destruct (decide (name seg = n)) as [<-|Hne].
  - rewrite counter_incr_get. simpl. split; [lia|].
    split.
    + intros [[?|[_ Hle]]|[Hle1 Hle2]]; [by left|right; lia|right; lia].
    + intros [?|[_ Hle]]; [by left; left|].
      destruct (default 0 (al_find (name seg) occ)) as [|c].
      * right. lia.
      * left. right. split; [done|lia].
  - rewrite counter_incr_find_ne by done. split; [lia|]. split.
    + intros [[?|[? _]]|[Hle1 Hle2]]; [by left|done|right; lia].
    + intros [?|[Hle1 Hle2]]; [by left; left|right; lia].
Qed.

Lemma scan_messages_repeats msgs canon sp n :
  repeats
    (sp_view
       (foldl (λ '(canonical_sequences, segments_presence) msg,
                 match msg with
                 | None => (canonical_sequences, segments_presence)
                 | Some msg =>
                     let '(segment_order, _, _, segments_presence) :=
                       foldl scan_segment ([], [], ∅, segments_presence)
                         (segments msg) in
                     (canonical_sequences ++ [segment_order],
                      segments_presence)
                 end) (canon, sp) msgs).2 n) = true ↔
  repeats (sp_view sp n) = true
  ∨ ∃ m, Some m ∈ msgs ∧ 2 ≤ occurrences n (segment_names m).
Proof.
  revert canon sp. induction msgs as [|[m|] msgs IH]; intros canon sp.
  - cbn [foldl]. simpl. split; [by left|].
    intros [?|(m & Hm & _)]; [done|]. by apply elem_of_nil in Hm.
  - cbn [foldl].
    destruct (scan_segments_repeats (segments m) [] [] ∅ sp n) as [_ Hrep].
    cbv zeta in Hrep.
    destruct (foldl scan_segment _ (segments m))
      as [[[order1 occ1] uniq1] sp1]. simpl in Hrep.
    rewrite IH, Hrep. unfold segment_names. split.
    + intros [[?|[_ Hle]]|(m' & Hm' & Hle)]; [by left| |].
      * right. exists m. split; [by left|done].
      * right. exists m'. split; [by right|done].
    + intros [?|(m' & [[= ->]|Hm']%elem_of_cons & Hle)]; [by left; left| |].
      * left. right. lia.
      * right. by exists m'.
  - cbn [foldl]. rewrite IH. split.
    + intros [?|(m' & Hm' & Hle)]; [by left|].
      right. exists m'. split; [by right|done].
    + intros [?|(m' & [?|Hm']%elem_of_cons & Hle)]; [by left|done|].
      right. by exists m'.
Qed.

Lemma annotate_sequences_same_view sc sp :
  same_view sp (annotate_sequences sc sp).2.
Proof.
  unfold annotate_sequences.
  match goal with |- context [foldl ?g _ sc] => set (step := g) end.
  enough (Hgen : ∀ l acc sp1, same_view sp sp1 →
            same_view sp (foldl step (acc, sp1) l).2).
  { apply Hgen, same_view_refl. }
  induction l as [|[seq c] l IH]; intros acc sp1 Hv; [done|].
  cbn [foldl]. unfold step at 2. cbv beta iota.
  destruct (annotate_one_refines seq sp1) as [_ Hv1].
  match goal with |- context [foldl ?g ([], sp1) seq] =>
    destruct (foldl g ([], sp1) seq) as [ann sp2] end.
  simpl in Hv1. apply IH. by eapply same_view_trans.
Qed.

Lemma merge_into_same_view pattern1 total later mp mc pr sp :
  same_view sp (merge_into pattern1 total later (mp, mc, pr, sp)).2.
Proof.
  unfold merge_into.
  match goal with |- context [foldl ?g _ later] => set (step := g) end.
  enough (Hgen : ∀ l mp mc pr sp1, same_view sp sp1 →
            same_view sp (foldl step (mp, mc, pr, sp1) l).2).
  { apply Hgen, same_view_refl. }
  clear mp mc pr. induction l as [|[X c] l IH]; intros mp mc pr sp1 Hv; [done|].
  cbn [foldl]. unfold step at 2. cbv beta iota.
  case_bool_decide; [by apply IH|].
  destruct (try_merge_patterns_refines pattern1 X sp1 total) as [_ Hv2].
  destruct (try_merge_patterns pattern1 X sp1 total) as [r sp2].
  simpl in Hv2. assert (same_view sp sp2) by by eapply same_view_trans.
  destruct (merge_result_truthy r); by apply IH.
Qed.

Lemma merge_from_same_view pattern_list total merged pr sp :
  same_view sp (merge_from pattern_list total (merged, pr, sp)).2.
Proof.
  revert merged pr sp.
  induction pattern_list as [|[B cB] later IH]; intros merged pr sp.
  { apply same_view_refl. }
  cbn [merge_from]. case_bool_decide; [apply IH|].
  pose proof (merge_into_same_view B total later B cB (pr ∪ {[B]}) sp) as Hv.
  destruct (merge_into B total later _) as [[[mp' mc'] pr'] sp'].
  simpl in Hv. eapply same_view_trans; [exact Hv|apply IH].
Qed.

Lemma final_mark_ext v v' total seg :
  (∀ k, v' k = v k) → final_mark v' total seg = final_mark v total seg.
Proof. intros Hv. unfold final_mark. by rewrite Hv. Qed.

Lemma final_marking_step total seg (sp : list (string * seg_presence)) acc :
  (let base_seg := clean_segment_name seg in
   let is_repeat := Str.endswith seg "+" in
   let '(e, segments_presence) := sp_get base_seg sp in
   let is_optional := present_in e <? total in
   if is_optional && is_repeat then
     (acc ++ ["[" +:+ base_seg +:+ "+]"], segments_presence)
   else if is_optional then
     (acc ++ ["[" +:+ base_seg +:+ "]"], segments_presence)
   else (acc ++ [seg], segments_presence))
  = (acc ++ [final_mark (sp_view sp) total seg],
     (sp_get (clean_segment_name seg) sp).2).
Proof.
  cbv zeta. unfold final_mark. cbv zeta.
  destruct (sp_get_view (clean_segment_name seg) sp) as [He _].
  destruct (sp_get (clean_segment_name seg) sp) as [e sp']. simpl in *.
  rewrite <- He.
  by destruct (present_in e <? total), (Str.endswith seg "+").
Qed.

Lemma final_marking_refines pattern sp total :
  (final_marking pattern sp total).1 = final_mark (sp_view sp) total <$> pattern
  ∧ same_view sp (final_marking pattern sp total).2.
Proof.
  unfold final_marking.
  match goal with |- context [foldl ?g _ pattern] => set (step := g) end.
  enough (Hgen : ∀ l acc sp1, same_view sp sp1 →
    (foldl step (acc, sp1) l).1 = acc ++ (final_mark (sp_view sp) total <$> l)
    ∧ same_view sp (foldl step (acc, sp1) l).2).
  { apply (Hgen pattern [] sp), same_view_refl. }
  induction l as [|seg l IH]; intros acc sp1 Hv.
  { simpl. by rewrite app_nil_r. }
  cbn [foldl]. unfold step at 2 4. cbv beta iota.
  rewrite final_marking_step.
  destruct (sp_get_view (clean_segment_name seg) sp1) as [_ Hv1].
  destruct (IH (acc ++ [final_mark (sp_view sp1) total seg])
              (sp_get (clean_segment_name seg) sp1).2) as [-> Hv'].
  { by eapply same_view_trans. }
  split; [|done]. rewrite <- app_assoc. simpl.
  by rewrite (final_mark_ext (sp_view sp) (sp_view sp1)).
Qed.

(** X13: in the profile of a group of messages, the entry of a segment
    name (read with the default of the [defaultdict] for a missing name)
    counts the decoded messages that hold the name, never more than
    [total_messages], and its repeat flag is set exactly when some message
    holds the name at least twice. *)
Theorem profile_segments_exact (messages : list (option message))
    (p : sequence_profile) :
  profile_sequences_for_type messages = Ok p →
  ∀ n, present_in (sp_view (profile_segments p) n)
       = containing n (decoded messages) ∧
       present_in (sp_view (profile_segments p) n) ≤ total_messages p ∧
       (repeats (sp_view (profile_segments p) n) = true ↔
        ∃ m, Some m ∈ messages ∧ 2 ≤ occurrences n (segment_names m)).
Proof.
  unfold profile_sequences_for_type, scan_messages.
  destruct (scan_messages_fold messages [] [])
    as (canon & sp0 & Hscan & _ & _ & Hpres).
  pose proof (λ n, scan_messages_repeats messages [] [] n) as Hrep.
  rewrite Hscan in Hrep |- *. simpl in Hrep. cbv beta iota.
  match goal with |- context [annotate_sequences ?c sp0] =>
    pose proof (annotate_sequences_same_view c sp0) as Hv1;
    destruct (annotate_sequences c sp0) as [annotated sp1] end.
  simpl in Hv1. unfold merge_similar_patterns.
  pose proof (merge_from_same_view annotated (length messages) [] ∅ sp1)
    as Hv2.
  destruct (merge_from annotated (length messages) ([], ∅, sp1))
    as [[merged pr] sp2]. simpl in Hv2.
  match goal with |- context [for_each ?b merged ?s] =>
    destruct (for_each b merged s) as [[fs sp3]|e] eqn:Hfinal;
    [pose proof (for_each_inv (λ st, same_view sp2 st.2) b merged s (fs, sp3))
       as Hv3|done]
  end.
  simpl. intros [= <-] n. simpl.
  assert (Hview : sp_view sp3 n = sp_view sp0 n).
  { rewrite <- (Hv1 n), <- (Hv2 n). apply Hv3; [|apply same_view_refl|done].
    intros [fs0 sp4] [P c] [fs1 sp5] _ Hsame. simpl in Hsame.
    destruct (final_marking_refines P sp4 (length messages)) as [_ Hvf].
    destruct (final_marking P sp4 (length messages)) as [fp sp6].
    simpl in Hvf. destruct (Float.truediv c (length messages)); [|done].
    simpl. intros [= <- <-]. simpl. by eapply same_view_trans. }
  rewrite Hview, Hpres, Hrep. unfold sp_view at 1 2. simpl.
  split; [done|]. split.
  - unfold containing. etrans; [apply length_filter|apply decoded_length].
  - split; [by intros [?|?]|by right].
Qed.

Lemma profile_segments_exact_witness :
  ∃ p, profile_sequences_for_type repeat_corpus = Ok p ∧
       present_in (sp_view (profile_segments p) "OBX") = 1 ∧
       present_in (sp_view (profile_segments p) "OBX") ≤ total_messages p.
Proof.
  assert (Hret : returned (profile_sequences_for_type repeat_corpus) = true)
    by (vm_compute; reflexivity).
  destruct (returned_Ok _ Hret) as [p Hrun]. clear Hret.
  exists p. split; [exact Hrun|].
  destruct (profile_segments_exact repeat_corpus p Hrun "OBX")
    as (Hpres & Hle & _).
  split; [exact Hpres|exact Hle].
Defined.

(** ** The order of the final patterns *)

Lemma descending_cons x l :
  descending (x :: l) ↔ Forall (λ y, count y ≤ count x) l ∧ descending l.
Proof.
  unfold descending. split.
  - intros Hd. split.
    + apply Forall_lookup. intros k y Hy.
      apply (Hd 0 (S k) x y); [lia|done..].
    + intros i j e1 e2 Hij H1 H2. apply (Hd (S i) (S j) e1 e2); [lia|done..].
  - intros [Hall Hd] i j e1 e2 Hij H1 H2.
    destruct j as [|j]; [lia|]. simpl in H2. destruct i as [|i].
    + injection H1 as <-. rewrite Forall_lookup in Hall. by eapply Hall.
    + simpl in H1. apply (Hd i j e1 e2); [lia|done..].
Qed.

Lemma insert_by_count_Forall (P : pattern_entry → Prop) x l :
  P x → Forall P l → Forall P (insert_by_count x l).
Proof.
  intros Hx. induction 1 as [|y l Hy Hl IH]; simpl; [by constructor|].
  destruct (count x <? count y); constructor; auto.
Qed.

Lemma insert_by_count_descending x l :
  descending l → descending (insert_by_count x l).
Proof.
  induction l as [|y l IH]; simpl.
  { intros _. apply descending_cons. split; [constructor|done]. }
  intros [Hall Hd]%descending_cons.
  destruct (Nat.ltb_spec (count x) (count y)) as [Hlt|Hge];
    apply descending_cons.
  - split; [|by apply IH]. apply insert_by_count_Forall; [lia|done].
  - split.
    + constructor; [done|]. eapply Forall_impl; [exact Hall|].
      intros z Hz. simpl in Hz. lia.
    + by apply descending_cons.
Qed.

(** X14: the final patterns of a profile are in the order of non-increasing
    counts. *)
Theorem common_sequences_descending (messages : list (option message))
    (p : sequence_profile) :
  profile_sequences_for_type messages = Ok p →
  descending (common_sequences p).
Proof.
  unfold profile_sequences_for_type.
  destruct (scan_messages messages) as [canon sp0].
  destruct (annotate_sequences _ _) as [annotated sp1].
  destruct (merge_similar_patterns _ _ _) as [merged sp2].
  match goal with |- context [for_each ?b merged ?s] =>
    destruct (for_each b merged s) as [[fs sp3]|e] end; [|done].
  simpl. intros [= <-]. simpl. unfold sort_by_count_desc.
  induction fs as [|x fs IH]; simpl.
  - by intros i j e1 e2 _ ?.
  - by apply insert_by_count_descending.
Qed.

Lemma common_sequences_descending_witness :
  ∃ p, profile_sequences_for_type mixed_corpus = Ok p ∧
       descending (common_sequences p).
Proof.
  assert (Hret : returned (profile_sequences_for_type mixed_corpus) = true)
    by (vm_compute; reflexivity).
  destruct (returned_Ok _ Hret) as [p Hrun]. clear Hret.
  exists p. split; [exact Hrun|].
  exact (common_sequences_descending mixed_corpus p Hrun).
Defined.

(** ** The final marking of a merged pattern *)

Lemma endswith_bracket (s : string) : Str.endswith (s +:+ "]") "+" = false.
Proof.
  induction s as [|c s IH]; [done|].
  change (String c s +:+ "]") with (String c (s +:+ "]")).
  cbn [Str.endswith]. rewrite IH.
  destruct (String.eqb_spec (String c (s +:+ "]")) "+") as [Heq|]; [|done].
  injection Heq as _ Heq. by destruct s.
Qed.

Lemma endswith_bracketed (x : string) :
  Str.endswith ("[" +:+ x +:+ "]") "+" = false ∧
  Str.endswith ("[" +:+ x +:+ "+]") "+" = false.
Proof.
  split.
  - apply (endswith_bracket (String "[" x)).
  - replace (x +:+ "+]") with ((x +:+ "+") +:+ "]")
      by (by rewrite append_assoc).
    apply (endswith_bracket (String "[" (x +:+ "+"))).
Qed.

Lemma final_mark_mark_optional v total seg :
  final_mark v total (mark_optional v total seg)
  = if present_in (v (clean_segment_name seg)) <? total
    then "[" +:+ clean_segment_name seg +:+ "]" else seg.
Proof.
  unfold final_mark. cbv zeta. rewrite clean_segment_name_mark_optional.
  unfold mark_optional. cbv zeta.
  destruct (present_in (v (clean_segment_name seg)) <? total) eqn:Ho; [|done].
  destruct (endswith_bracketed (clean_segment_name seg)) as [H1 H2].
  destruct (Str.endswith seg "+"); by rewrite ?H1, ?H2.
Qed.

(** X15: the final marking applied to the result of
    [merge_with_optional_segments]: an element whose name the shorter
    pattern holds is marked as if unmerged; an element whose name it lacks
    comes out as the bracketed bare name when its presence is below the
    total, so a repeat marker of that element is dropped. *)
Theorem final_marking_after_merge (longer shorter : list string)
    (segments_presence : list (string * seg_presence)) (total : nat) :
  (final_marking
     (merge_with_optional_segments longer shorter segments_presence total).1
     (merge_with_optional_segments longer shorter segments_presence total).2
     total).1
  = (λ seg,
       if bool_decide (clean_segment_name seg
                       ∈ clean_segment_name <$> shorter)
       then final_mark (sp_view segments_presence) total seg
       else if present_in
                 (sp_view segments_presence (clean_segment_name seg))
               <? total
            then "[" +:+ clean_segment_name seg +:+ "]"
            else seg) <$> longer.
Proof.
  destruct (merge_with_optional_segments_view longer shorter segments_presence
              total) as [Hm Hv].
  destruct (merge_with_optional_segments longer shorter segments_presence
              total) as [m sp1]. simpl in *. subst m.
  rewrite (proj1 (final_marking_refines _ _ _)).
  unfold merge_with_optional_view. rewrite <- list_fmap_compose.
  apply list_fmap_ext. intros i seg _. simpl.
  rewrite (final_mark_ext (sp_view segments_presence) (sp_view sp1)) by done.
  case_bool_decide; [done|apply final_mark_mark_optional].
Qed.

Lemma final_marking_after_merge_witness :
  (final_marking
     (merge_with_optional_segments ["MSH"; "OBX+"] ["MSH"]
        [("MSH", {| present_in := 2; repeats := false |});
         ("OBX", {| present_in := 1; repeats := true |})] 2).1
     (merge_with_optional_segments ["MSH"; "OBX+"] ["MSH"]
        [("MSH", {| present_in := 2; repeats := false |});
         ("OBX", {| present_in := 1; repeats := true |})] 2).2
     2).1
  = ["MSH"; "[OBX]"] ∧
  (final_marking ["MSH"; "OBX+"]
     [("MSH", {| present_in := 2; repeats := false |});
      ("OBX", {| present_in := 1; repeats := true |})] 2).1
  = ["MSH"; "[OBX+]"].
Proof.
  split; [|reflexivity].
  rewrite (final_marking_after_merge ["MSH"; "OBX+"] ["MSH"]). reflexivity.
Defined.

(** ** The categories of a profile *)



(** ** [normalize_sequence] and the canonical order *)

Lemma scan_segment_order order occ uniq sp seg :
  (scan_segment (order, occ, uniq, sp) seg).1.1.1
  = order_step order (name seg).
Proof.
  unfold scan_segment. cbv zeta.
  destruct (if bool_decide (name seg ∈ uniq) then _ else _) as [u s].
  done.
Qed.

Lemma scan_segments_order segs order occ uniq sp :
  (foldl scan_segment (order, occ, uniq, sp) segs).1.1.1
  = foldl order_step order (name <$> segs).
Proof.
  revert order occ uniq sp.
  induction segs as [|seg segs IH]; intros order occ uniq sp; [done|].
  cbn [foldl]. rewrite fmap_cons. cbn [foldl].
  pose proof (scan_segment_order order occ uniq sp seg) as Hstep.
  destruct (scan_segment (order, occ, uniq, sp) seg)
    as [[[order1 occ1] uniq1] sp1]. simpl in Hstep. subst order1.
  apply IH.
Qed.

Lemma rstrip_untouched (p : ascii → bool) (s : string) :
  Str.all_chars (λ c, negb (p c)) s = true → Str.rstrip_with p s = s.
Proof.
  induction s as [|c s IH]; [done|]. cbn [Str.all_chars Str.rstrip_with].
  intros [Hc Hs]%andb_prop. rewrite IH by done.
  destruct s; [|done]. by destruct (p c).
Qed.

Lemma marker_free_no_plus (n : string) :
  marker_free n = true →
  Str.all_chars (λ c, negb (Str.mem c "+")) n = true.
Proof.
  unfold marker_free. induction n as [|c n IH]; [done|].
  cbn [Str.all_chars]. intros [Hc Hn]%andb_prop. rewrite IH by done.
  rewrite andb_true_r. cbn [Str.mem] in *.
  by destruct (Ascii.eqb c "+").
Qed.

Lemma endswith_plus_mem (s : string) :
  Str.endswith s "+" = true → Str.mem "+" s = true.
Proof.
  induction s as [|c s IH]; [done|]. cbn [Str.endswith Str.mem].
  destruct (String.eqb_spec (String c s) "+") as [[= -> ->]|_]; [done|].
  intros Hs. rewrite IH by done. by destruct (Ascii.eqb "+" c).
Qed.

Lemma annotated_name_facts (t : string) :
  annotated_name t →
  marker_free (clean_segment_name t) = true ∧
  Str.rstrip_with (λ c, Str.mem c "+") t = clean_segment_name t ∧
  (Str.endswith t "+" = false → annotated_name (t +:+ "+") ∧
     clean_segment_name (t +:+ "+") = clean_segment_name t).
Proof.
  intros (n & Hn & [->| ->]).
  - rewrite clean_segment_name_marker_free by done. split; [done|].
    split; [by apply rstrip_untouched, marker_free_no_plus|].
    intros _. split; [exists n; auto|].
    by apply clean_segment_name_repeat.
  - rewrite clean_segment_name_repeat by done. split; [done|]. split.
    + rewrite rstrip_all by done.
      by apply rstrip_untouched, marker_free_no_plus.
    + by rewrite endswith_app.
Qed.

(** X17: on names without marker characters, [normalize_sequence] yields
    the canonical order of the profiler (runs of one name collapsed) with
    repeat markers added: removing the markers gives the canonical order. *)
Theorem normalize_sequence_canonical (segs : list segment)
    (segments_presence : list (string * seg_presence)) :
  Forall (λ s, marker_free (name s) = true) segs →
  clean_segment_name <$> normalize_sequence (name <$> segs)
  = (foldl scan_segment ([], [], ∅, segments_presence) segs).1.1.1.
Proof.
  intros Hfree. rewrite scan_segments_order. unfold normalize_sequence.
  assert (Hnames : Forall (λ n, marker_free n = true) (name <$> segs))
    by by apply Forall_fmap.
  clear Hfree. revert Hnames.
  generalize (name <$> segs). intros names Hfree.
  match goal with |- context [foldl ?g [] names] => set (step := g) end.
  enough (Hgen : ∀ N, Forall annotated_name N →
    clean_segment_name <$> foldl step N names
    = foldl order_step (clean_segment_name <$> N) names).
  { apply (Hgen []). constructor. }
  induction Hfree as [|x names Hx Hnames IH]; intros N HN; [done|].
  cbn [foldl]. simpl in Hx.
  assert (Hstep : Forall annotated_name (step N x) ∧
    clean_segment_name <$> step N x
    = order_step (clean_segment_name <$> N) x).
  { unfold step, order_step. rewrite fmap_last.
    destruct (last N) as [l|] eqn:Hl; cbn [fmap option_fmap option_map].
    - apply last_Some in Hl as [N' ->].
      apply Forall_app in HN as [HN' Hl%Forall_inv].
      destruct (annotated_name_facts l Hl) as (Hcl & Hrs & Hplus).
      rewrite Hrs. case_bool_decide as Hxl.
      + rewrite bool_decide_false by (by intros []).
        destruct (Str.endswith l "+") eqn:He; cbn [negb].
        * split; [|done]. apply Forall_app. split; [done|by constructor].
        * destruct (Hplus eq_refl) as [Han Hc].
          rewrite length_app. cbn [length].
          replace (length N' + 1 - 1) with (length N') by lia.
          rewrite take_app_length. split.
          -- apply Forall_app. split; [done|by constructor].
          -- rewrite !fmap_app. f_equal. cbn [fmap list_fmap]. by rewrite Hc.
      + rewrite bool_decide_true by congruence. split.
        * apply Forall_app. split.
          { apply Forall_app. split; [done|by constructor]. }
          constructor; [|done]. exists x. auto.
        * rewrite (fmap_app _ (N' ++ [l])), fmap_cons.
          by rewrite (clean_segment_name_marker_free x).
    - split.
      + apply Forall_app. split; [done|]. constructor; [|done].
        exists x. auto.
      + by rewrite fmap_app, fmap_cons, (clean_segment_name_marker_free x).
  }
  destruct Hstep as [HN1 Heq]. rewrite IH by done. by rewrite Heq.
Qed.

Lemma normalize_sequence_canonical_witness :
  clean_segment_name
    <$> normalize_sequence (name <$> (bare_segment <$> ["MSH"; "OBX"; "OBX"]))
  = (foldl scan_segment ([], [], ∅, [])
       (bare_segment <$> ["MSH"; "OBX"; "OBX"])).1.1.1.
Proof.
  apply (normalize_sequence_canonical (bare_segment <$> ["MSH"; "OBX"; "OBX"])).
  repeat constructor.
Defined.

(** ** [aggregate_data] returns *)

Lemma for_each_returns {A S} (I : S → Prop) (body : S → A → pyresult S)
    (l : list A) (s : S) :
  (∀ s a, a ∈ l → I s → ∃ s', body s a = Ok s' ∧ I s') →
  I s → ∃ s', for_each body l s = Ok s' ∧ I s'.
Proof.
  revert s. induction l as [|a l IH]; intros s Hbody Hs; [by exists s|].
  cbn [for_each]. destruct (Hbody s a) as (s1 & -> & Hs1); [by left|done|].
  simpl. apply IH; [|done]. intros s2 b Hb. apply Hbody. by right.
Qed.

Lemma foldl_kept {A S} (I : S → Prop) (f : S → A → S) (l : list A) (s : S) :
  (∀ s a, I s → I (f s a)) → I s → I (foldl f s l).
Proof.
  intros Hf. revert s. induction l as [|a l IH]; intros s Hs; [done|].
  cbn [foldl]. by apply IH, Hf.
Qed.

Lemma al_remove_keys_ne {K V} `{EqDecision K} (k k' : K) (d : list (K * V)) :
  k ∈ d.*1 → k ≠ k' → k ∈ (al_remove k' d).*1.
Proof.
  intros Hk Hne.
  destruct (decide (k ∈ (al_remove k' d).*1)) as [|Hout]; [done|].
  exfalso. apply al_find_None in Hout.
  rewrite al_find_remove_ne in Hout by done.
  by apply al_find_None in Hout.
Qed.

Lemma al_remove_keys_fresh {K V} `{EqDecision K} (k : K) (d : list (K * V)) :
  NoDup d.*1 → k ∉ (al_remove k d).*1.
Proof. intros Hnd. by apply al_find_None, al_find_remove_eq. Qed.

Lemma consolidate_group_returns `{Vocabulary} mt sg fields presence cache
    group :
  NoDup fields.*1 →
  (∀ p, p ∈ fields.*1 → p ∈ (dd2_get mt sg presence).*1) →
  ∃ fields' presence' cache',
    consolidate_group mt sg (fields, presence, cache) group
    = Ok (fields', presence', cache') ∧
    NoDup fields'.*1 ∧
    (∀ p, p ∈ fields'.*1 → p ∈ (dd2_get mt sg presence').*1) ∧
    (∀ a c, (a, c) ≠ (mt, sg) → dd2_get a c presence' = dd2_get a c presence).
Proof.
  intros Hnd Hpar. destruct group as [b paths]. unfold consolidate_group.
  destruct (cached_datatype sg b cache) as [hl7_type cache1].
  assert (Hsame : ∃ fields' presence' cache',
    Ok (fields, presence, cache1) = Ok (fields', presence', cache') ∧
    NoDup fields'.*1 ∧
    (∀ p, p ∈ fields'.*1 → p ∈ (dd2_get mt sg presence').*1) ∧
    (∀ a c, (a, c) ≠ (mt, sg) → dd2_get a c presence' = dd2_get a c presence)).
  { by exists fields, presence, cache1. }
  case_bool_decide; [done|].
  destruct (elements paths) as [|cp [|? ?]]; [done| |done].
  destruct (Str.endswith cp ".1"); [|done].
  destruct (al_find cp fields) as [[|d data]|] eqn:Hcp; [done| |done].
  assert (Hin : cp ∈ (dd2_get mt sg presence).*1).
  { apply Hpar. apply al_find_Some_elem in Hcp.
    by apply (list_elem_of_fmap_2 fst _ (cp, d :: data)). }
  destruct (al_find cp (dd2_get mt sg presence)) as [n|] eqn:Hn.
  2: { by apply al_find_None in Hn. }
  eexists _, _, _. split; [reflexivity|]. split; [|split].
  - by apply al_set_NoDup, al_remove_NoDup.
  - intros p. rewrite dd2_get_put, decide_True by done.
    rewrite !al_set_keys. intros [->|Hp]; [by left|right].
    destruct (decide (p = cp)) as [->|Hne].
    + by apply al_remove_keys_fresh in Hp.
    + apply al_remove_keys_ne; [|done]. apply Hpar. by eapply al_remove_keys.
  - intros a c Hac. rewrite dd2_get_put. rewrite decide_False; [done|].
    intros [-> ->]. done.
Qed.

Lemma consolidate_segment_returns `{Vocabulary} mt sg fields presence cache :
  NoDup fields.*1 →
  (∀ p, p ∈ fields.*1 → p ∈ (dd2_get mt sg presence).*1) →
  ∃ fields' presence' cache',
    consolidate_segment mt sg fields presence cache
    = Ok (fields', presence', cache') ∧
    ∀ a c, (a, c) ≠ (mt, sg) → dd2_get a c presence' = dd2_get a c presence.
Proof.
  intros Hnd Hpar. unfold consolidate_segment.
  destruct (for_each_returns
    (λ st, NoDup st.1.1.*1 ∧
           (∀ p, p ∈ st.1.1.*1 → p ∈ (dd2_get mt sg st.1.2).*1) ∧
           (∀ a c, (a, c) ≠ (mt, sg) →
                   dd2_get a c st.1.2 = dd2_get a c presence))
    (consolidate_group mt sg) (group_components fields)
    (fields, presence, cache)) as ([[f' p'] c'] & Hrun & _ & _ & Hframe).
  - intros [[f0 p0] c0] group _ (Hnd0 & Hpar0 & Hfr0). cbn [fst snd] in *.
    destruct (consolidate_group_returns mt sg f0 p0 c0 group Hnd0 Hpar0)
      as (f1 & p1 & c1 & -> & Hnd1 & Hpar1 & Hfr1).
    eexists. split; [reflexivity|]. cbn [fst snd].
    split; [done|]. split; [done|].
    intros a c Hac. by rewrite Hfr1, Hfr0.
  - done.
  - by exists f', p', c'.
Qed.

Lemma consolidate_entries_return `{Vocabulary} mt segs spec presence cache :
  NoDup segs.*1 →
  (∀ sg fields, (sg, fields) ∈ segs →
     NoDup fields.*1 ∧
     ∀ p, p ∈ fields.*1 → p ∈ (dd2_get mt sg presence).*1) →
  ∃ st', for_each (consolidate_entry mt) segs (spec, presence, cache) = Ok st'
         ∧ ∀ a c, a ≠ mt → dd2_get a c st'.1.2 = dd2_get a c presence.
Proof.
  revert spec presence cache.
  induction segs as [|[sg fields] segs IH]; intros spec presence cache Hnd Hpar.
  { by eexists. }
  apply NoDup_cons in Hnd as [Hsg Hnd]. cbn [for_each].
  destruct (Hpar sg fields) as [Hndf Hparf]; [by left|].
  destruct (consolidate_segment_returns mt sg fields presence cache Hndf Hparf)
    as (f' & p' & c' & Hrun & Hframe).
  change (consolidate_entry mt (spec, presence, cache) (sg, fields))
    with (consolidate_segment mt sg fields presence cache
          ≫= λ '(fields, presence, _datatype_cache),
               Ok (dd2_put mt sg fields spec, presence, _datatype_cache)).
  rewrite Hrun. simpl.
  destruct (IH (dd2_put mt sg f' spec) p' c' Hnd) as (st' & -> & Hfr).
  - intros sg0 f0 Hin. destruct (Hpar sg0 f0) as [Hnd0 Hpar0]; [by right|].
    split; [done|]. rewrite Hframe; [done|]. intros [= ->].
    apply Hsg. by apply (list_elem_of_fmap_2 fst _ (sg, f0)).
  - exists st'. split; [done|]. intros a c Ha. rewrite Hfr by done.
    apply Hframe. by intros [= -> _].
Qed.

Lemma consolidate_returns `{Vocabulary} spec presence cache :
  tree_keys_unique spec → paths_covered spec presence →
  ∃ r, consolidate_single_component_fields spec presence cache = Ok r.
Proof.
  intros [Hkeys Hinner] Hcov. unfold consolidate_single_component_fields.
  generalize spec at 2. revert presence cache Hcov.
  unfold keys_unique in Hkeys. revert Hkeys Hinner.
  generalize spec at 1 2 3 4. intros l.
  induction l as [|[mt segs] l IH];
    intros Hnd Hin presence cache Hcov spec0; [by eexists|].
  apply NoDup_cons in Hnd as [Hmt Hnd]. cbn [for_each].
  destruct (Hin mt segs) as [Hsegs Hfields]; [by left|].
  destruct (consolidate_entries_return mt segs spec0 presence cache Hsegs)
    as ([[s1 p1] c1] & -> & Hframe).
  { intros sg fields Hsg. split; [by eapply Hfields|].
    intros p Hp. eapply Hcov; [by left|done..]. }
  simpl. apply IH; [done| |].
  - intros a by_b Ha. apply (Hin a). by right.
  - intros mt0 segs0 sg fields p Hmt0 Hsg Hp. simpl in Hframe.
    rewrite Hframe.
    + eapply Hcov; [by right|done..].
    + intros ->. apply Hmt. by apply (list_elem_of_fmap_2 fst _ (mt, segs0)).
Qed.

Lemma al_set_keys_list {K V} `{EqDecision K} (k : K) (v : V)
    (d : list (K * V)) :
  (al_set k v d).*1 = if decide (k ∈ d.*1) then d.*1 else d.*1 ++ [k].
Proof.
  induction d as [|[k' v'] d IH]; cbn [al_set fmap list_fmap fst].
  - case_decide as Hk; [by apply elem_of_nil in Hk|done].
  - destruct (decide (k = k')) as [->|Hne]; cbn [fmap list_fmap fst].
    + rewrite decide_True; [done|by left].
    + rewrite IH. destruct (decide (k ∈ d.*1)).
      * rewrite decide_True; [done|by right].
      * rewrite decide_False; [done|]. rewrite not_elem_of_cons. done.
Qed.

Lemma dd3_put_keys_unique {V} a b c (v : V)
    (t : list (string * list (string * list (string * V)))) :
  tree_keys_unique t → tree_keys_unique (dd3_put a b c v t).
Proof.
  intros Ht. pose proof Ht as [Hkeys Hinner]. unfold dd3_put, dd2_put.
  assert (Hby : keys_unique (default [] (al_find a t)) ∧
                ∀ b' by_c, (b', by_c) ∈ default [] (al_find a t) →
                           keys_unique by_c).
  { destruct (al_find a t) as [by0|] eqn:Ha; simpl.
    - apply al_find_Some_elem in Ha. by apply (Hinner a).
    - split; [constructor|]. by intros ? ? ?%elem_of_nil. }
  destruct Hby as [Hby1 Hby2]. split; [by apply al_set_NoDup|].
  intros a' by_b [[= -> ->]|Hold]%al_set_elem; [|by apply (Hinner a')].
  split; [by apply al_set_NoDup|].
  intros b' by_c [[= -> ->]|Hold]%al_set_elem; [|by apply (Hby2 b')].
  by apply al_set_NoDup, dd2_get_keys_unique.
Qed.

Lemma dd3_put_key_lists {V W} a b c (v : V) (w : W)
    (s : list (string * list (string * list (string * V))))
    (p : list (string * list (string * list (string * W)))) :
  (∀ x y, (dd2_get x y s).*1 = (dd2_get x y p).*1) →
  ∀ x y, (dd2_get x y (dd3_put a b c v s)).*1
         = (dd2_get x y (dd3_put a b c w p)).*1.
Proof.
  intros Hsame x y. unfold dd3_put. rewrite !dd2_get_put.
  case_decide; [|apply Hsame]. by rewrite !al_set_keys_list, Hsame.
Qed.

Lemma to_output_sound
    (fs : list (string * list (string * list (string * FieldStats)))) :
  tree_keys_unique (to_output fs).1 ∧
  paths_covered (to_output fs).1 (to_output fs).2.
Proof.
  assert (HK : tree_keys_unique (to_output fs).1 ∧
               ∀ x y, (dd2_get x y (to_output fs).1).*1
                      = (dd2_get x y (to_output fs).2).*1).
  { unfold to_output.
    apply (foldl_kept (λ st, tree_keys_unique st.1 ∧
             ∀ x y, (dd2_get x y st.1).*1 = (dd2_get x y st.2).*1)).
    2: { split; [|done]. split; [constructor|]. by intros ? ? ?%elem_of_nil. }
    intros st [mt by_segment] Hst.
    apply (foldl_kept (λ st, tree_keys_unique st.1 ∧
             ∀ x y, (dd2_get x y st.1).*1 = (dd2_get x y st.2).*1));
      [|done].
    clear st Hst. intros st [sg by_path] Hst.
    apply (foldl_kept (λ st, tree_keys_unique st.1 ∧
             ∀ x y, (dd2_get x y st.1).*1 = (dd2_get x y st.2).*1));
      [|done].
    clear st Hst. intros [spec presence] [pa stats] [Hu Hsame].
    destruct (_ && _); [|done]. simpl in *. split.
    - by apply dd3_put_keys_unique.
    - by apply dd3_put_key_lists. }
  destruct HK as [Hu Hsame]. split; [done|].
  intros mt segs sg fields p Hmt Hsg Hp. rewrite <- Hsame.
  destruct Hu as [Hkeys Hinner]. destruct (Hinner mt segs Hmt) as [Hsegs _].
  unfold dd2_get. rewrite (al_elem_find mt segs) by done. simpl.
  by rewrite (al_elem_find sg fields).
Qed.

(** X18: [aggregate_data] returns on every list of messages, from every
    state of the lookup cache: the value tree and the presence table are
    filled in step, so the consolidation finds the presence entry of every
    path it moves, and no division by zero is reached. *)
Theorem aggregate_data_returns `{Vocabulary}
    (messages : list (option message)) (cache : gmap cval cval) :
  ∃ a cache', aggregate_data messages cache = Ok (a, cache').
Proof.
  unfold aggregate_data.
  destruct (aggregate_loop messages cache) as [[[fs rt] totals] c1].
  destruct (to_output_sound fs) as [Hu Hcov].
  destruct (to_output fs) as [spec presence]. simpl in Hu, Hcov.
  destruct (consolidate_returns spec presence c1 Hu Hcov)
    as [[[spec' presence'] c2] ->]. simpl.
  assert (Hprof : ∃ d, profile_sequences_by_message_type messages = Ok d).
  { unfold profile_sequences_by_message_type.
    apply for_each_total. intros d [t msgs].
    destruct (profile_sequences_for_type_total msgs) as [p ->]. by eexists. }
  destruct Hprof as [d ->]. simpl. by eexists _, _.
Qed.

(** X19: [consolidate_single_component_fields] returns when every path of
    the value tree has an entry in the presence table (and each dictionary
    has one entry per key); it raises [KeyError] on a value tree whose lone
    [.1] path has no presence entry. *)
Theorem consolidate_needs_presence_entries :
  (∀ `{Vocabulary} spec presence cache,
     tree_keys_unique spec → paths_covered spec presence →
     ∃ r, consolidate_single_component_fields spec presence cache = Ok r) ∧
  @consolidate_single_component_fields example_vocabulary
    [("ORU", [("OBX", [("3.1", [("x", 1)])])])] [] ∅ = Raise KeyError.
Proof.
  split; [|vm_compute; reflexivity].
  intros. by apply consolidate_returns.
Qed.

Lemma consolidate_needs_presence_entries_witness :
  ∃ r, @consolidate_single_component_fields example_vocabulary
         example_spec example_presence ∅ = Ok r.
Proof.
  apply (proj1 consolidate_needs_presence_entries example_vocabulary).
  - exact (proj1 example_trees_keys_unique).
  - unfold example_spec.
    intros mt segs sg fields p [= -> ->]%list_elem_of_singleton
      [= -> ->]%list_elem_of_singleton Hp.
    vm_compute in Hp |- *. exact Hp.
Defined.

(** ** The counters of the value tree that [aggregate_data] returns *)

Lemma foldl_kept_elem {A S} (I : S → Prop) (f : S → A → S) (l : list A)
    (s : S) :
  (∀ s a, a ∈ l → I s → I (f s a)) → I s → I (foldl f s l).
Proof.
  revert s. induction l as [|a l IH]; intros s Hf Hs; [done|].
  cbn [foldl]. apply IH.
  - intros s0 b Hb. apply Hf. by right.
  - apply Hf; [by left|done].
Qed.

Lemma al_remove_elem {K V} `{EqDecision K} (k k' : K) (v : V)
    (d : list (K * V)) :
  (k, v) ∈ al_remove k' d → (k, v) ∈ d.
Proof.
  induction d as [|[k0 v0] d IH]; simpl; [done|].
  destruct (decide (k' = k0)) as [->|Hne].
  - intros. by right.
  - rewrite !elem_of_cons. intros [?|?]; [by left|right; by apply IH].
Qed.

Lemma dd2_get_elem {V} a b c (v : V)
    (t : list (string * list (string * list (string * V)))) :
  (c, v) ∈ dd2_get a b t →
  ∃ by_b, (a, by_b) ∈ t ∧ (b, dd2_get a b t) ∈ by_b.
Proof.
  unfold dd2_get. destruct (al_find a t) as [by_b|] eqn:Ha; simpl.
  - destruct (al_find b by_b) as [by_c|] eqn:Hb; simpl.
    + intros _. exists by_b. split; by apply al_find_Some_elem.
    + by intros ?%elem_of_nil.
  - by intros ?%elem_of_nil.
Qed.

Lemma tree_all_dd2_put {V} (P : string → V → Prop) a b inner
    (t : list (string * list (string * list (string * V)))) :
  (∀ c v, (c, v) ∈ inner → P a v) → tree_all P t →
  tree_all P (dd2_put a b inner t).
Proof.
  intros Hinner Ht a' by_b b' by_c c' v'. unfold dd2_put.
  intros [[= -> ->]|Hold]%al_set_elem; [|by apply (Ht a' by_b b' by_c c' v')].
  intros [[= -> ->]|Hold]%al_set_elem; [apply Hinner|].
  destruct (al_find a t) as [by0|] eqn:Ha; simpl in Hold.
  - apply al_find_Some_elem in Ha. by apply (Ht a by0 b' by_c c' v').
  - by apply elem_of_nil in Hold.
Qed.

Lemma tree_all_dd3_put {V} (P : string → V → Prop) a b c (v : V)
    (t : list (string * list (string * list (string * V)))) :
  P a v → tree_all P t → tree_all P (dd3_put a b c v t).
Proof.
  intros Hv Ht. unfold dd3_put. apply tree_all_dd2_put; [|done].
  intros c' v' [[= -> ->]|Hold]%al_set_elem; [done|].
  destruct (dd2_get_elem _ _ _ _ _ Hold) as (by_b & H1 & H2).
  by apply (Ht a by_b b (dd2_get a b t) c' v').
Qed.

Lemma aggregate_loop_tree_sound `{Vocabulary}
    (messages : list (option message)) (cache : gmap cval cval) :
  tree_all (λ _, stats_sound) (aggregate_loop messages cache).1.1.1.
Proof.
  unfold aggregate_loop.
  pose proof (aggregate_fold_kept
    (λ x, (∀ mt sg pa, stats_sound (stats_at mt sg pa x.1))
          ∧ tree_all (λ _, stats_sound) x.1)
    messages [] [] [] cache) as Hfold.
  simpl in Hfold. apply Hfold.
  - intros msg fs rt totals c Hinv.
    destruct (process_message_kept (message_type msg)
                (λ _ _ a b, stats_sound a.1 → stats_sound b.1)
                (λ x, (∀ mt sg pa, stats_sound (stats_at mt sg pa x.1))
                      ∧ tree_all (λ _, stats_sound) x.1))
      with (msg := msg) (fs := fs) (rt := rt) (totals := totals) (cache := c)
      as [seen' Hres]; try done.
    + auto.
    + intros value pa st seen sg. apply process_field_value_sound.
    + intros fs0 seen sg pa st' seen' [Hall Htree] Hrel. simpl in *.
      assert (Hst' : stats_sound st') by apply Hrel, Hall.
      split; [|by apply tree_all_dd3_put].
      intros mt0 sg0 pa0. rewrite stats_at_put. case_decide; [done|apply Hall].
  - split.
    + intros mt sg pa. unfold stats_at, dd3_find, dd2_get. simpl.
      split; [unfold MAX_UNIQUE; simpl; lia|]. split; [done|].
      intros _. simpl. split; [lia|]. apply not_elem_of_nil.
    + by intros ? ? ? ? ? ? ?%elem_of_nil.
Qed.

Lemma sound_stats_output (stats : FieldStats) :
  stats_sound stats →
  match values stats with [] => false | _ => true end
  && (0 <? presence_count stats) && has_content (values stats) = true →
  output_counter (values stats).
Proof.
  intros (Hlen & Hfr & Hun) [[Hne Hp]%andb_prop Hc]%andb_prop.
  destruct (_frozen stats) eqn:Hf.
  { rewrite (Hfr eq_refl) in Hc. by vm_compute in Hc. }
  destruct (Hun eq_refl) as [_ Hk]. split; [|done].
  destruct (values stats); [done|simpl; lia].
Qed.

Lemma to_output_counters
    (fs : list (string * list (string * list (string * FieldStats)))) :
  tree_all (λ _, stats_sound) fs →
  tree_all (λ _, output_counter) (to_output fs).1.
Proof.
  intros Hfs. unfold to_output.
  apply (foldl_kept_elem (λ st, tree_all (λ _, output_counter) st.1)).
  2: { by intros ? ? ? ? ? ? ?%elem_of_nil. }
  intros st [mt by_segment] Hmt Hst.
  apply (foldl_kept_elem (λ st, tree_all (λ _, output_counter) st.1)); [|done].
  clear st Hst. intros st [sg by_path] Hsg Hst.
  apply (foldl_kept_elem (λ st, tree_all (λ _, output_counter) st.1)); [|done].
  clear st Hst. intros [spec presence] [pa stats] Hpa Hst.
  destruct (_ && _) eqn:Hfilter; [|done]. simpl in *.
  apply tree_all_dd3_put; [|done].
  apply sound_stats_output; [|done].
  by apply (Hfs mt by_segment sg by_path pa stats).
Qed.

Lemma consolidate_group_counters `{Vocabulary}
    (P : list (string * nat) → Prop)
    mt sg fields presence cache group fields' presence' cache' :
  (∀ c v, (c, v) ∈ fields → P v) →
  consolidate_group mt sg (fields, presence, cache) group
  = Ok (fields', presence', cache') →
  ∀ c v, (c, v) ∈ fields' → P v.
Proof.
  intros Hall. destruct group as [b paths]. unfold consolidate_group.
  destruct (cached_datatype sg b cache) as [hl7_type cache1].
  case_bool_decide; [by intros [= <- <- <-]|].
  destruct (elements paths) as [|cp [|? ?]]; [by intros [= <- <- <-]|
                                              |by intros [= <- <- <-]].
  destruct (Str.endswith cp ".1"); [|by intros [= <- <- <-]].
  destruct (al_find cp fields) as [[|d data]|] eqn:Hcp;
    [by intros [= <- <- <-]| |by intros [= <- <- <-]].
  destruct (al_find cp (dd2_get mt sg presence)) as [n|]; [|done].
  intros [= <- <- <-] c v [[= -> ->]|Hold]%al_set_elem.
  - apply al_find_Some_elem in Hcp. by apply (Hall cp).
  - apply al_remove_elem in Hold. by apply (Hall c).
Qed.

Lemma consolidate_counters `{Vocabulary}
    (P : string → list (string * nat) → Prop)
    spec presence cache spec' presence' cache' :
  tree_all P spec →
  consolidate_single_component_fields spec presence cache
  = Ok (spec', presence', cache') →
  tree_all P spec'.
Proof.
  intros Hspec. unfold consolidate_single_component_fields. intros Hrun.
  apply (for_each_inv (λ st, tree_all P st.1.1) _ _ _ _) in Hrun; [done| |done].
  intros st [mt segs] st' Hmt Hst Hinner.
  apply (for_each_inv (λ st, tree_all P st.1.1) _ _ _ _) in Hinner;
    [done| |done].
  clear Hst. intros [[s0 p0] c0] [sg fields] [[s1 p1] c1] Hsg Hst.
  unfold consolidate_entry. simpl in Hst.
  destruct (consolidate_segment mt sg fields p0 c0)
    as [[[f' p'] c']|e] eqn:Hseg; [|done].
  simpl. intros [= <- <- <-]. simpl. apply tree_all_dd2_put; [|done].
  unfold consolidate_segment in Hseg.
  change ((λ st : list (string * list (string * nat)) * _ * _,
             ∀ c v, (c, v) ∈ st.1.1 → P mt v) (f', p', c')).
  eapply for_each_inv; [| |exact Hseg].
  - intros [[f0 q0] d0] group [[f1 q1] d1] _ Hf0. simpl in *.
    by apply (consolidate_group_counters (P mt)).
  - simpl. intros c v Hcv. by apply (Hspec mt segs sg fields c v).
Qed.

Lemma output_counter_type (vals : list (string * nat)) :
  output_counter vals →
  vals ≠ [("__TOO_MANY__", 1)] ∧ infer_type vals ≠ "unknown".
Proof.
  intros (Hpos & Hlen & Hk & Hc). split.
  { intros ->. by vm_compute in Hc. }
  unfold infer_type. unfold has_content in Hc.
  apply existsb_exists in Hc as (key & Hin & Hkey).
  apply list_elem_of_In, list_elem_of_filter in Hin as [Hns Hin].
  destruct (find _ (al_keys vals)) as [sample|] eqn:Hfind.
  - apply find_some in Hfind as [Hs _].
    destruct (String.eqb_spec sample "") as [->|_].
    { by apply list_elem_of_In in Hs. }
    repeat case_match; done.
  - exfalso. eapply find_none in Hfind; [|by apply list_elem_of_In].
    simpl in Hfind. apply negb_false_iff in Hfind.
    by apply String.eqb_eq in Hfind.
Qed.

(** X20: every counter of the value tree that [aggregate_data] returns
    holds between 1 and 100 keys, none of them the empty string and at
    least one of them not the overflow sentinel: a field that overflowed is
    not in the output, and [infer_type] never answers ["unknown"] for a
    field of the output. *)
Theorem aggregate_data_output_counters `{Vocabulary}
    (messages : list (option message)) (cache cache' : gmap cval cval)
    (a : aggregated) :
  aggregate_data messages cache = Ok (a, cache') →
  ∀ msg_type segs seg_name fields field_path vals,
    (msg_type, segs) ∈ agg_spec a → (seg_name, fields) ∈ segs →
    (field_path, vals) ∈ fields →
    0 < length vals ∧ length vals ≤ 100 ∧ "" ∉ al_keys vals ∧
    vals ≠ [("__TOO_MANY__", 1)] ∧ infer_type vals ≠ "unknown".
Proof.
  unfold aggregate_data.
  pose proof (aggregate_loop_tree_sound messages cache) as Hsound.
  destruct (aggregate_loop messages cache) as [[[fs rt] totals] c1].
  simpl in Hsound. apply to_output_counters in Hsound.
  destruct (to_output fs) as [spec presence]. simpl in Hsound.
  destruct (consolidate_single_component_fields spec presence c1)
    as [[[spec' presence'] c2]|e] eqn:Hcons; [|done].
  apply (consolidate_counters (λ _, output_counter)) in Hcons; [|done].
  destruct (profile_sequences_by_message_type messages) as [d|e]; [|done].
  simpl. intros [= <- <-]. simpl.
  intros mt segs sg fields pa vals Hmt Hsg Hpa.
  pose proof (Hcons mt segs sg fields pa vals Hmt Hsg Hpa) as Hout.
  destruct (output_counter_type vals Hout) as [Hns Hty].
  destruct Hout as (Hpos & Hlen & Hk & _). done.
Qed.

Lemma aggregate_data_output_counters_witness :
  ∃ a cache',
    @aggregate_data example_vocabulary overflow_corpus ∅ = Ok (a, cache') ∧
    ∀ msg_type segs seg_name fields field_path vals,
      (msg_type, segs) ∈ agg_spec a → (seg_name, fields) ∈ segs →
      (field_path, vals) ∈ fields →
      vals ≠ [("__TOO_MANY__", 1)].
Proof.
  assert (Hret : returned (@aggregate_data example_vocabulary overflow_corpus ∅)
                 = true) by (vm_compute; reflexivity).
  destruct (returned_Ok _ Hret) as [[a cache'] Hrun]. clear Hret.
  exists a, cache'. split; [exact Hrun|].
  intros mt segs sg fields pa vals Hmt Hsg Hpa.
  exact (proj1 (proj2 (proj2 (proj2
           (@aggregate_data_output_counters example_vocabulary
              overflow_corpus ∅ cache' a Hrun mt segs sg fields pa vals
              Hmt Hsg Hpa))))).
Defined.

(** ** The presence table that [aggregate_data] returns *)

Lemma aggregate_loop_keys_unique `{Vocabulary}
    (messages : list (option message)) (cache : gmap cval cval) :
  tree_keys_unique (aggregate_loop messages cache).1.1.1.
Proof.
  unfold aggregate_loop.
  pose proof (aggregate_fold_kept (λ x, tree_keys_unique x.1)
                messages [] [] [] cache) as Hfold.
  simpl in Hfold. apply Hfold.
  - intros msg fs rt totals c Hinv.
    destruct (process_message_kept (message_type msg)
                (λ _ _ _ _, True) (λ x, tree_keys_unique x.1))
      with (msg := msg) (fs := fs) (rt := rt) (totals := totals) (cache := c)
      as [seen' Hres]; try done.
    intros fs0 seen sg pa st' seen' Hu _. simpl in *.
    by apply dd3_put_keys_unique.
  - split; [constructor|]. by intros ? ? ?%elem_of_nil.
Qed.

Lemma tree_lookup {V} a by_b b by_c c (v : V)
    (t : list (string * list (string * list (string * V)))) :
  tree_keys_unique t →
  (a, by_b) ∈ t → (b, by_c) ∈ by_b → (c, v) ∈ by_c →
  dd3_find a b c t = Some v.
Proof.
  intros [Ht Hinner] Ha Hb Hc. destruct (Hinner a by_b Ha) as [Hby Hbc].
  unfold dd3_find, dd2_get.
  rewrite (al_elem_find a by_b t Ht Ha). simpl.
  rewrite (al_elem_find b by_c by_b Hby Hb). simpl.
  apply al_elem_find; [by apply (Hbc b by_c)|done].
Qed.

Lemma aggregate_loop_tree_presence `{Vocabulary}
    (messages : list (option message)) (cache : gmap cval cval) :
  tree_all (λ mt st, presence_count st ≤ length (of_type mt messages))
    (aggregate_loop messages cache).1.1.1.
Proof.
  intros mt by_seg sg by_path pa st Hmt Hsg Hpa.
  pose proof (tree_lookup _ _ _ _ _ _ _
                (aggregate_loop_keys_unique messages cache) Hmt Hsg Hpa)
    as Hfind.
  pose proof (aggregate_fold_presence messages [] [] [] cache mt sg pa)
    as Hle.
  fold (aggregate_loop messages cache) in Hle.
  unfold stats_at at 1 in Hle. rewrite Hfind in Hle. simpl in Hle.
  etrans; [exact Hle|]. done.
Qed.

Lemma to_output_presence (P : string → nat → Prop)
    (fs : list (string * list (string * list (string * FieldStats)))) :
  tree_all (λ mt st, 0 < presence_count st → P mt (presence_count st)) fs →
  tree_all P (to_output fs).2.
Proof.
  intros Hfs. unfold to_output.
  apply (foldl_kept_elem (λ st, tree_all P st.2)).
  2: { by intros ? ? ? ? ? ? ?%elem_of_nil. }
  intros st [mt by_segment] Hmt Hst.
  apply (foldl_kept_elem (λ st, tree_all P st.2)); [|done].
  clear st Hst. intros st [sg by_path] Hsg Hst.
  apply (foldl_kept_elem (λ st, tree_all P st.2)); [|done].
  clear st Hst. intros [spec presence] [pa stats] Hpa Hst.
  destruct (_ && _) eqn:Hfilter; [|done]. simpl in *.
  apply andb_prop in Hfilter as [[_ Hpos]%andb_prop _].
  apply Nat.ltb_lt in Hpos.
  apply tree_all_dd3_put; [|done].
  by apply (Hfs mt by_segment sg by_path pa stats).
Qed.

Lemma consolidate_group_presence `{Vocabulary} (P : string → nat → Prop)
    mt sg fields presence cache group fields' presence' cache' :
  tree_all P presence →
  consolidate_group mt sg (fields, presence, cache) group
  = Ok (fields', presence', cache') →
  tree_all P presence'.
Proof.
  intros Hall. destruct group as [b paths]. unfold consolidate_group.
  destruct (cached_datatype sg b cache) as [hl7_type cache1].
  case_bool_decide; [by intros [= <- <- <-]|].
  destruct (elements paths) as [|cp [|? ?]]; [by intros [= <- <- <-]|
                                              |by intros [= <- <- <-]].
  destruct (Str.endswith cp ".1"); [|by intros [= <- <- <-]].
  destruct (al_find cp fields) as [[|d data]|];
    [by intros [= <- <- <-]| |by intros [= <- <- <-]].
  destruct (al_find cp (dd2_get mt sg presence)) as [n|] eqn:Hn; [|done].
  intros [= <- <- <-]. apply tree_all_dd2_put; [|done].
  assert (Hinner : ∀ c v, (c, v) ∈ dd2_get mt sg presence → P mt v).
  { intros c v Hcv.
    destruct (dd2_get_elem _ _ _ _ _ Hcv) as (by_b & H1 & H2).
    by apply (Hall mt by_b sg (dd2_get mt sg presence) c v). }
  intros c v [[= -> ->]|Hold]%al_set_elem.
  - apply al_find_Some_elem in Hn. by apply (Hinner cp).
  - apply al_remove_elem in Hold. by apply (Hinner c).
Qed.

Lemma consolidate_presence `{Vocabulary} (P : string → nat → Prop)
    spec presence cache spec' presence' cache' :
  tree_all P presence →
  consolidate_single_component_fields spec presence cache
  = Ok (spec', presence', cache') →
  tree_all P presence'.
Proof.
  intros Hpres. unfold consolidate_single_component_fields. intros Hrun.
  apply (for_each_inv (λ st, tree_all P st.1.2) _ _ _ _) in Hrun; [done| |done].
  intros st [mt segs] st' Hmt Hst Hinner.
  apply (for_each_inv (λ st, tree_all P st.1.2) _ _ _ _) in Hinner;
    [done| |done].
  clear Hst. intros [[s0 p0] c0] [sg fields] [[s1 p1] c1] Hsg Hst.
  unfold consolidate_entry. simpl in Hst.
  destruct (consolidate_segment mt sg fields p0 c0)
    as [[[f' p'] c']|e] eqn:Hseg; [|done].
  simpl. intros [= <- <- <-]. simpl.
  unfold consolidate_segment in Hseg.
  apply (for_each_inv (λ st, tree_all P st.1.2) _ _ _ _) in Hseg; [done| |done].
  intros [[f0 q0] d0] group [[f1 q1] d1] _ Hq0. simpl in *.
  by apply consolidate_group_presence.
Qed.

(** X21: in the result of [aggregate_data], every entry of the presence
    table is at least 1 and at most the total recorded for its category,
    which is the number of decoded messages of that category. *)
Theorem aggregate_data_presence_bounds `{Vocabulary}
    (messages : list (option message)) (cache cache' : gmap cval cval)
    (a : aggregated) :
  aggregate_data messages cache = Ok (a, cache') →
  ∀ msg_type segs seg_name fields field_path n,
    (msg_type, segs) ∈ agg_presence a → (seg_name, fields) ∈ segs →
    (field_path, n) ∈ fields →
    0 < n ∧ n ≤ default 0 (al_find msg_type (agg_totals_by_type a)) ∧
    default 0 (al_find msg_type (agg_totals_by_type a))
    = length (of_type msg_type messages).
Proof.
  unfold aggregate_data.
  pose proof (aggregate_loop_tree_presence messages cache) as Hbound.
  assert (Htot : ∀ t, default 0 (al_find t (aggregate_loop messages cache).1.2)
                      = length (of_type t messages)).
  { intros t. unfold aggregate_loop.
    destruct (aggregate_fold_totals messages [] [] [] cache t) as [Ht _].
    cbv zeta in Ht. rewrite Ht. simpl. lia. }
  destruct (aggregate_loop messages cache) as [[[fs rt] totals] c1].
  simpl in Hbound, Htot.
  assert (Hout : tree_all (λ mt n, 0 < n ∧ n ≤ length (of_type mt messages))
                   (to_output fs).2).
  { apply to_output_presence. intros mt by_seg sg by_path pa st Hmt Hsg Hpa.
    split; [done|]. by apply (Hbound mt by_seg sg by_path pa st). }
  destruct (to_output fs) as [spec presence]. simpl in Hout.
  destruct (consolidate_single_component_fields spec presence c1)
    as [[[spec' presence'] c2]|e] eqn:Hcons; [|done].
  apply (consolidate_presence _ _ _ _ _ _ _ Hout) in Hcons.
  destruct (profile_sequences_by_message_type messages) as [d|e]; [|done].
  simpl. intros [= <- <-]. simpl.
  intros mt segs sg fields pa n Hmt Hsg Hpa.
  destruct (Hcons mt segs sg fields pa n Hmt Hsg Hpa) as [Hpos Hle].
  rewrite Htot. done.
Qed.

Lemma aggregate_data_presence_bounds_witness :
  ∃ a cache',
    @aggregate_data example_vocabulary small_corpus ∅ = Ok (a, cache') ∧
    ∀ msg_type segs seg_name fields field_path n,
      (msg_type, segs) ∈ agg_presence a → (seg_name, fields) ∈ segs →
      (field_path, n) ∈ fields →
      0 < n ∧ n ≤ default 0 (al_find msg_type (agg_totals_by_type a)).
Proof.
  assert (Hret : returned (@aggregate_data example_vocabulary small_corpus ∅)
                 = true) by (vm_compute; reflexivity).
  destruct (returned_Ok _ Hret) as [[a cache'] Hrun]. clear Hret.
  exists a, cache'. split; [exact Hrun|].
  intros mt segs sg fields pa n Hmt Hsg Hpa.
  destruct (@aggregate_data_presence_bounds example_vocabulary
              small_corpus ∅ cache' a Hrun mt segs sg fields pa n
              Hmt Hsg Hpa) as (Hpos & Hle & _).
  split; [exact Hpos|exact Hle].
Defined.

(** ** The repeat tracker *)

Lemma tracked_set mt sg mt0 sg0 (X : gset string)
    (rt : list (string * list (string * gset string))) :
  tracked mt sg
    (al_set mt0 (al_set sg0 X (default [] (al_find mt0 rt))) rt)
  = if decide (mt = mt0 ∧ sg = sg0) then X else tracked mt sg rt.
Proof.
  unfold tracked. destruct (decide (mt = mt0)) as [->|Hmt].
  - rewrite al_find_set_eq. simpl.
    destruct (decide (sg = sg0)) as [->|Hsg].
    + rewrite al_find_set_eq. by rewrite decide_True.
    + rewrite al_find_set_ne by done. rewrite decide_False; [done|].
      by intros [_ ?].
  - rewrite al_find_set_ne by done. rewrite decide_False; [done|].
    by intros [? _].
Qed.

Lemma process_field_tracked `{Vocabulary} mt0 sg0 rf fs rt seen c k value
    mt sg i :
  let r := process_field mt0 sg0 rf (fs, rt, seen, c, k) value in
  r.2 = k + 1 ∧
  (i ∈ tracked mt sg r.1.1.1.2 ↔
   i ∈ tracked mt sg rt ∨ (mt = mt0 ∧ sg = sg0 ∧ i ∈ rf ∧ i = pretty k)).
Proof.
  unfold process_field.
  destruct (process_field_unified _ _ _ _ _ _ _ _) as [[fs1 seen1] c1].
  cbv zeta. cbn [fst snd]. split; [done|].
  case_bool_decide as Hk.
  - fold (tracked mt0 sg0 rt). rewrite tracked_set. case_decide as Hkey.
    + destruct Hkey as [-> ->]. set_solver.
    + set_solver.
  - set_solver.
Qed.

Lemma process_fields_tracked `{Vocabulary} mt0 sg0 rf values fs rt seen c k
    mt sg i :
  let r := foldl (process_field mt0 sg0 rf) (fs, rt, seen, c, k) values in
  i ∈ tracked mt sg r.1.1.1.2 ↔
  i ∈ tracked mt sg rt ∨
  (mt = mt0 ∧ sg = sg0 ∧ i ∈ rf ∧
   ∃ j, k ≤ j < k + length values ∧ i = pretty j).
Proof.
  cbv zeta. revert fs rt seen c k.
  induction values as [|value values IH]; intros fs rt seen c k; cbn [foldl].
  - simpl. split; [by left|]. intros [?|(_ & _ & _ & j & ? & _)]; [done|lia].
  - destruct (process_field_tracked mt0 sg0 rf fs rt seen c k value mt sg i)
      as [Hk Hstep]. cbv zeta in Hk, Hstep.
    destruct (process_field mt0 sg0 rf (fs, rt, seen, c, k) value)
      as [[[[fs1 rt1] seen1] c1] k1]. cbn [fst snd] in Hk, Hstep. subst k1.
    rewrite IH, Hstep. cbn [length]. split.
    + intros [[?|(? & ? & ? & ?)]|(? & ? & ? & j & ? & ?)]; [by left|..].
      * right. repeat split; [done..|]. exists k. split; [lia|done].
      * right. repeat split; [done..|]. exists j. split; [lia|done].
    + intros [?|(? & ? & ? & j & Hj & ?)]; [by left; left|].
      destruct (decide (j = k)) as [->|Hne].
      * left; right. done.
      * right. repeat split; [done..|]. exists j. split; [lia|done].
Qed.

Lemma process_message_tracked `{Vocabulary} msg fs rt totals c mt sg i :
  i ∈ tracked mt sg (process_message msg (fs, rt, totals, c)).1.1.2 ↔
  i ∈ tracked mt sg rt ∨
  (mt = message_type msg ∧
   ∃ seg, seg ∈ segments msg ∧ name seg = sg ∧ flagged_position seg i).
Proof.
  unfold process_message.
  match goal with
  | |- context [foldl ?f (fs, rt, ∅, c) ?l] =>
      assert (Hfold : ∀ segs fs rt seen c,
        i ∈ tracked mt sg (foldl f (fs, rt, seen, c) segs).1.1.2 ↔
        i ∈ tracked mt sg rt ∨
        (mt = message_type msg ∧
         ∃ seg, seg ∈ segs ∧ name seg = sg ∧ flagged_position seg i))
  end.
  { induction segs as [|s segs IH]; intros fs0 rt0 seen0 c0; cbn [foldl].
    - simpl. split; [by left|].
      intros [?|(_ & seg & ?%elem_of_nil & _)]; done.
    - pose proof (process_fields_tracked (message_type msg) (name s)
                    (repeating_fields s) (fields s) fs0 rt0 seen0 c0 1
                    mt sg i) as Hstep. cbv zeta in Hstep.
      destruct (foldl (process_field _ _ _) _ (fields s))
        as [[[[fs1 rt1] seen1] c1] k1]. cbn [fst snd] in Hstep.
      rewrite IH, Hstep. unfold flagged_position. split.
      + intros [[?|(? & ? & ? & j & ? & ?)]|(? & seg & ? & ? & ?)];
          [by left|..].
        * right. split; [done|]. exists s. split; [by left|].
          split; [done|]. split; [done|]. exists j. split; [lia|done].
        * right. split; [done|]. exists seg. split; [by right|done].
      + intros [?|(? & seg & [->|?]%elem_of_cons & ? & ? & j & ? & ?)];
          [by left; left|..].
        * left; right. repeat split; [done..|]. exists j. split; [lia|done].
        * right. split; [done|]. exists seg. split; [done|].
          split; [done|]. split; [done|]. by exists j. }
  specialize (Hfold (segments msg) fs rt ∅ c).
  destruct (foldl _ _ (segments msg)) as [[[fs' rt'] seen'] c'].
  exact Hfold.
Qed.

Lemma aggregate_fold_tracked `{Vocabulary} msgs fs rt totals c mt sg i :
  i ∈ tracked mt sg
        (foldl (λ st msg, match msg with
                          | None => st
                          | Some msg => process_message msg st
                          end) (fs, rt, totals, c) msgs).1.1.2 ↔
  i ∈ tracked mt sg rt ∨
  ∃ msg seg, Some msg ∈ msgs ∧ message_type msg = mt ∧
             seg ∈ segments msg ∧ name seg = sg ∧ flagged_position seg i.
Proof.
  revert fs rt totals c.
  induction msgs as [|[msg|] msgs IH]; intros fs rt totals c; cbn [foldl].
  - simpl. split; [by left|].
    intros [?|(msg & seg & ?%elem_of_nil & _)]; done.
  - pose proof (process_message_tracked msg fs rt totals c mt sg i) as Hstep.
    destruct (process_message msg (fs, rt, totals, c))
      as [[[fs1 rt1] totals1] c1]. cbn [fst snd] in Hstep.
    rewrite IH, Hstep. split.
    + intros [[?|(? & seg & ? & ? & ?)]|(m & seg & ? & ? & ? & ? & ?)];
        [by left|..].
      * right. exists msg, seg. split; [by left|done].
      * right. exists m, seg. split; [by right|done].
    + intros [?|(m & seg & [[= ->]|?]%elem_of_cons & ? & ? & ? & ?)];
        [by left; left|..].
      * left; right. split; [done|]. by exists seg.
      * right. by exists m, seg.
  - rewrite IH. split.
    + intros [?|(m & seg & ? & ?)]; [by left|].
      right. exists m, seg. split; [by right|done].
    + intros [?|(m & seg & [?|?]%elem_of_cons & ?)]; [by left|done|].
      right. by exists m, seg.
Qed.

(** X22: in the result of [aggregate_data], the repeat tracker of a
    category and a segment name holds exactly the field positions that some
    decoded message of the category flags as repeating in a segment of that
    name, and only positions at which the segment has a field: each entry
    is the decimal text of a position from 1 to the number of fields. *)
Theorem aggregate_data_repeats `{Vocabulary}
    (messages : list (option message)) (cache cache' : gmap cval cval)
    (a : aggregated) :
  aggregate_data messages cache = Ok (a, cache') →
  ∀ msg_type seg_name i,
    i ∈ tracked msg_type seg_name (agg_repeats a) ↔
    ∃ msg seg, Some msg ∈ messages ∧ message_type msg = msg_type ∧
               seg ∈ segments msg ∧ name seg = seg_name ∧
               i ∈ repeating_fields seg ∧
               ∃ j, 1 ≤ j ≤ length (fields seg) ∧ i = pretty j.
Proof.
  unfold aggregate_data. intros Hrun mt sg i.
  pose proof (aggregate_fold_tracked messages [] [] [] cache mt sg i) as Hrt.
  fold (aggregate_loop messages cache) in Hrt.
  destruct (aggregate_loop messages cache) as [[[fs rt] totals] c1].
  destruct (to_output fs) as [spec presence].
  destruct (consolidate_single_component_fields spec presence c1)
    as [[[spec' presence'] c2]|e]; [|done].
  destruct (profile_sequences_by_message_type messages) as [d|e]; [|done].
  simpl in Hrun. injection Hrun as <- <-. cbn [agg_repeats].
  cbn [fst snd] in Hrt. rewrite Hrt. unfold tracked at 1. simpl.
  unfold flagged_position. split.
  - intros [?%elem_of_empty|?]; done.
  - intros ?. by right.
Qed.

Lemma aggregate_data_repeats_witness :
  ∃ a cache',
    @aggregate_data example_vocabulary small_corpus ∅ = Ok (a, cache') ∧
    ∀ msg_type seg_name i,
      i ∈ tracked msg_type seg_name (agg_repeats a) →
      ∃ j, 1 ≤ j ∧ i = pretty j.
Proof.
  assert (Hret : returned (@aggregate_data example_vocabulary small_corpus ∅)
                 = true) by (vm_compute; reflexivity).
  destruct (returned_Ok _ Hret) as [[a cache'] Hrun]. clear Hret.
  exists a, cache'. split; [exact Hrun|].
  intros mt sg i Hi.
  destruct (proj1 (@aggregate_data_repeats example_vocabulary small_corpus ∅
                     cache' a Hrun mt sg i) Hi)
    as (msg & seg & _ & _ & _ & _ & _ & j & [Hj _] & Hij).
  exists j. split; [exact Hj|exact Hij].
Defined.
